(** * SDV Modeler: a shallow embedding of [sdv/modeler.py]

    The development follows the source file top to bottom:
    Python values and the parameter flattener ([_flatten_array],
    [_flatten_dict]), the covariance and scale encoding of
    [_get_model_dict], a small model of the pandas objects the modeler
    manipulates, the imputer ([_impute]), the extender
    ([_get_extension]) and the recursive traversal ([cpa]).

    Numbers are rationals: rounding of floating point values is not
    modelled, and the natural logarithm is a parameter of the
    development. *)

From Stdlib Require Import String Ascii List Bool Arith ZArith QArith Lia.
From Stdlib Require Import DecimalString DecimalNat Permutation.
Import ListNotations.

Set Warnings "-register-all".
Local Open Scope string_scope.
Local Open Scope list_scope.
Local Open Scope nat_scope.

(** ** Python values *)

(** Scalars are the leaves of a parameter structure. *)
Inductive scalar : Type :=
| SNone
| SBool (b : bool)
| SNum (q : Q)
| SStr (s : string).

(** A nested parameter structure.  [VDict] is a Python [dict] (its items in
    insertion order), [VList] a Python [list] and [VArray] a
    [numpy.ndarray]; the two sequence types are kept apart because the
    source tests for them separately. *)
Inductive value : Type :=
| VScalar (s : scalar)
| VDict (items : list (string * value))
| VList (elems : list value)
| VArray (elems : list value).

(** A Python [dict] with string keys, as the list of its items in
    insertion order. *)
Definition pydict : Type := list (string * value).

(** [d[key] = v]: an existing key keeps its position and takes the new
    value, a new key is appended. *)
Fixpoint dict_set (key : string) (v : value) (d : pydict) : pydict :=
  match d with
  | [] => [(key, v)]
  | (k, w) :: rest =>
      if String.eqb k key then (k, v) :: rest
      else (k, w) :: dict_set key v rest
  end.

(** [d.update(other)] *)
Definition dict_update (d other : pydict) : pydict :=
  fold_left (fun acc kv => dict_set (fst kv) (snd kv) acc) other d.

Definition dict_keys (d : pydict) : list string := map fst d.

Fixpoint dict_get (key : string) (d : pydict) : option value :=
  match d with
  | [] => None
  | (k, w) :: rest => if String.eqb k key then Some w else dict_get key rest
  end.

(** [str(index)] for a position of an array. *)
Definition str_of_nat (n : nat) : string :=
  NilZero.string_of_uint (Nat.to_uint n).

(** ['__'.join([prefix, name]) if len(prefix) else name] *)
Definition join_prefix (prefix name : string) : string :=
  match prefix with
  | EmptyString => name
  | _ => (prefix ++ "__" ++ name)%string
  end.

(** ** The parameter flattener *)

Definition IGNORED_DICT_KEYS : list string :=
  ["fitted"; "distribution"; "type"].

Definition key_in (key : string) (keys : list string) : bool :=
  existsb (String.eqb key) keys.

(** [isinstance(value, (dict, list))] *)
Definition is_dict_or_list (v : value) : bool :=
  match v with
  | VDict _ | VList _ => true
  | _ => false
  end.

(** One iteration of the loop of [_flatten_array] on the element [item]
    found at the key [prefix_key]: a list or an array is flattened
    recursively (the inner loop is the loop of [_flatten_array] itself, on
    the sub-array and from an empty dictionary) and merged into [result];
    anything else is stored as it is. *)
Fixpoint flatten_item (item : value) (prefix_key : string) (result : pydict)
    {struct item} : pydict :=
  match item with
  | VList sub | VArray sub =>
      dict_update result
        ((fix loop (nested : list value) (index : nat) (acc : pydict)
            {struct nested} : pydict :=
            match nested with
            | [] => acc
            | x :: rest =>
                loop rest (S index)
                     (flatten_item x
                        (join_prefix prefix_key (str_of_nat index)) acc)
            end) sub 0%nat [])
  | _ => dict_set prefix_key item result
  end.

(** The loop of [_flatten_array], from position [index] on, with the
    dictionary built so far in [result]. *)
Fixpoint flatten_array_from (nested : list value) (index : nat)
    (prefix : string) (result : pydict) {struct nested} : pydict :=
  match nested with
  | [] => result
  | item :: rest =>
      let prefix_key := join_prefix prefix (str_of_nat index) in
      flatten_array_from rest (S index) prefix
                         (flatten_item item prefix_key result)
  end.

Definition _flatten_array (nested : list value) (prefix : string) : pydict :=
  flatten_array_from nested 0 prefix [].

(** [key in IGNORED_DICT_KEYS and not isinstance(value, (dict, list))] *)
Definition is_ignored (key : string) (v : value) : bool :=
  key_in key IGNORED_DICT_KEYS && negb (is_dict_or_list v).

(** The [elif] chain of [_flatten_dict] (lines 84-91) on a value [v] that
    is not skipped, found at the key [prefix_key].  For a nested mapping
    the inner loop is the loop of [_flatten_dict] itself, on the
    sub-mapping and from an empty dictionary. *)
Fixpoint flatten_value (v : value) (prefix_key : string) (result : pydict)
    {struct v} : pydict :=
  match v with
  | VDict sub =>
      dict_update result
        ((fix loop (items : list (string * value)) (acc : pydict)
            {struct items} : pydict :=
            match items with
            | [] => acc
            | (key, w) :: rest =>
                loop rest
                     (if is_ignored key w then acc
                      else flatten_value w (join_prefix prefix_key key) acc)
            end) sub [])
  | VArray sub | VList sub =>
      dict_update result (_flatten_array sub prefix_key)
  | VScalar _ => dict_set prefix_key v result
  end.

(** The loop of [_flatten_dict] over [nested.items()]. *)
Fixpoint flatten_dict_from (items : list (string * value))
    (prefix : string) (result : pydict) {struct items} : pydict :=
  match items with
  | [] => result
  | (key, v) :: rest =>
      let prefix_key := join_prefix prefix key in
      flatten_dict_from rest prefix
        (if is_ignored key v then result
         else flatten_value v prefix_key result)
  end.

Definition _flatten_dict (nested : pydict) (prefix : string) : pydict :=
  flatten_dict_from nested prefix [].

(** ** Covariance and scale encoding ([_get_model_dict], lines 138-147) *)

(** [enumerate]: the elements of a list with their positions. *)
Fixpoint enumerate_from {A : Type} (start : nat) (l : list A) : list (nat * A) :=
  match l with
  | [] => []
  | x :: rest => (start, x) :: enumerate_from (S start) rest
  end.

Definition enumerate {A : Type} (l : list A) : list (nat * A) :=
  enumerate_from 0 l.

(** A matrix as the list of its rows ([ndarray.tolist()]). *)
Definition matrix : Type := list (list Q).

(** [np.tril]: the entries above the diagonal are set to zero. *)
Definition tril (m : matrix) : matrix :=
  map (fun ir =>
         map (fun jx => if (fst jx <=? fst ir)%nat then snd jx else 0%Q)
             (enumerate (snd ir)))
      (enumerate m).

(** [for index, row in enumerate(triangle.tolist()):
       values.append(row[:index + 1])] *)
Definition lower_rows (triangle : matrix) : matrix :=
  map (fun ir => firstn (fst ir + 1) (snd ir)) (enumerate triangle).

Definition encode_covariance (covariance : matrix) : matrix :=
  lower_rows (tril covariance).

(** Entry [(i, j)] of a matrix or of a ragged sequence of rows. *)
Definition entry (m : matrix) (i j : nat) : Q :=
  nth j (nth i m []) 0%Q.

(** The symmetric matrix whose lower triangle is held by the ragged
    rows [rows]. *)
Definition rebuild (rows : matrix) : matrix :=
  map (fun i =>
         map (fun j => if (j <=? i)%nat then entry rows i j else entry rows j i)
             (seq 0 (length rows)))
      (seq 0 (length rows)).

(** Two numbers with the same representation. *)
Definition Q_same (a b : Q) : bool :=
  Z.eqb (Qnum a) (Qnum b) && Pos.eqb (Qden a) (Qden b).

Definition is_square (n : nat) (m : matrix) : bool :=
  Nat.eqb (length m) n && forallb (fun row => Nat.eqb (length row) n) m.

Definition is_symmetric (m : matrix) : bool :=
  forallb (fun i =>
             forallb (fun j => Q_same (entry m i j) (entry m j i))
                     (seq 0 (length m)))
          (seq 0 (length m)).

(** A per-column distribution descriptor: its scale parameter [std]
    ([None] is Python's [None]) and its other attributes. *)
Record Distribution : Type := mkDistribution {
  std : option Q;
  dist_attrs : pydict
}.

(** A fitted model: the covariance matrix, the per-column descriptors
    ([distribs], a dict in insertion order) and the remaining
    attributes. *)
Record FittedModel : Type := mkFittedModel {
  covariance : matrix;
  distribs : list (string * Distribution);
  model_attrs : pydict
}.

(** [if distribution.std is not None:
       distribution.std = np.log(distribution.std)] *)
Definition encode_scale (np_log : Q -> Q) (distribution : Distribution)
  : Distribution :=
  match std distribution with
  | Some s => mkDistribution (Some (np_log s)) (dist_attrs distribution)
  | None => distribution
  end.

(** The in-place rewriting of a fitted model between [_fit_model] and
    [to_dict]. *)
Definition encode_model (np_log : Q -> Q) (model : FittedModel) : FittedModel :=
  mkFittedModel
    (encode_covariance (covariance model))
    (map (fun kd => (fst kd, encode_scale np_log (snd kd))) (distribs model))
    (model_attrs model).

(** ** Errors *)

(** The exceptions the modelled code can raise.  [ModelError] stands for
    any failure of the external fitting primitive, [RecursionError] for the
    exhaustion of the call stack, [InvalidRef] for the use of an object
    that does not exist (it never happens in a run that starts from a
    well-formed store). *)
Inductive error : Type :=
| KeyError
| ValueError
| ModelError
| RecursionError
| InvalidRef.

Inductive result (A : Type) : Type :=
| Ok (a : A)
| Raise (e : error).

Arguments Ok {A} a.
Arguments Raise {A} e.

(** ** A model of the pandas objects used by the modeler *)

(** A cell of a table: [None] is a missing value ([NaN] or [None]). *)
Definition cell : Type := option value.

Inductive dtype : Type :=
| int64
| float64
| bool_
| object_.

Record Series : Type := mkSeries {
  dtype_of : dtype;
  values : list cell
}.

(** A [DataFrame]: the row labels (with their name, if any) and the
    columns in order.  Every column holds one cell per row label. *)
Record DataFrame : Type := mkDataFrame {
  index_name : option string;
  index : Series;
  columns : list (string * Series)
}.

Definition nrows (df : DataFrame) : nat := length (values (index df)).

Definition column_names (df : DataFrame) : list string :=
  map fst (columns df).

(** The number a scalar stands for in a comparison: a boolean is an
    integer in Python ([True == 1] and [False == 0]). *)
Definition scalar_number (s : scalar) : option Q :=
  match s with
  | SNum q => Some q
  | SBool true => Some 1%Q
  | SBool false => Some 0%Q
  | _ => None
  end.

(** Python's [==] on scalars. *)
Definition scalar_eqb (a b : scalar) : bool :=
  match scalar_number a, scalar_number b with
  | Some x, Some y => Qeq_bool x y
  | None, None =>
      match a, b with
      | SNone, SNone => true
      | SStr x, SStr y => String.eqb x y
      | _, _ => false
      end
  | _, _ => false
  end.

(** Equality of two values, the scalars being compared by [seq];
    mappings and sequences are compared item by item. *)
Fixpoint value_eqb_with (seq : scalar -> scalar -> bool) (a b : value)
    {struct a} : bool :=
  match a, b with
  | VScalar s, VScalar t => seq s t
  | VDict xs, VDict ys =>
      (fix items (xs : list (string * value)) (ys : list (string * value))
         {struct xs} : bool :=
         match xs, ys with
         | [], [] => true
         | (k, x) :: xs', (l, y) :: ys' =>
             String.eqb k l && value_eqb_with seq x y && items xs' ys'
         | _, _ => false
         end) xs ys
  | VList xs, VList ys | VArray xs, VArray ys =>
      (fix elems (xs : list value) (ys : list value) {struct xs} : bool :=
         match xs, ys with
         | [], [] => true
         | x :: xs', y :: ys' => value_eqb_with seq x y && elems xs' ys'
         | _, _ => false
         end) xs ys
  | _, _ => false
  end.

(** Python's [==] on values: numbers are equal when they denote the same
    quantity, and a boolean is equal to the number it is worth. *)
Definition value_eqb : value -> value -> bool := value_eqb_with scalar_eqb.

(** Equality of labels and cells; missing values match each other, as
    they do in [unique] and in [merge]. *)
Definition cell_eqb (a b : cell) : bool :=
  match a, b with
  | None, None => true
  | Some x, Some y => value_eqb x y
  | _, _ => false
  end.

Definition isna (c : cell) : bool :=
  match c with None => true | Some _ => false end.

(** [pd.Series(...)] of a Python value: [None] is a missing value. *)
Definition cell_of_value (v : value) : cell :=
  match v with
  | VScalar SNone => None
  | _ => Some v
  end.

Definition num (q : Q) : value := VScalar (SNum q).

Definition num_of_nat (n : nat) : value := num (inject_Z (Z.of_nat n)).

Definition num_of_cell (c : cell) : option Q :=
  match c with
  | Some (VScalar (SNum q)) => Some q
  | _ => None
  end.

(** The non-missing values of a series, in order. *)
Definition present (s : Series) : list value :=
  flat_map (fun c => match c with Some v => [v] | None => [] end) (values s).

Definition present_nums (s : Series) : list Q :=
  flat_map (fun c => match num_of_cell c with Some q => [q] | None => [] end)
           (values s).

(** [Series.mean()]: the mean of the non-missing values, [NaN] when there
    is none.  The quotient is exact: the code computes it in [float64],
    and the value here is the one of the code up to rounding only (and as
    long as the sum does not overflow). *)
Definition mean (s : Series) : cell :=
  match present_nums s with
  | [] => None
  | qs =>
      Some (num (Qred (fold_right Qplus 0%Q qs
                       / inject_Z (Z.of_nat (length qs)))))
  end.

(** The distinct elements of a list in order of first appearance. *)
Definition distinct {A : Type} (eqb : A -> A -> bool) (l : list A) : list A :=
  fold_left (fun acc x => if existsb (eqb x) acc then acc else acc ++ [x]) l [].

(** [Series.unique()] *)
Definition unique (s : Series) : list cell := distinct cell_eqb (values s).

Definition count_of (v : value) (l : list value) : nat :=
  length (filter (value_eqb v) l).

(** Two values that Python can order: two numbers (booleans included)
    or two strings. *)
Definition same_kind (a b : value) : bool :=
  match a, b with
  | VScalar s, VScalar t =>
      match scalar_number s, scalar_number t with
      | Some _, Some _ => true
      | None, None =>
          match s, t with
          | SStr _, SStr _ => true
          | _, _ => false
          end
      | _, _ => false
      end
  | _, _ => false
  end.

Definition value_leb (a b : value) : bool :=
  match a, b with
  | VScalar s, VScalar t =>
      match scalar_number s, scalar_number t with
      | Some x, Some y => Qle_bool x y
      | _, _ =>
          match s, t with
          | SStr x, SStr y => String.leb x y
          | _, _ => true
          end
      end
  | _, _ => true
  end.

Fixpoint insert_sorted (v : value) (l : list value) : list value :=
  match l with
  | [] => [v]
  | w :: rest => if value_leb v w then v :: l else w :: insert_sorted v rest
  end.

(** The result of [mode] is sorted when its values can be compared with
    each other, and left in order of first appearance otherwise. *)
Definition sort_values (l : list value) : list value :=
  match l with
  | [] => []
  | v :: rest =>
      if forallb (same_kind v) l then fold_right insert_sorted [] l else l
  end.

(** [Series.mode()]: the most frequent non-missing values. *)
Definition mode (s : Series) : list value :=
  let vals := present s in
  let candidates := distinct value_eqb vals in
  let best := fold_right Nat.max 0%nat (map (fun v => count_of v vals) candidates) in
  sort_values (filter (fun v => Nat.eqb (count_of v vals) best) candidates).

(** [Series.mode()[0]]: a lookup error when there is no mode. *)
Definition mode_first (s : Series) : result cell :=
  match mode s with
  | [] => Raise KeyError
  | v :: _ => Ok (Some v)
  end.

Definition is_number (c : cell) : bool :=
  match c with
  | Some (VScalar (SNum _)) => true
  | _ => false
  end.

Definition is_boolean (c : cell) : bool :=
  match c with
  | Some (VScalar (SBool _)) => true
  | _ => false
  end.

(** The dtype of a filled column.  A column of Python objects is
    converted to the dtype its cells allow: booleans only give a column
    of booleans, numbers only (a missing value counts as one) a numeric
    column, for which [float64] stands; anything else, and a column
    without a row, stays a column of objects.  The other dtypes are
    kept. *)
Definition converted (d : dtype) (cells : list cell) : dtype :=
  match d, cells with
  | object_, _ :: _ =>
      if forallb is_boolean cells then bool_
      else if forallb (fun c => isna c || is_number c) cells then float64
      else object_
  | _, _ => d
  end.

(** [Series.fillna(fill_value)]: a new series in which the missing cells
    hold the fill value. *)
Definition fillna (s : Series) (fill_value : cell) : Series :=
  let cells :=
    map (fun c => match c with None => fill_value | Some _ => c end)
        (values s) in
  mkSeries (converted (dtype_of s) cells) cells.

(** [Series.fillna(fill_value, inplace=True)]: a series without a
    missing cell is left as it is. *)
Definition fillna_inplace (s : Series) (fill_value : cell) : Series :=
  if forallb (fun c => negb (isna c)) (values s) then s
  else fillna s fill_value.

(** [df[name]] *)
Fixpoint lookup_column (name : string) (cols : list (string * Series))
  : option Series :=
  match cols with
  | [] => None
  | (k, s) :: rest => if String.eqb k name then Some s else lookup_column name rest
  end.

Definition getitem (df : DataFrame) (name : string) : result Series :=
  match lookup_column name (columns df) with
  | Some s => Ok s
  | None => Raise KeyError
  end.

Fixpoint set_column (name : string) (s : Series) (cols : list (string * Series))
  : list (string * Series) :=
  match cols with
  | [] => [(name, s)]
  | (k, old) :: rest =>
      if String.eqb k name then (k, s) :: rest
      else (k, old) :: set_column name s rest
  end.

(** [df[name] = s] for a series [s] with the row labels of [df]. *)
Definition setitem (df : DataFrame) (name : string) (s : Series) : DataFrame :=
  mkDataFrame (index_name df) (index df) (set_column name s (columns df)).

(** [dtype in (np.int, np.float)] *)
Definition is_int_or_float (d : dtype) : bool :=
  match d with
  | int64 | float64 => true
  | _ => false
  end.

(** The dtype of a column into which a missing value is introduced. *)
Definition upcast (d : dtype) : dtype :=
  match d with
  | int64 => float64
  | bool_ => object_
  | _ => d
  end.

(** The rows of a series at the given positions; [None] is a row that
    has no counterpart and is filled with a missing value. *)
Definition take (positions : list (option nat)) (s : Series) : Series :=
  mkSeries
    (if existsb (fun p => match p with None => true | Some _ => false end)
                positions
     then upcast (dtype_of s) else dtype_of s)
    (map (fun p => match p with
                   | Some i => nth i (values s) None
                   | None => None
                   end) positions).

(** The positions of the rows whose label is [label]. *)
Definition positions_of (label : cell) (labels : list cell) : list nat :=
  map fst (filter (fun il => cell_eqb (snd il) label) (enumerate labels)).

(** [df.set_index(key)]: the column [key] becomes the index. *)
Definition set_index (df : DataFrame) (key : string) : result DataFrame :=
  match lookup_column key (columns df) with
  | Some s =>
      Ok (mkDataFrame (Some key) s
            (filter (fun ks => negb (String.eqb (fst ks) key)) (columns df)))
  | None => Raise KeyError
  end.

(** The rows of a frame at the given positions, as a new frame. *)
Definition take_rows (positions : list (option nat)) (df : DataFrame)
  : DataFrame :=
  mkDataFrame (index_name df) (take positions (index df))
              (map (fun ks => (fst ks, take positions (snd ks))) (columns df)).

(** [df.loc[[label]]]: the rows labelled [label], as a new frame.  The
    lookup fails when no row carries the label, and also when the label
    is a missing value that more than one row carries. *)
Definition loc (df : DataFrame) (label : cell) : result DataFrame :=
  match positions_of label (values (index df)) with
  | [] => Raise KeyError
  | p :: ps =>
      match label, ps with
      | None, _ :: _ => Raise KeyError
      | _, _ => Ok (take_rows (map Some (p :: ps)) df)
      end
  end.

(** A series whose labels are strings: the row built for one group. *)
Definition labelled : Type := list (string * cell).

(** [pd.Series(row)] for a dictionary [row] *)
Definition series_of_dict (row : pydict) : labelled :=
  map (fun kv => (fst kv, cell_of_value (snd kv))) row.

(** [row.index = prefix + row.index] *)
Definition prefix_labels (prefix : string) (row : labelled) : labelled :=
  map (fun kc => ((prefix ++ fst kc)%string, snd kc)) row.

Fixpoint lookup_label (name : string) (row : labelled) : cell :=
  match row with
  | [] => None
  | (k, c) :: rest => if String.eqb k name then c else lookup_label name rest
  end.

(** [pd.Series(row)] is a series of numbers when the values of [row] are
    numbers and [None] with at least one number ([None] is then turned
    into [NaN]); otherwise it holds the Python objects as they are. *)
Definition row_is_object (row : labelled) : bool :=
  negb (forallb (fun kc => isna (snd kc) || is_number (snd kc)) row
        && existsb (fun kc => is_number (snd kc)) row).

(** The cell of the column [name] in the frame built from [row] is a
    [NaN] rather than a [None]: the row lacks the label, or it is a
    series of numbers. *)
Definition nan_cell (name : string) (row : labelled) : bool :=
  negb (key_in name (map fst row))
  || (isna (lookup_label name row) && negb (row_is_object row)).

(** The dtype of the column [name] of a frame built from the rows
    [rows].  A column of numbers and missing values is numeric ([float64]
    stands for it), unless all its cells are [None] objects; a column of
    booleans is boolean; anything else is a column of objects. *)
Definition column_dtype (name : string) (rows : list labelled) : dtype :=
  let cells := map (lookup_label name) rows in
  if forallb (fun c => isna c || is_number c) cells
  then
    if existsb (fun row => is_number (lookup_label name row)
                           || nan_cell name row) rows
    then float64 else object_
  else if forallb (fun c => match c with
                            | Some (VScalar (SBool _)) => true
                            | _ => false
                            end) cells
  then bool_ else object_.

(** [pd.DataFrame(rows, index=labels)] for a list of labelled series: one
    row per series, one column per label met in the series (in order
    of first appearance), a missing value where a series lacks the
    label. *)
Definition frame_of_rows (rows : list labelled) (labels : Series) : DataFrame :=
  let names := distinct String.eqb (flat_map (map fst) rows) in
  mkDataFrame None labels
    (map (fun name =>
            (name, mkSeries (column_dtype name rows)
                            (map (lookup_label name) rows)))
         names).

(** The row pairs of a left join on the row labels: every left row with
    each right row of the same label, or alone when there is none. *)
Definition left_join (left right : list cell) : list (nat * option nat) :=
  flat_map (fun il =>
              match positions_of (snd il) right with
              | [] => [(fst il, None)]
              | ps => map (fun j => (fst il, Some j)) ps
              end)
           (enumerate left).

(** The name of a merged column: a name found on both sides takes the
    suffix of its side. *)
Definition suffixed (suffix : string) (others : list string) (name : string)
  : string :=
  if key_in name others then (name ++ suffix)%string else name.

Definition has_duplicates (labels : list cell) : bool :=
  negb (Nat.eqb (length (distinct cell_eqb labels)) (length labels)).

(** The order of the labels in a sorted join: numbers by value, strings
    alphabetically, missing labels last. *)
Definition label_leb (a b : cell) : bool :=
  match a, b with
  | Some x, Some y => value_leb x y
  | Some _, None => true
  | None, Some _ => false
  | None, None => true
  end.

Fixpoint insert_pair (labels : list cell) (p : nat * option nat)
    (l : list (nat * option nat)) : list (nat * option nat) :=
  match l with
  | [] => [p]
  | q :: rest =>
      if label_leb (nth (fst p) labels None) (nth (fst q) labels None)
      then p :: l
      else q :: insert_pair labels p rest
  end.

(** The pairs sorted by the label of their left row, the pairs of equal
    labels staying in order. *)
Definition sort_pairs (labels : list cell) (l : list (nat * option nat))
  : list (nat * option nat) :=
  fold_right (insert_pair labels) [] l.

(** Whether the join of two indexes goes through the path of pandas for
    labels that are not unique: one of the two has a repeated label, and
    the right one is not empty. *)
Definition join_sorts (left right : list cell) : bool :=
  match right with
  | [] => false
  | _ => has_duplicates left || has_duplicates right
  end.

(** The row pairs of the merged frame.  When no label is repeated the
    rows of the left frame keep their order; the join of indexes with a
    repeated label sorts the rows by label. *)
Definition join_rows (left right : list cell) : list (nat * option nat) :=
  if join_sorts left right then sort_pairs left (left_join left right)
  else left_join left right.

(** The name of the index of the merged frame: the one of the left
    frame, except that the join of indexes with a repeated label keeps a
    name only when both indexes carry it. *)
Definition joined_name (left right : DataFrame) : option string :=
  if join_sorts (values (index left)) (values (index right))
  then
    match index_name left, index_name right with
    | Some a, Some b => if String.eqb a b then Some a else None
    | _, _ => None
    end
  else index_name left.

(** [left.merge(right, how='left', left_index=True, right_index=True)] *)
Definition merge (left right : DataFrame) : DataFrame :=
  let pairs := join_rows (values (index left)) (values (index right)) in
  let lpos := map (fun p => Some (fst p)) pairs in
  let rpos := map snd pairs in
  mkDataFrame (joined_name left right) (take lpos (index left))
    (map (fun ks => (suffixed "_x" (column_names right) (fst ks),
                     take lpos (snd ks))) (columns left)
     ++ map (fun ks => (suffixed "_y" (column_names left) (fst ks),
                        take rpos (snd ks))) (columns right)).

(** [RangeIndex(n)] *)
Definition range_index (n : nat) : Series :=
  mkSeries int64 (map (fun i => Some (num_of_nat i)) (seq 0 n)).

(** [df.reset_index(inplace=True)]: the index becomes the first column
    and the rows are numbered from zero. *)
Definition reset_index (df : DataFrame) : result DataFrame :=
  let name :=
    match index_name df with
    | Some n => n
    | None => if key_in "index" (column_names df) then "level_0" else "index"
    end in
  if key_in name (column_names df) then Raise ValueError
  else Ok (mkDataFrame None (range_index (nrows df))
             ((name, index df) :: columns df)).

(** [df.index = s] *)
Definition assign_index (df : DataFrame) (name : string) (s : Series)
  : result DataFrame :=
  if Nat.eqb (length (values s)) (nrows df)
  then Ok (mkDataFrame (Some name) s (columns df))
  else Raise ValueError.

Fixpoint all_eqb (a b : list cell) : bool :=
  match a, b with
  | [], [] => true
  | x :: a', y :: b' => cell_eqb x y && all_eqb a' b'
  | _, _ => false
  end.

(** The column [s] of a frame whose rows are labelled [others], seen
    from rows labelled [labels]: every row takes the cell of the row of
    [others] that carries its label, and a missing value when there is
    none. *)
Definition align (labels others : list cell) (s : Series) : Series :=
  take (map (fun l => hd_error (positions_of l others)) labels) s.

(** [df[name] = s] for a series [s] that carries the row labels [labels]:
    the values are aligned on the labels of [df]. *)
Definition setitem_aligned (df : DataFrame) (name : string)
    (labels : list cell) (s : Series) : result DataFrame :=
  if all_eqb (values (index df)) labels then Ok (setitem df name s)
  else if has_duplicates labels then Raise ValueError
  else Ok (setitem df name (align (values (index df)) labels s)).

(** ** The store of objects and the effects *)

(** What the modeler does to the outside world: the messages it logs and
    the tables it asks the metadata to load. *)
Inductive event : Type :=
| Info (msg : string)
| LoadTable (name : string).

(** The state of a run: the frames that exist (a reference to a frame is
    its position in [heap]), [self.models], and the events so far. *)
Record World : Type := mkWorld {
  heap : list DataFrame;
  models : list (string * FittedModel);
  events : list event
}.

Definition ref : Type := nat.

(** Computations that read and write the world and may raise. *)
Definition M (A : Type) : Type := World -> result A * World.

Definition ret {A : Type} (a : A) : M A := fun w => (Ok a, w).

Definition raise {A : Type} (e : error) : M A := fun w => (Raise e, w).

Definition bind {A B : Type} (c : M A) (k : A -> M B) : M B :=
  fun w =>
    match c w with
    | (Ok a, w') => k a w'
    | (Raise e, w') => (Raise e, w')
    end.

Notation "x <- c ;; k" := (bind c (fun x => k))
  (at level 61, c at next level, right associativity).
Notation "c ;;; k" := (bind c (fun _ => k))
  (at level 61, right associativity).

Definition lift {A : Type} (r : result A) : M A :=
  fun w => (r, w).

(** A new object. *)
Definition alloc (df : DataFrame) : M ref :=
  fun w => (Ok (length (heap w)),
            mkWorld (heap w ++ [df]) (models w) (events w)).

Definition read (r : ref) : M DataFrame :=
  fun w =>
    match nth_error (heap w) r with
    | Some df => (Ok df, w)
    | None => (Raise InvalidRef, w)
    end.

Fixpoint replace_nth {A : Type} (n : nat) (x : A) (l : list A) : list A :=
  match l, n with
  | [], _ => []
  | _ :: rest, O => x :: rest
  | y :: rest, S n' => y :: replace_nth n' x rest
  end.

(** The object [r] is changed in place. *)
Definition write (r : ref) (df : DataFrame) : M unit :=
  fun w => (Ok tt, mkWorld (replace_nth r df (heap w)) (models w) (events w)).

Definition emit (e : event) : M unit :=
  fun w => (Ok tt, mkWorld (heap w) (models w) (events w ++ [e])).

Fixpoint set_model (name : string) (m : FittedModel)
    (d : list (string * FittedModel)) : list (string * FittedModel) :=
  match d with
  | [] => [(name, m)]
  | (k, old) :: rest =>
      if String.eqb k name then (k, m) :: rest
      else (k, old) :: set_model name m rest
  end.

(** [self.models[name] = m] *)
Definition store_model (name : string) (m : FittedModel) : M unit :=
  fun w => (Ok tt, mkWorld (heap w) (set_model name m (models w)) (events w)).

(** A [for] loop. *)
Fixpoint for_each {A : Type} (l : list A) (body : A -> M unit) : M unit :=
  match l with
  | [] => ret tt
  | x :: rest => body x ;;; for_each rest body
  end.

(** ** The imputer *)

(** Lines 99-102 of [_impute]: the mean of a column of integers or
    floats, the first mode of any other column. *)
Definition fill_value_of (column_data : Series) : result cell :=
  if is_int_or_float (dtype_of column_data)
  then Ok (mean column_data)
  else mode_first column_data.

(** The body of the loop of [_impute] for the column [column] of the
    object [data]. *)
Definition impute_column (data : ref) (column : string) : M unit :=
  df <- read data ;;
  column_data <- lift (getitem df column) ;;
  fill_value <- lift (fill_value_of column_data) ;;
  df <- read data ;;
  column_now <- lift (getitem df column) ;;
  write data (setitem df column (fillna column_now fill_value)).

(** [_impute(data)]: the columns of the object [data] are filled one by
    one, in place, and the same object is returned. *)
Definition _impute (data : ref) : M ref :=
  df <- read data ;;
  for_each (column_names df) (impute_column data) ;;;
  ret data.

(** What the loop of [_impute] does to the frame held by the object, one
    column after the other: the outcome and the frame as the loop leaves
    it (a failure keeps the columns filled so far). *)
Definition impute_frame_column (df : DataFrame) (column : string)
  : result DataFrame :=
  match getitem df column with
  | Ok column_data =>
      match fill_value_of column_data with
      | Ok fill_value =>
          Ok (setitem df column (fillna column_data fill_value))
      | Raise e => Raise e
      end
  | Raise e => Raise e
  end.

Fixpoint impute_frame (names : list string) (df : DataFrame)
  : result unit * DataFrame :=
  match names with
  | [] => (Ok tt, df)
  | column :: rest =>
      match impute_frame_column df column with
      | Ok df' => impute_frame rest df'
      | Raise e => (Raise e, df)
      end
  end.

(** The world in which the object [r] holds the frame [df]. *)
Definition with_object (w : World) (r : ref) (df : DataFrame) : World :=
  mkWorld (replace_nth r df (heap w)) (models w) (events w).

(** A series without a missing value. *)
Definition all_present (s : Series) : bool :=
  forallb (fun c => negb (isna c)) (values s).

(** A series of missing values only. *)
Definition all_missing (s : Series) : bool :=
  forallb isna (values s).

(** ** The collaborators *)

(** The metadata service.  [get_primary_key] and [get_foreign_key] return
    a column name or [None]; [get_children] and [get_parents] are given
    in the order in which the sets are iterated. *)
Record Metadata : Type := mkMetadata {
  load_table : string -> result DataFrame;
  transform : string -> DataFrame -> result DataFrame;
  get_primary_key : string -> option string;
  get_children : string -> list string;
  get_foreign_key : string -> string -> option string;
  get_parents : string -> list string;
  get_tables : list string
}.

(** The model class: [fit] builds an instance with the keyword arguments
    of the modeler and fits it to a frame, [to_dict] exports the
    parameters of an instance. *)
Record ModelClass : Type := mkModelClass {
  fit : DataFrame -> result FittedModel;
  to_dict : FittedModel -> pydict
}.

(** Truth value of an optional string: [None] and [''] are false. *)
Definition truthy (s : option string) : option string :=
  match s with
  | Some EmptyString => None
  | other => other
  end.

Section Modeler.

Variable metadata : Metadata.
Variable model : ModelClass.
Variable np_log : Q -> Q.

(** [_fit_model(data)] *)
Definition _fit_model (data : ref) : M FittedModel :=
  data <- _impute data ;;
  df <- read data ;;
  lift (fit model df).

(** [_get_model_dict(data)] *)
Definition _get_model_dict (data : ref) : M pydict :=
  fitted <- _fit_model data ;;
  ret (_flatten_dict (to_dict model (encode_model np_log fitted)) "").

(** The row of the extension built for one group of child rows
    (the body of the loop of [_get_extension]). *)
Definition extension_row (child_name : string) (child_table : DataFrame)
    (foreign_key_value : cell) : M labelled :=
  group <- lift (loc child_table foreign_key_value) ;;
  child_rows <- alloc group ;;
  let num_child_rows := nrows group in
  row <- _get_model_dict child_rows ;;
  let row := dict_set "child_rows" (num_of_nat num_child_rows) row in
  ret (prefix_labels ("__" ++ child_name ++ "__") (series_of_dict row)).

Fixpoint extension_rows (child_name : string) (child_table : DataFrame)
    (foreign_key_values : list cell) : M (list labelled) :=
  match foreign_key_values with
  | [] => ret []
  | v :: rest =>
      row <- extension_row child_name child_table v ;;
      rows <- extension_rows child_name child_table rest ;;
      ret (row :: rows)
  end.

(** [_get_extension(child_name, child_table, foreign_key)] *)
Definition _get_extension (child_name : string) (child_table : ref)
    (foreign_key : option string) : M ref :=
  table <- read child_table ;;
  key <- lift (match foreign_key with
               | Some k => Ok k
               | None => Raise KeyError
               end) ;;
  key_column <- lift (getitem table key) ;;
  let foreign_key_values := unique key_column in
  indexed <- lift (set_index table key) ;;
  rows <- extension_rows child_name indexed foreign_key_values ;;
  alloc (frame_of_rows rows
           (mkSeries (dtype_of key_column) foreign_key_values)).

(** The row [row] is the one the extender builds for some group of the
    child table indexed by its foreign key: the flattened parameters of
    the model fitted to the group, with the number of rows of the group
    under [child_rows], every key behind the prefix of the child. *)
Definition is_group_row (child_name : string) (indexed : DataFrame)
    (label : cell) (row : labelled) : Prop :=
  exists group params data w1 w2,
    loc indexed label = Ok group
    /\ _get_model_dict data w1 = (Ok params, w2)
    /\ nth_error (heap w1) data = Some group
    /\ row = prefix_labels ("__" ++ child_name ++ "__")
               (series_of_dict
                  (dict_set "child_rows" (num_of_nat (nrows group)) params)).

Fixpoint lookup_table (name : string) (tables : list (string * ref))
  : result ref :=
  match tables with
  | [] => Raise KeyError
  | (k, r) :: rest => if String.eqb k name then Ok r else lookup_table name rest
  end.

(** Lines 204-207 of [cpa]: the table is taken from [tables] when the
    mapping is true (given and not empty), and loaded otherwise. *)
Definition resolve_table (table_name : string)
    (tables : option (list (string * ref))) : M ref :=
  match tables with
  | Some (t :: ts) => lift (lookup_table table_name (t :: ts))
  | _ =>
      emit (LoadTable table_name) ;;;
      table <- lift (load_table metadata table_name) ;;
      alloc table
  end.

(** The column of the child counts of the child [child_name]. *)
Definition child_rows_column (child_name : string) : string :=
  "__" ++ child_name ++ "__child_rows".

(** [extended[name].fillna(0, inplace=True)] *)
Definition fill_child_rows (extended : ref) (name : string) : M unit :=
  df <- read extended ;;
  counts <- lift (getitem df name) ;;
  write extended (setitem df name (fillna_inplace counts (Some (num 0)))).

(** The body of the loop over the children in [cpa] (lines 215-220);
    [recur] is [cpa] itself on the tables at hand, and the result is the
    object bound to [extended] after the iteration. *)
Definition extend_with_child (recur : string -> option string -> M ref)
    (table_name child_name : string) (extended : ref) : M ref :=
  let child_key := get_foreign_key metadata table_name child_name in
  child_table <- recur child_name child_key ;;
  extension <- _get_extension child_name child_table child_key ;;
  left <- read extended ;;
  right <- read extension ;;
  extended <- alloc (merge left right) ;;
  fill_child_rows extended (child_rows_column child_name) ;;;
  ret extended.

Fixpoint extend_with_children (recur : string -> option string -> M ref)
    (table_name : string) (children : list string) (extended : ref)
  : M ref :=
  match children with
  | [] => ret extended
  | child_name :: rest =>
      extended <- extend_with_child recur table_name child_name extended ;;
      extend_with_children recur table_name rest extended
  end.

(** Lines 212-214 of [cpa], for a primary key [key]. *)
Definition index_by_primary_key (table extended : ref) (key : string)
  : M unit :=
  table_now <- read table ;;
  keys <- lift (getitem table_now key) ;;
  df <- read extended ;;
  df <- lift (assign_index df key keys) ;;
  write extended df.

(** Lines 224-225 of [cpa]. *)
Definition restore_primary_key (extended : ref) : M unit :=
  df <- read extended ;;
  df <- lift (reset_index df) ;;
  write extended df.

(** Lines 227-228 of [cpa], for a foreign key [key]. *)
Definition attach_foreign_key (table extended : ref) (key : string)
  : M unit :=
  table_now <- read table ;;
  keys <- lift (getitem table_now key) ;;
  df <- read extended ;;
  df <- lift (setitem_aligned df key (values (index table_now)) keys) ;;
  write extended df.

(** The body of [cpa(table_name, tables, foreign_key)]; [recur] is the
    recursive call on the same tables.  The frame the metadata returns
    from [transform] is taken to be a new object, and so is the result
    of [merge]; the object bound to [extended] is the one that
    [_fit_model] fills in place and the one that is returned. *)
Definition cpa_body (recur : string -> option string -> M ref)
    (table_name : string) (tables : option (list (string * ref)))
    (foreign_key : option string) : M ref :=
  emit (Info ("Modeling " ++ table_name)) ;;;
  table <- resolve_table table_name tables ;;
  table_now <- read table ;;
  transformed <- lift (transform metadata table_name table_now) ;;
  extended <- alloc transformed ;;
  let primary_key := get_primary_key metadata table_name in
  extended <-
    match truthy primary_key with
    | Some key =>
        index_by_primary_key table extended key ;;;
        extend_with_children recur table_name
          (get_children metadata table_name) extended
    | None => ret extended
    end ;;
  fitted <- _fit_model extended ;;
  store_model table_name fitted ;;;
  match truthy primary_key with
  | Some _ => restore_primary_key extended
  | None => ret tt
  end ;;;
  match truthy foreign_key with
  | Some key => attach_foreign_key table extended key
  | None => ret tt
  end ;;;
  ret extended.

(** [cpa]; [fuel] bounds the depth of the recursion, and a call that
    would go deeper raises [RecursionError]. *)
Fixpoint cpa (fuel : nat) (table_name : string)
    (tables : option (list (string * ref))) (foreign_key : option string)
    {struct fuel} : M ref :=
  match fuel with
  | O => raise RecursionError
  | S fuel' =>
      cpa_body (fun child_name child_key =>
                  cpa fuel' child_name tables child_key)
               table_name tables foreign_key
  end.

(** [model_database(tables)] *)
Definition model_database (fuel : nat)
    (tables : option (list (string * ref))) : M unit :=
  for_each (get_tables metadata)
    (fun table_name =>
       match get_parents metadata table_name with
       | [] => cpa fuel table_name tables None ;;; ret tt
       | _ => ret tt
       end) ;;;
  emit (Info "Modeling Complete").

End Modeler.

(** ** A small database and a small model class

    The database of the end-to-end scenario: three users, and three
    orders of which two belong to the first user and one to the third.
    The model class exports parameters of the shape of a Gaussian
    copula: a covariance matrix, one descriptor per column with its mean
    and its scale, and the bookkeeping keys. *)
Module Scenario.

Definition int_column (l : list Z) : Series :=
  mkSeries int64 (map (fun z => Some (num (inject_Z z))) l).

Definition float_column (l : list (option Q)) : Series :=
  mkSeries float64 (map (option_map num) l).

Definition users : DataFrame :=
  mkDataFrame None (range_index 3)
    [("id", int_column [1; 2; 3]%Z);
     ("age", int_column [30; 40; 50]%Z)].

Definition orders : DataFrame :=
  mkDataFrame None (range_index 3)
    [("order_id", int_column [10; 11; 12]%Z);
     ("user_id", int_column [1; 1; 3]%Z);
     ("amount", int_column [5; 7; 9]%Z)].

(** The transform keeps the columns that are not keys. *)
Definition drop_columns (names : list string) (df : DataFrame) : DataFrame :=
  mkDataFrame (index_name df) (index df)
    (filter (fun ks => negb (key_in (fst ks) names)) (columns df)).

Definition metadata : Metadata :=
  mkMetadata
    (fun name =>
       if String.eqb name "users" then Ok users
       else if String.eqb name "orders" then Ok orders
       else Raise KeyError)
    (fun _ df => Ok (drop_columns ["id"; "order_id"; "user_id"] df))
    (fun name =>
       if String.eqb name "users" then Some "id"
       else if String.eqb name "orders" then Some "order_id"
       else None)
    (fun name => if String.eqb name "users" then ["orders"] else [])
    (fun parent child =>
       if String.eqb parent "users" && String.eqb child "orders"
       then Some "user_id" else None)
    (fun name => if String.eqb name "orders" then ["users"] else [])
    ["users"; "orders"].

Definition model_class : ModelClass :=
  mkModelClass
    (fun df =>
       Ok (mkFittedModel
             (map (fun i =>
                     map (fun j => if Nat.eqb i j then 1%Q else 0%Q)
                         (seq 0 (length (columns df))))
                  (seq 0 (length (columns df))))
             (map (fun ks =>
                     (fst ks,
                      mkDistribution (Some 1%Q)
                        [("mean", match mean (snd ks) with
                                  | Some v => v
                                  | None => VScalar SNone
                                  end);
                         ("fitted", VScalar (SBool true));
                         ("type", VScalar (SStr "GaussianUnivariate"))]))
                  (columns df))
             [("fitted", VScalar (SBool true));
              ("type", VScalar (SStr "GaussianMultivariate"))]))
    (fun m =>
       [("covariance", VList (map (fun row => VList (map num row))
                                  (covariance m)));
        ("distribs",
         VDict (map (fun kd =>
                       (fst kd,
                        VDict (("std", match std (snd kd) with
                                       | Some s => num s
                                       | None => VScalar SNone
                                       end)
                               :: dist_attrs (snd kd))))
                    (distribs m)))]
       ++ model_attrs m).

(** The logarithm, exact on the only scale the model class produces. *)
Definition log_one (q : Q) : Q := 0%Q.

Definition empty_world : World := mkWorld [] [] [].

Definition run_users : result ref * World :=
  cpa metadata model_class log_one 2 "users" None None empty_world.

(** The frame an outcome refers to. *)
Definition frame_of (out : result ref * World) : option DataFrame :=
  match fst out with
  | Ok r => nth_error (heap (snd out)) r
  | Raise _ => None
  end.

(** A table with a missing amount, a table whose numeric column is
    entirely missing and a table whose text column is entirely missing. *)
Definition payments : DataFrame :=
  mkDataFrame None (range_index 3)
    [("amount", float_column [Some 1; None; Some 3]%Q);
     ("currency", mkSeries object_
                    [Some (VScalar (SStr "eur")); None;
                     Some (VScalar (SStr "eur"))])].

Definition payments_filled : DataFrame :=
  mkDataFrame None (range_index 3)
    [("amount", float_column [Some 1; Some 2; Some 3]%Q);
     ("currency", mkSeries object_
                    [Some (VScalar (SStr "eur")); Some (VScalar (SStr "eur"));
                     Some (VScalar (SStr "eur"))])].

Definition unmeasured : DataFrame :=
  mkDataFrame None (range_index 2)
    [("weight", float_column [None; None]);
     ("height", float_column [Some 2; None]%Q)].

Definition unnamed : DataFrame :=
  mkDataFrame None (range_index 2)
    [("height", float_column [Some 2; None]%Q);
     ("name", mkSeries object_ [None; None])].

Definition world_of (df : DataFrame) : World := mkWorld [df] [] [].

(** A database in which the table [notes] has no primary key although
    the schema gives it a child. *)
Definition notes : DataFrame :=
  mkDataFrame None (range_index 3)
    [("length", float_column [Some 3; None; Some 5]%Q)].

Definition keyless : Metadata :=
  mkMetadata
    (fun name =>
       if String.eqb name "notes" then Ok notes
       else if String.eqb name "orders" then Ok orders
       else Raise KeyError)
    (fun _ df => Ok df)
    (fun name => if String.eqb name "orders" then Some "order_id" else None)
    (fun name => if String.eqb name "notes" then ["orders"] else [])
    (fun parent child =>
       if String.eqb parent "notes" && String.eqb child "orders"
       then Some "user_id" else None)
    (fun name => if String.eqb name "orders" then ["notes"] else [])
    ["notes"; "orders"].

(** A model class whose only parameter is the array [mu] of the means of
    the columns. *)
Definition mu_class : ModelClass :=
  mkModelClass
    (fun df =>
       Ok (mkFittedModel [] []
             [("mu", VArray (map (fun ks => match mean (snd ks) with
                                            | Some v => v
                                            | None => VScalar SNone
                                            end) (columns df)))]))
    (fun m => model_attrs m).

(** The database of the scenario when no order has been placed yet. *)
Definition no_orders : DataFrame :=
  mkDataFrame None (range_index 0)
    [("order_id", int_column []);
     ("user_id", int_column []);
     ("amount", int_column [])].

Definition metadata_no_orders : Metadata :=
  mkMetadata
    (fun name =>
       if String.eqb name "users" then Ok users
       else if String.eqb name "orders" then Ok no_orders
       else Raise KeyError)
    (transform metadata)
    (get_primary_key metadata)
    (get_children metadata)
    (get_foreign_key metadata)
    (get_parents metadata)
    (get_tables metadata).

(** A table that refers to itself: every employee has a manager, who is
    an employee. *)
Definition employees : DataFrame :=
  mkDataFrame None (range_index 3)
    [("id", int_column [1; 2; 3]%Z);
     ("manager_id", int_column [1; 1; 2]%Z);
     ("salary", int_column [90; 60; 40]%Z)].

Definition reporting : Metadata :=
  mkMetadata
    (fun name =>
       if String.eqb name "employees" then Ok employees else Raise KeyError)
    (fun _ df => Ok (drop_columns ["id"; "manager_id"] df))
    (fun name => if String.eqb name "employees" then Some "id" else None)
    (fun name => if String.eqb name "employees" then ["employees"] else [])
    (fun parent child =>
       if String.eqb parent "employees" && String.eqb child "employees"
       then Some "manager_id" else None)
    (fun name => if String.eqb name "employees" then ["employees"] else [])
    ["employees"].

(** A column of objects in which a number and a boolean are equal:
    [1 == True] in Python. *)
Definition flags : DataFrame :=
  mkDataFrame None (range_index 5)
    [("flag", mkSeries object_
                [Some (num 1); Some (VScalar (SBool true)); Some (num 2);
                 Some (num 2); None])].

(** A registry that holds a model of a table of another database. *)
Definition with_payments_model : World :=
  mkWorld [] [("payments", mkFittedModel [] [] [])] [].

End Scenario.

(** ** Specification of the imputer *)

(** The frame [after] is the frame [before] with every column filled
    with its own fill value. *)
Definition imputed (before after : DataFrame) : Prop :=
  index after = index before
  /\ index_name after = index_name before
  /\ column_names after = column_names before
  /\ forall name s,
       lookup_column name (columns before) = Some s ->
       exists fill_value,
         fill_value_of s = Ok fill_value
         /\ lookup_column name (columns after) = Some (fillna s fill_value).

(** The state of the loop of [_impute] when the columns [done] of the
    frame [before] have been filled and the others have not. *)
Definition impute_state (before : DataFrame) (done : list string)
    (now : DataFrame) : Prop :=
  index now = index before
  /\ index_name now = index_name before
  /\ column_names now = column_names before
  /\ forall name s,
       lookup_column name (columns before) = Some s ->
       (In name done ->
        exists fill_value,
          fill_value_of s = Ok fill_value
          /\ lookup_column name (columns now) = Some (fillna s fill_value))
       /\ (~ In name done -> lookup_column name (columns now) = Some s).

(** What lines 218-220 of [cpa] do to the frame [left] for the extension
    [right] of a child whose count column is [name]. *)
Definition extended_by (left right : DataFrame) (name : string)
  : result DataFrame :=
  match getitem (merge left right) name with
  | Ok counts =>
      Ok (setitem (merge left right) name
            (fillna_inplace counts (Some (num 0))))
  | Raise e => Raise e
  end.

(** ** Specification of the traversal *)

(** The world [w'] holds every object of [w], unchanged, and possibly
    new ones. *)
Definition extends (w w' : World) : Prop :=
  length (heap w) <= length (heap w')
  /\ forall n, n < length (heap w) ->
       nth_error (heap w') n = nth_error (heap w) n.

(** A call that only creates objects and returns one of them. *)
Definition creates (c : M ref) : Prop :=
  forall w r w',
    c w = (Ok r, w') ->
    extends w w' /\ length (heap w) <= r /\ r < length (heap w').

(** The column [name] of [df] counts the child rows of the rows labelled
    [labels]: no count is missing, and the count of a row whose label is
    none of the foreign key values [foreign_keys] is zero. *)
Definition counts_ok (name : string) (foreign_keys labels : list cell)
    (df : DataFrame) : Prop :=
  exists counts,
    lookup_column name (columns df) = Some counts
    /\ length (values counts) = length labels
    /\ forall i, i < length labels ->
         exists v,
           nth_error (values counts) i = Some (Some v)
           /\ (positions_of (nth i labels None) foreign_keys = [] ->
               v = num 0).

(** The names of the extension columns of two different children of
    [children] never coincide. *)
Definition names_apart (children : list string) : Prop :=
  forall c c2, In c children -> In c2 children -> c <> c2 ->
    forall k k2,
      ("__" ++ c ++ "__" ++ k)%string <> ("__" ++ c2 ++ "__" ++ k2)%string.

(** The part of [cpa] that precedes the loop over the children (lines
    202-213), for a table whose primary key is [key]: the result is the
    pair of the objects bound to [table] and to [extended] when the loop
    starts. *)
Definition cpa_start (metadata : Metadata) (table_name : string)
    (tables : option (list (string * ref))) (key : string)
  : M (ref * ref) :=
  emit (Info ("Modeling " ++ table_name)) ;;;
  table <- resolve_table metadata table_name tables ;;
  table_now <- read table ;;
  transformed <- lift (transform metadata table_name table_now) ;;
  extended <- alloc transformed ;;
  index_by_primary_key table extended key ;;;
  ret (table, extended).

(** ** Specification of the flattener *)

(** The leaves of an array element found at the key [key], in depth-first
    order, each with the key made of the positions that lead to it. *)
Fixpoint leaves_of_item (item : value) (key : string) {struct item}
  : list (string * value) :=
  match item with
  | VList sub | VArray sub =>
      (fix loop (nested : list value) (index : nat) {struct nested}
         : list (string * value) :=
         match nested with
         | [] => []
         | x :: rest =>
             leaves_of_item x (join_prefix key (str_of_nat index))
             ++ loop rest (S index)
         end) sub 0
  | _ => [(key, item)]
  end.

Fixpoint array_leaves (nested : list value) (index : nat) (prefix : string)
  : list (string * value) :=
  match nested with
  | [] => []
  | x :: rest =>
      leaves_of_item x (join_prefix prefix (str_of_nat index))
      ++ array_leaves rest (S index) prefix
  end.

(** The key [s] is [key] itself or [key] followed by the delimiter and
    more segments. *)
Definition extends_key (key s : string) : Prop :=
  s = key \/ exists t, s = (key ++ "__" ++ t)%string.

(** A string without an underscore. *)
Fixpoint no_underscore (s : string) : bool :=
  match s with
  | EmptyString => true
  | String c rest => negb (Ascii.eqb c "_") && no_underscore rest
  end.

(** ** Specification of the registry *)

(** [self.models[name]], when there is such an entry. *)
Fixpoint lookup_model (name : string) (d : list (string * FittedModel))
  : option FittedModel :=
  match d with
  | [] => None
  | (k, m) :: rest =>
      if String.eqb k name then Some m else lookup_model name rest
  end.

(** [name in self.models] *)
Definition has_model (name : string) (w : World) : Prop :=
  lookup_model name (models w) <> None.

(** The tables a call of [cpa] on a table goes through: the table
    itself and, when the table has a primary key, whatever the call on
    one of its children goes through. *)
Inductive visits (metadata : Metadata) : string -> string -> Prop :=
| visits_self t : visits metadata t t
| visits_child t key c d :
    truthy (get_primary_key metadata t) = Some key ->
    In c (get_children metadata t) ->
    visits metadata c d ->
    visits metadata t d.

(** A computation that leaves [self.models] alone, whatever its outcome. *)
Definition quiet {A : Type} (c : M A) : Prop :=
  forall w, models (snd (c w)) = models w.

(** A computation after which [self.models] stands in the relation [R]
    to what it was, whatever the outcome. *)
Definition respects {A : Type}
    (R : list (string * FittedModel) -> list (string * FittedModel) -> Prop)
    (c : M A) : Prop :=
  forall w, R (models w) (models (snd (c w))).

(** No entry is lost from [d] to [d']. *)
Definition entries_kept (d d' : list (string * FittedModel)) : Prop :=
  forall n, lookup_model n d <> None -> lookup_model n d' <> None.

(** The entries of [d] and [d'] are the same outside the names [S]. *)
Definition same_outside (S : string -> Prop)
    (d d' : list (string * FittedModel)) : Prop :=
  forall n, ~ S n -> lookup_model n d' = lookup_model n d.

(** A logged message, as opposed to a request to load a table. *)
Definition is_info (e : event) : bool :=
  match e with
  | Info _ => true
  | LoadTable _ => false
  end.

(** A computation that adds to the events nothing but events [allowed],
    whatever its outcome. *)
Definition emits_only {A : Type} (allowed : event -> bool) (c : M A) : Prop :=
  forall w, exists new,
    events (snd (c w)) = events w ++ new /\ forallb allowed new = true.

(** ** Specification of the flattened values *)

(** [isinstance(value, (list, np.ndarray))] *)
Definition is_sequence (v : value) : bool :=
  match v with
  | VList _ | VArray _ => true
  | _ => false
  end.

(** The sum of a list of numbers. *)
Definition total (l : list nat) : nat := fold_right Nat.add 0 l.

(** ** Specification of the order of the flattened keys *)

(** What one entry of a mapping brings to the flattened mapping under
    the prefix [prefix]: nothing when the entry is skipped, and what the
    value is flattened to under its compound key otherwise. *)
Definition contribution (prefix : string) (kv : string * value) : pydict :=
  if is_ignored (fst kv) (snd kv) then []
  else flatten_value (snd kv) (join_prefix prefix (fst kv)) [].

(** * Properties *)

(** ** Dictionaries *)

Lemma dict_set_keys_in key v d k :
  In k (dict_keys (dict_set key v d)) <-> k = key \/ In k (dict_keys d).
Proof.
  induction d as [|[k0 w] d IH]; simpl.
  - intuition.
  - destruct (String.eqb k0 key) eqn:E; simpl.
    + apply String.eqb_eq in E. subst. intuition.
    + rewrite IH. intuition.
Qed.

Lemma dict_set_NoDup key v d :
  NoDup (dict_keys d) -> NoDup (dict_keys (dict_set key v d)).
Proof.
  induction d as [|[k0 w] d IH]; simpl; intros H.
  - constructor; [intros [] | constructor].
  - inversion H as [|? ? Hn Hd]; subst.
    destruct (String.eqb k0 key) eqn:E; simpl.
    + constructor; assumption.
    + constructor; [|auto].
      intros Hin. apply dict_set_keys_in in Hin. destruct Hin as [->|Hin].
      * rewrite String.eqb_refl in E. discriminate.
      * contradiction.
Qed.

Lemma dict_update_NoDup other : forall d,
  NoDup (dict_keys d) -> NoDup (dict_keys (dict_update d other)).
Proof.
  unfold dict_update.
  induction other as [|[k v] other IH]; simpl; intros d H; [assumption|].
  apply IH, dict_set_NoDup, H.
Qed.

Lemma dict_get_set_same key v d :
  dict_get key (dict_set key v d) = Some v.
Proof.
  induction d as [|[k0 w] d IH]; simpl.
  - rewrite String.eqb_refl. reflexivity.
  - destruct (String.eqb k0 key) eqn:E; simpl; rewrite E; auto.
Qed.

(** ** The flattener *)

(** A list or an array met in an array is flattened by [_flatten_array]
    itself. *)
Lemma flatten_item_list sub prefix_key result :
  flatten_item (VList sub) prefix_key result
  = dict_update result (_flatten_array sub prefix_key).
Proof.
  simpl. f_equal. unfold _flatten_array.
  generalize 0%nat, (@nil (string * value)).
  induction sub as [|x sub IH]; intros n acc; simpl; [reflexivity|].
  apply IH.
Qed.

Lemma flatten_item_array sub prefix_key result :
  flatten_item (VArray sub) prefix_key result
  = dict_update result (_flatten_array sub prefix_key).
Proof. exact (flatten_item_list sub prefix_key result). Qed.

(** A mapping met in a mapping is flattened by [_flatten_dict] itself. *)
Lemma flatten_value_dict sub prefix_key result :
  flatten_value (VDict sub) prefix_key result
  = dict_update result (_flatten_dict sub prefix_key).
Proof.
  simpl. f_equal. unfold _flatten_dict.
  generalize (@nil (string * value)).
  induction sub as [|[k x] sub IH]; intros acc; simpl; [reflexivity|].
  apply IH.
Qed.


Lemma flatten_value_NoDup v prefix_key result :
  NoDup (dict_keys result) ->
  NoDup (dict_keys (flatten_value v prefix_key result)).
Proof.
  destruct v as [s|items|sub|sub]; intros H.
  - apply dict_set_NoDup, H.
  - rewrite flatten_value_dict. apply dict_update_NoDup, H.
  - apply dict_update_NoDup, H.
  - apply dict_update_NoDup, H.
Qed.


Lemma Q_same_eq a b : Q_same a b = true -> a = b.
Proof.
  destruct a as [an ad], b as [bn bd]. unfold Q_same. simpl.
  intros H. apply andb_true_iff in H. destruct H as [H1 H2].
  apply Z.eqb_eq in H1. apply Pos.eqb_eq in H2. subst. reflexivity.
Qed.

(** Induction on nested values. *)
Lemma value_nested_ind (P : value -> Prop)
  (Hs : forall s, P (VScalar s))
  (Hd : forall items, Forall (fun kv => P (snd kv)) items -> P (VDict items))
  (Hl : forall elems, Forall P elems -> P (VList elems))
  (Ha : forall elems, Forall P elems -> P (VArray elems)) :
  forall v, P v.
Proof.
  fix IH 1. intros [s|items|elems|elems].
  - apply Hs.
  - apply Hd. induction items as [|[k x] items IHl]; constructor.
    + simpl. apply IH.
    + apply IHl.
  - apply Hl. induction elems as [|x elems IHl]; constructor.
    + apply IH.
    + apply IHl.
  - apply Ha. induction elems as [|x elems IHl]; constructor.
    + apply IH.
    + apply IHl.
Qed.

(** C2 (as the code behaves): an array under one of the three bookkeeping
    keys is skipped, whatever it holds, because the test of line 81 only
    looks for [dict] and [list]; the same array under any other key, and a
    list under the same key, are flattened.  The claim asks for the array
    to be flattened too. *)
Theorem ignored_key_array_skipped :
  (forall elems rest prefix result,
      flatten_dict_from (("fitted", VArray elems) :: rest) prefix result
      = flatten_dict_from rest prefix result
      /\ flatten_dict_from (("distribution", VArray elems) :: rest) prefix result
         = flatten_dict_from rest prefix result
      /\ flatten_dict_from (("type", VArray elems) :: rest) prefix result
         = flatten_dict_from rest prefix result)
  /\ _flatten_dict [("type", VArray [num 1; num 2])] "" = []
  /\ _flatten_dict [("type", VList [num 1; num 2])] ""
     = [("type__0", num 1); ("type__1", num 2)]
  /\ _flatten_dict [("mu", VArray [num 1; num 2])] ""
     = [("mu__0", num 1); ("mu__1", num 2)]
  /\ _flatten_dict [("type", VDict [("a", num 1)])] "" = [("type__a", num 1)]
  /\ _flatten_dict [("type", VScalar (SStr "gaussian"))] "" = [].
Proof.
  split; [intros; repeat split; reflexivity|].
  repeat split; reflexivity.
Qed.

(** ** The covariance encoding *)

Lemma enumerate_from_length {A : Type} (l : list A) : forall start,
  length (enumerate_from start l) = length l.
Proof. induction l; intros; simpl; auto. Qed.

Lemma map_enumerate_from_nth {A B : Type} (f : nat * A -> B) (d : A) (e : B)
  (l : list A) : forall start i,
  (i < length l)%nat ->
  nth i (map f (enumerate_from start l)) e = f ((start + i)%nat, nth i l d).
Proof.
  induction l as [|x l IH]; intros start i Hi; simpl in *; [lia|].
  destruct i as [|i].
  - rewrite Nat.add_0_r. reflexivity.
  - rewrite IH by lia. f_equal. f_equal. lia.
Qed.

Lemma map_seq_nth {B : Type} (f : nat -> B) (e : B) (n i : nat) :
  (i < n)%nat -> nth i (map f (seq 0 n)) e = f i.
Proof.
  intros Hi. rewrite (nth_indep _ e (f 0%nat)) by (rewrite length_map, length_seq; exact Hi).
  rewrite map_nth. rewrite seq_nth by exact Hi. reflexivity.
Qed.

Lemma nth_firstn {A : Type} (d : A) (l : list A) : forall k j,
  (j < k)%nat -> nth j (firstn k l) d = nth j l d.
Proof.
  induction l as [|x l IH]; intros k j Hj.
  - rewrite firstn_nil. reflexivity.
  - destruct k as [|k]; [lia|]. destruct j as [|j]; simpl; [reflexivity|].
    apply IH. lia.
Qed.

(** The first entries of a row of the lower triangle are those of the
    row of the matrix. *)
Lemma firstn_tril_row (i : nat) (row : list Q) : forall start k,
  (start + k <= i + 1)%nat ->
  firstn k (map (fun jx : nat * Q =>
                   if (fst jx <=? i)%nat then snd jx else 0%Q)
                (enumerate_from start row))
  = firstn k row.
Proof.
  induction row as [|x row IH]; intros start k Hk; simpl.
  - destruct k; reflexivity.
  - destruct k as [|k]; [reflexivity|]. simpl.
    destruct (Nat.leb_spec start i); [|lia].
    f_equal. apply IH. lia.
Qed.

Lemma tril_length (m : matrix) : length (tril m) = length m.
Proof. unfold tril, enumerate. rewrite length_map, enumerate_from_length. reflexivity. Qed.

Lemma encode_covariance_length (m : matrix) :
  length (encode_covariance m) = length m.
Proof.
  unfold encode_covariance, lower_rows, enumerate.
  rewrite length_map, enumerate_from_length. apply tril_length.
Qed.

Lemma encode_covariance_row (m : matrix) (i : nat) :
  (i < length m)%nat ->
  nth i (encode_covariance m) [] = firstn (i + 1) (nth i m []).
Proof.
  intros Hi. unfold encode_covariance, lower_rows, enumerate.
  rewrite (map_enumerate_from_nth _ [] []) by (rewrite tril_length; exact Hi).
  simpl. unfold tril, enumerate.
  rewrite (map_enumerate_from_nth _ [] []) by exact Hi.
  simpl. apply firstn_tril_row. lia.
Qed.

(** The number of values kept in the rows [start], [start + 1], ... of a
    matrix whose rows have at least as many entries as the last row
    needs. *)
Lemma lower_rows_count (n : nat) (rows : matrix) : forall start,
  Forall (fun row => length row = n) rows ->
  (start + length rows <= n)%nat ->
  (2 * length (concat (map (fun ir : nat * list Q =>
                              firstn (fst ir + 1) (snd ir))
                           (enumerate_from start rows)))
   + start * (start + 1)
   = (start + length rows) * (start + length rows + 1))%nat.
Proof.
  induction rows as [|row rows IH]; intros start Hall Hn; simpl.
  - rewrite Nat.add_0_r. reflexivity.
  - inversion Hall as [|? ? Hrow Hrest]; subst.
    simpl in Hn. rewrite length_app, length_firstn.
    specialize (IH (S start) Hrest ltac:(lia)).
    rewrite Nat.min_l by lia. nia.
Qed.

Lemma tril_rows_length (n : nat) (m : matrix) :
  Forall (fun row => length row = n) m ->
  Forall (fun row => length row = n) (tril m).
Proof.
  unfold tril. unfold enumerate at 2. generalize 0%nat.
  induction m as [|row m IH]; intros start H; simpl; constructor.
  - inversion H as [|? ? Hrow Hrest]. unfold enumerate.
    rewrite length_map, enumerate_from_length. exact Hrow.
  - inversion H as [|? ? Hrow Hrest]. apply IH. exact Hrest.
Qed.

Lemma is_square_spec (n : nat) (m : matrix) :
  is_square n m = true ->
  length m = n /\ Forall (fun row => length row = n) m.
Proof.
  unfold is_square. intros H. apply andb_true_iff in H. destruct H as [H1 H2].
  apply Nat.eqb_eq in H1. split; [exact H1|].
  apply Forall_forall. intros row Hin.
  rewrite forallb_forall in H2. apply Nat.eqb_eq, H2, Hin.
Qed.

Lemma is_symmetric_spec (m : matrix) (i j : nat) :
  is_symmetric m = true ->
  (i < length m)%nat -> (j < length m)%nat -> entry m i j = entry m j i.
Proof.
  unfold is_symmetric. intros H Hi Hj.
  rewrite forallb_forall in H.
  specialize (H i ltac:(apply in_seq; lia)).
  rewrite forallb_forall in H.
  specialize (H j ltac:(apply in_seq; lia)).
  apply Q_same_eq, H.
Qed.

(** The ragged rows built from a symmetric n x n matrix. *)
Lemma encode_covariance_lower_triangle (n : nat) (cov : matrix) :
  is_square n cov = true ->
  is_symmetric cov = true ->
  length (encode_covariance cov) = n
  /\ (forall i, (i < n)%nat ->
        nth i (encode_covariance cov) [] = firstn (i + 1) (nth i cov [])
        /\ length (nth i (encode_covariance cov) []) = (i + 1)%nat)
  /\ length (concat (encode_covariance cov)) = (n * (n + 1) / 2)%nat
  /\ rebuild (encode_covariance cov) = cov.
Proof.
  intros Hsq Hsym. apply is_square_spec in Hsq. destruct Hsq as [Hlen Hrows].
  assert (Hrow : forall i, (i < n)%nat -> length (nth i cov []) = n).
  { intros i Hi. rewrite Forall_forall in Hrows. apply Hrows, nth_In. lia. }
  split; [rewrite encode_covariance_length; exact Hlen|].
  split.
  { intros i Hi. rewrite encode_covariance_row by lia.
    split; [reflexivity|]. rewrite length_firstn, Hrow by exact Hi. lia. }
  split.
  { pose proof (lower_rows_count n (tril cov) 0 (tril_rows_length n cov Hrows)) as H.
    rewrite tril_length, Hlen in H. specialize (H ltac:(lia)).
    unfold encode_covariance, lower_rows, enumerate.
    simpl in H. apply Nat.div_unique_exact; lia. }
  unfold rebuild. rewrite encode_covariance_length, Hlen.
  apply (nth_ext _ _ [] []).
  { rewrite length_map, length_seq. symmetry. exact Hlen. }
  intros i Hi. rewrite length_map, length_seq in Hi.
  rewrite map_seq_nth by exact Hi.
  apply (nth_ext _ _ 0%Q 0%Q).
  { rewrite length_map, length_seq, Hrow by exact Hi. reflexivity. }
  intros j Hj. rewrite length_map, length_seq in Hj.
  rewrite map_seq_nth by exact Hj.
  unfold entry.
  destruct (Nat.leb_spec j i).
  - rewrite encode_covariance_row by lia. apply nth_firstn. lia.
  - rewrite encode_covariance_row by lia.
    rewrite nth_firstn by lia.
    symmetry. apply (is_symmetric_spec cov i j Hsym); lia.
Qed.


(** ** The scale encoding *)

(** C6: the scale of a descriptor is replaced by its logarithm exactly
    when it is not [None]; a descriptor without a scale is left as it is,
    and nothing else of a descriptor changes.  The descriptors keep their
    columns and their order. *)
Theorem scale_log_iff_present (np_log : Q -> Q) (fitted : FittedModel)
    (distribution : Distribution) :
  distribs (encode_model np_log fitted)
  = map (fun kd => (fst kd, encode_scale np_log (snd kd))) (distribs fitted)
  /\ std (encode_scale np_log distribution)
     = option_map np_log (std distribution)
  /\ dist_attrs (encode_scale np_log distribution) = dist_attrs distribution
  /\ (std distribution = None ->
      encode_scale np_log distribution = distribution)
  /\ ((exists s, std distribution = Some s
                 /\ std (encode_scale np_log distribution) = Some (np_log s))
      <-> std distribution <> None).
Proof.
  split; [reflexivity|].
  unfold encode_scale.
  destruct distribution as [[s|] attrs]; simpl.
  - split; [reflexivity|]. split; [reflexivity|].
    split; [discriminate|].
    split; [discriminate | intros _; exists s; auto].
  - split; [reflexivity|]. split; [reflexivity|].
    split; [reflexivity|].
    split; [intros [s [H _]]; discriminate | intros H; contradiction].
Qed.

(** ** The store *)

Lemma bind_ok {A B : Type} (c : M A) (k : A -> M B) w b w' :
  bind c k w = (Ok b, w') ->
  exists a w1, c w = (Ok a, w1) /\ k a w1 = (Ok b, w').
Proof.
  unfold bind. destruct (c w) as [[a|e] w1]; intros H.
  - exists a, w1. auto.
  - discriminate.
Qed.

Lemma bind_step {A B : Type} (c : M A) (k : A -> M B) w a w1 :
  c w = (Ok a, w1) -> bind c k w = k a w1.
Proof. unfold bind. intros ->. reflexivity. Qed.

Lemma bind_raise {A B : Type} (c : M A) (k : A -> M B) w e w1 :
  c w = (Raise e, w1) -> bind c k w = (Raise e, w1).
Proof. unfold bind. intros ->. reflexivity. Qed.

Lemma replace_nth_length {A : Type} (x : A) (l : list A) : forall n,
  length (replace_nth n x l) = length l.
Proof. induction l; intros [|n]; simpl; auto. Qed.

Lemma replace_nth_same {A : Type} (x : A) (l : list A) : forall n,
  (n < length l)%nat -> nth_error (replace_nth n x l) n = Some x.
Proof.
  induction l as [|y l IH]; intros [|n] H; simpl in *; try lia; auto.
  apply IH. lia.
Qed.

Lemma replace_nth_other {A : Type} (x : A) (l : list A) : forall n m,
  m <> n -> nth_error (replace_nth n x l) m = nth_error l m.
Proof.
  induction l as [|y l IH]; intros [|n] [|m] H; simpl; auto.
  contradiction.
Qed.

Lemma replace_nth_twice {A : Type} (x y : A) (l : list A) : forall n,
  replace_nth n x (replace_nth n y l) = replace_nth n x l.
Proof.
  induction l as [|z l IH]; intros [|n]; simpl; auto. f_equal. apply IH.
Qed.

Lemma replace_nth_id {A : Type} (x : A) (l : list A) : forall n,
  nth_error l n = Some x -> replace_nth n x l = l.
Proof.
  induction l as [|z l IH]; intros [|n] H; simpl in *; auto.
  - congruence.
  - f_equal. apply IH, H.
Qed.

Lemma nth_error_lt {A : Type} (l : list A) n x :
  nth_error l n = Some x -> (n < length l)%nat.
Proof. intros H. apply nth_error_Some. congruence. Qed.

Lemma with_object_id w r df :
  nth_error (heap w) r = Some df -> with_object w r df = w.
Proof.
  intros H. destruct w as [h m e]. unfold with_object. simpl in *.
  rewrite (replace_nth_id _ _ _ H). reflexivity.
Qed.

Lemma with_object_twice w r df df' :
  with_object (with_object w r df) r df' = with_object w r df'.
Proof. unfold with_object. simpl. rewrite replace_nth_twice. reflexivity. Qed.

Lemma with_object_read w r df old :
  nth_error (heap w) r = Some old ->
  nth_error (heap (with_object w r df)) r = Some df.
Proof. intros H. simpl. apply replace_nth_same. eapply nth_error_lt, H. Qed.

(** ** The imputer on the store and on a frame *)

Lemma impute_column_frame data column w df :
  nth_error (heap w) data = Some df ->
  impute_column data column w
  = match impute_frame_column df column with
    | Ok df' => (Ok tt, with_object w data df')
    | Raise e => (Raise e, w)
    end.
Proof.
  intros H. unfold impute_column, impute_frame_column, bind, read, lift, write.
  rewrite H. destruct (getitem df column) as [s|e] eqn:G; [|reflexivity].
  destruct (fill_value_of s) as [fv|e]; [|reflexivity].
  rewrite H, G. reflexivity.
Qed.

Lemma impute_loop_frame data names : forall w df,
  nth_error (heap w) data = Some df ->
  for_each names (impute_column data) w
  = (fst (impute_frame names df),
     with_object w data (snd (impute_frame names df))).
Proof.
  induction names as [|c names IH]; intros w df H; simpl.
  - unfold ret. rewrite (with_object_id _ _ _ H). reflexivity.
  - unfold bind. rewrite (impute_column_frame _ _ _ _ H).
    destruct (impute_frame_column df c) as [df'|e]; simpl.
    + rewrite (IH _ df') by (eapply with_object_read, H).
      rewrite with_object_twice. reflexivity.
    + rewrite (with_object_id _ _ _ H). reflexivity.
Qed.

(** [_impute] runs the loop on the frame of the object it is given,
    leaves the outcome in that object and returns the object. *)
Lemma impute_frame_spec data w df :
  nth_error (heap w) data = Some df ->
  _impute data w
  = (match fst (impute_frame (column_names df) df) with
     | Ok _ => Ok data
     | Raise e => Raise e
     end,
     with_object w data (snd (impute_frame (column_names df) df))).
Proof.
  intros H. unfold _impute, bind, read. rewrite H.
  rewrite (impute_loop_frame _ _ _ _ H).
  destruct (impute_frame (column_names df) df) as [[u|e] df']; reflexivity.
Qed.

(** ** Columns *)

Lemma lookup_set_column name s cols : forall X,
  lookup_column X (set_column name s cols)
  = if String.eqb X name then Some s else lookup_column X cols.
Proof.
  induction cols as [|[k old] cols IH]; intros X; simpl.
  - rewrite (String.eqb_sym name X). reflexivity.
  - destruct (String.eqb_spec k name) as [->|Hk]; simpl.
    + rewrite (String.eqb_sym name X).
      destruct (String.eqb X name); reflexivity.
    + rewrite IH. destruct (String.eqb_spec k X) as [->|HX].
      * destruct (String.eqb_spec X name); [contradiction|reflexivity].
      * reflexivity.
Qed.

Lemma lookup_column_In name cols :
  lookup_column name cols <> None <-> In name (map fst cols).
Proof.
  induction cols as [|[k s] cols IH]; simpl.
  - split; [congruence | intros []].
  - destruct (String.eqb_spec k name) as [->|Hk].
    + split; [auto | congruence].
    + rewrite IH. split; [auto | intros [H|H]; [contradiction | exact H]].
Qed.

Lemma set_column_names name s cols :
  lookup_column name cols <> None ->
  map fst (set_column name s cols) = map fst cols.
Proof.
  induction cols as [|[k old] cols IH]; simpl; intros H.
  - congruence.
  - destruct (String.eqb k name); simpl; [reflexivity|].
    f_equal. apply IH, H.
Qed.

Lemma converted_kept d cells : d <> object_ -> converted d cells = d.
Proof. destruct d; try reflexivity. congruence. Qed.

Lemma converted_numeric d cells :
  is_int_or_float d = true -> converted d cells = d.
Proof. intros H. apply converted_kept. intros ->. discriminate. Qed.

(** Converting a converted column changes nothing. *)
Lemma converted_again d cells :
  converted (converted d cells) cells = converted d cells.
Proof.
  destruct d; try reflexivity. destruct cells as [|c cells]; [reflexivity|].
  unfold converted.
  destruct (forallb is_boolean (c :: cells)); [reflexivity|].
  destruct (forallb (fun c => isna c || is_number c) (c :: cells));
    reflexivity.
Qed.

(** A numeric column stays numeric, and a column that is numeric once
    filled was numeric or a column of objects. *)
Lemma fillna_dtype_kept s fv :
  dtype_of s <> object_ -> dtype_of (fillna s fv) = dtype_of s.
Proof. intros H. unfold fillna. cbn [dtype_of]. apply converted_kept, H. Qed.

Lemma fill_missing_id (cells : list (option value)) :
  map (fun c => match c with None => None | Some _ => c end) cells = cells.
Proof.
  induction cells as [|[v|] cells IH]; simpl; [reflexivity | |];
    rewrite IH; reflexivity.
Qed.

Lemma fill_present_id (cells : list (option value)) fv :
  forallb (fun c => negb (isna c)) cells = true ->
  map (fun c => match c with None => fv | Some _ => c end) cells = cells.
Proof.
  induction cells as [|[v|] cells IH]; simpl; intros H;
    [reflexivity | | discriminate].
  rewrite IH by exact H. reflexivity.
Qed.

Lemma fillna_missing s : dtype_of s <> object_ -> fillna s None = s.
Proof.
  intros H. destruct s as [d vs]. unfold fillna. cbn [dtype_of values] in *.
  rewrite fill_missing_id, converted_kept by exact H. reflexivity.
Qed.

Lemma fillna_all_present s v :
  all_present (fillna s (Some v)) = true.
Proof.
  unfold all_present, fillna. cbn [values].
  induction (values s) as [|[x|] vs IH]; simpl; auto.
Qed.

Lemma fillna_present_id s fv :
  all_present s = true -> dtype_of s <> object_ -> fillna s fv = s.
Proof.
  destruct s as [d vs]. unfold all_present, fillna.
  cbn [dtype_of values]. intros H Hd.
  rewrite fill_present_id, converted_kept by assumption. reflexivity.
Qed.

(** Filling a column that has been filled changes nothing. *)
Lemma fillna_filled s v fv :
  fillna (fillna s (Some v)) fv = fillna s (Some v).
Proof.
  destruct s as [d vs]. unfold fillna. cbv zeta. cbn [dtype_of values].
  set (cells := map (fun c : option value =>
                       match c with None => Some v | Some _ => c end) vs).
  assert (H : forallb (fun c => negb (isna c)) cells = true).
  { subst cells. induction vs as [|[x|] vs IH]; simpl; auto. }
  rewrite (fill_present_id _ fv H), converted_again. reflexivity.
Qed.

(** Filling in place gives the cells that filling a copy gives. *)
Lemma fillna_inplace_values s fv :
  values (fillna_inplace s fv) = values (fillna s fv).
Proof.
  unfold fillna_inplace.
  destruct (forallb (fun c => negb (isna c)) (values s)) eqn:H;
    [|reflexivity].
  unfold fillna. cbn [values]. rewrite fill_present_id by exact H.
  reflexivity.
Qed.

Lemma fillna_length s fv : length (values (fillna s fv)) = length (values s).
Proof. unfold fillna. simpl. apply length_map. Qed.

(** A value that is there stays where it is. *)
Lemma fillna_keeps s fv i v :
  nth_error (values s) i = Some (Some v) ->
  nth_error (values (fillna s fv)) i = Some (Some v).
Proof.
  unfold fillna. simpl. intros H.
  rewrite (map_nth_error _ _ _ H). reflexivity.
Qed.

Lemma present_fillna_some s v :
  values s <> [] -> present (fillna s (Some v)) <> [].
Proof.
  unfold present, fillna. simpl.
  destruct (values s) as [|[x|] vs]; simpl; congruence.
Qed.

Lemma present_nil_values s : present s <> [] -> values s <> [].
Proof. unfold present. destruct (values s); simpl; congruence. Qed.

Lemma present_nil_nums s : present s = [] -> present_nums s = [].
Proof.
  unfold present, present_nums.
  induction (values s) as [|[x|] vs IH]; simpl; auto. discriminate.
Qed.

Lemma present_nil_missing s : present s = [] <-> all_missing s = true.
Proof.
  unfold present, all_missing.
  induction (values s) as [|[x|] vs IH]; simpl.
  - tauto.
  - split; discriminate.
  - exact IH.
Qed.

(** ** The mode *)

Lemma distinct_grows {A : Type} (eqb : A -> A -> bool) (l : list A) :
  forall acc, acc <> [] ->
  fold_left (fun acc x => if existsb (eqb x) acc then acc else acc ++ [x])
            l acc <> [].
Proof.
  induction l as [|x l IH]; intros acc H; simpl; [exact H|].
  apply IH. destruct (existsb (eqb x) acc); [exact H|].
  destruct acc; simpl; congruence.
Qed.

Lemma distinct_nonempty {A : Type} (eqb : A -> A -> bool) (l : list A) :
  l <> [] -> distinct eqb l <> [].
Proof.
  destruct l as [|x l]; [congruence|]. intros _. unfold distinct. simpl.
  apply distinct_grows. discriminate.
Qed.

Lemma max_attained {A : Type} (f : A -> nat) (l : list A) :
  l <> [] ->
  exists x, In x l /\ f x = fold_right Nat.max 0%nat (map f l).
Proof.
  induction l as [|x l IH]; [congruence|]. intros _. simpl.
  destruct l as [|y l].
  - exists x. simpl. split; [auto | lia].
  - destruct (IH ltac:(discriminate)) as [z [Hin Hz]].
    destruct (Nat.le_gt_cases (f x) (fold_right Nat.max 0%nat (map f (y :: l)))).
    + exists z. split; [right; exact Hin|]. rewrite Hz. lia.
    + exists x. split; [left; reflexivity|]. lia.
Qed.

Lemma insert_sorted_nonempty v l : insert_sorted v l <> [].
Proof. destruct l as [|w l]; simpl; [|destruct (value_leb v w)]; discriminate. Qed.

Lemma sort_values_nonempty l : l <> [] -> sort_values l <> [].
Proof.
  destruct l as [|v l]; [congruence|]. intros _. unfold sort_values.
  destruct (forallb (same_kind v) (v :: l)); [|discriminate].
  simpl. apply insert_sorted_nonempty.
Qed.

Lemma mode_nil s : present s = [] -> mode s = [].
Proof. unfold mode. intros ->. reflexivity. Qed.

Lemma mode_nonempty s : present s <> [] -> mode s <> [].
Proof.
  intros H. unfold mode. apply sort_values_nonempty.
  destruct (max_attained (fun v => count_of v (present s))
              (distinct value_eqb (present s))
              (distinct_nonempty _ _ H)) as [x [Hin Hx]].
  intros Hnil.
  assert (Hf : In x (filter (fun v => Nat.eqb (count_of v (present s))
             (fold_right Nat.max 0%nat
                (map (fun v => count_of v (present s))
                     (distinct value_eqb (present s)))))
             (distinct value_eqb (present s)))).
  { apply filter_In. split; [exact Hin|]. apply Nat.eqb_eq. exact Hx. }
  rewrite Hnil in Hf. destruct Hf.
Qed.

(** ** The fill value *)

Lemma fill_value_raise s e :
  fill_value_of s = Raise e <->
  is_int_or_float (dtype_of s) = false /\ present s = [] /\ e = KeyError.
Proof.
  unfold fill_value_of, mode_first.
  destruct (is_int_or_float (dtype_of s)).
  - split; [discriminate | intros [H _]; discriminate].
  - destruct (mode s) as [|v l] eqn:Hm.
    + split.
      * intros H. injection H as <-. repeat split.
        destruct (present s) eqn:Hp; [reflexivity|].
        exfalso. apply (mode_nonempty s); [rewrite Hp; discriminate | exact Hm].
      * intros [_ [_ ->]]. reflexivity.
    + split; [discriminate|]. intros [_ [Hp _]].
      rewrite (mode_nil _ Hp) in Hm. discriminate.
Qed.

Lemma fill_value_missing s :
  fill_value_of s = Ok None ->
  is_int_or_float (dtype_of s) = true /\ present_nums s = [].
Proof.
  unfold fill_value_of, mode_first, mean.
  destruct (is_int_or_float (dtype_of s)).
  - destruct (present_nums s); [auto | discriminate].
  - destruct (mode s); discriminate.
Qed.

Lemma fillna_twice s fv fv' :
  fillna (fillna s fv) fv' = fillna s fv \/ fv = None.
Proof.
  destruct fv as [v|]; [left | right; reflexivity].
  apply fillna_filled.
Qed.

Lemma fill_value_numeric s :
  fill_value_of s = Ok None -> dtype_of s <> object_.
Proof.
  intros H. apply fill_value_missing in H. destruct H as [H _].
  intros E. rewrite E in H. discriminate.
Qed.

Lemma fill_value_again s fv :
  fill_value_of s = Ok fv ->
  exists fv', fill_value_of (fillna s fv) = Ok fv'
              /\ fillna (fillna s fv) fv' = fillna s fv.
Proof.
  intros H. destruct fv as [v|].
  - destruct (fill_value_of (fillna s (Some v))) as [fv'|e] eqn:H'.
    + exists fv'. split; [reflexivity|]. apply fillna_filled.
    + exfalso. apply fill_value_raise in H'. destruct H' as [_ [Hp _]].
      assert (Hs : values s <> []).
      { intros Hn. unfold fill_value_of, mean, mode_first in H.
        assert (Hpn : present_nums s = [])
          by (unfold present_nums; rewrite Hn; reflexivity).
        assert (Hpr : present s = [])
          by (unfold present; rewrite Hn; reflexivity).
        rewrite Hpn, (mode_nil _ Hpr) in H.
        destruct (is_int_or_float (dtype_of s)); discriminate. }
      apply (present_fillna_some s v Hs), Hp.
  - pose proof (fill_value_numeric _ H) as Hd.
    rewrite (fillna_missing _ Hd). exists None. split; [exact H|].
    apply fillna_missing, Hd.
Qed.

(** ** The loop of the imputer *)

Lemma impute_state_start df : impute_state df [] df.
Proof.
  repeat split; auto. intros [].
Qed.

Lemma impute_state_lookup before done now name :
  impute_state before done now ->
  lookup_column name (columns now) <> None <->
  lookup_column name (columns before) <> None.
Proof.
  intros [_ [_ [Hn _]]]. rewrite !lookup_column_In.
  unfold column_names in Hn. rewrite Hn. tauto.
Qed.

(** One column more is filled. *)
Lemma impute_state_step before done now column now' :
  impute_state before done now ->
  impute_frame_column now column = Ok now' ->
  impute_state before (column :: done) now'.
Proof.
  intros Hst Hstep. pose proof Hst as [Hi [Hin [Hn Hcols]]].
  unfold impute_frame_column, getitem in Hstep.
  destruct (lookup_column column (columns now)) as [t|] eqn:Ht; [|discriminate].
  destruct (fill_value_of t) as [fvt|e] eqn:Hfv; [|discriminate].
  injection Hstep as <-.
  split; [exact Hi|]. split; [exact Hin|].
  split.
  { unfold column_names, setitem in *. simpl.
    rewrite set_column_names by congruence. exact Hn. }
  intros X s HX. unfold setitem. simpl. rewrite lookup_set_column.
  destruct (String.eqb_spec X column) as [->|Hne].
  - split; [intros _ | intros H; contradiction H; left; reflexivity].
    destruct (Hcols column s HX) as [Hdone Hnot].
    destruct (in_dec string_dec column done) as [Hd|Hd].
    + destruct (Hdone Hd) as [fv [Hfvs Hl]].
      rewrite Ht in Hl. injection Hl as ->.
      destruct (fill_value_again s fv Hfvs) as [fv' [Hfv' Heq]].
      rewrite Hfv in Hfv'. injection Hfv' as ->.
      exists fv. rewrite Heq. auto.
    + rewrite (Hnot Hd) in Ht. injection Ht as ->.
      exists fvt. auto.
  - destruct (Hcols X s HX) as [Hdone Hnot].
    split.
    + intros [H|H]; [congruence | exact (Hdone H)].
    + intros H. apply Hnot. intros H'. apply H. right. exact H'.
Qed.

Lemma impute_frame_ok names : forall before done now after,
  impute_state before done now ->
  impute_frame names now = (Ok tt, after) ->
  impute_state before (rev names ++ done) after.
Proof.
  induction names as [|c names IH]; intros before done now after Hst H; simpl in *.
  - injection H as <-. exact Hst.
  - destruct (impute_frame_column now c) as [now'|e] eqn:Hc; [|discriminate].
    rewrite <- app_assoc. simpl.
    eapply IH; [|exact H]. eapply impute_state_step; eassumption.
Qed.

(** The loop fails on the first column whose fill value cannot be
    computed, and only there. *)
Lemma impute_frame_raise names : forall before done now e after,
  impute_state before done now ->
  impute_frame names now = (Raise e, after) ->
  exists column,
    In column names
    /\ (lookup_column column (columns before) = None /\ e = KeyError
        \/ exists s, lookup_column column (columns before) = Some s
                     /\ fill_value_of s = Raise e).
Proof.
  induction names as [|c names IH]; intros before done now e after Hst H; simpl in *.
  - discriminate.
  - destruct (impute_frame_column now c) as [now'|e'] eqn:Hc.
    + destruct (IH _ _ _ _ _ (impute_state_step _ _ _ _ _ Hst Hc) H)
        as [column [Hin Hcase]].
      exists column. split; [right; exact Hin | exact Hcase].
    + injection H as -> _. exists c. split; [left; reflexivity|].
      unfold impute_frame_column, getitem in Hc.
      destruct (lookup_column c (columns now)) as [t|] eqn:Ht.
      * right.
        assert (Hb : lookup_column c (columns before) <> None).
        { apply (impute_state_lookup _ _ _ c Hst). congruence. }
        destruct (lookup_column c (columns before)) as [s|] eqn:Hs;
          [|congruence].
        exists s. split; [reflexivity|].
        destruct Hst as [_ [_ [_ Hcols]]].
        destruct (Hcols c s Hs) as [Hdone Hnot].
        destruct (fill_value_of t) as [fv|e2] eqn:Hfv; [discriminate|].
        injection Hc as ->.
        destruct (in_dec string_dec c done) as [Hd|Hd].
        -- destruct (Hdone Hd) as [fv [Hfvs Hl]].
           rewrite Ht in Hl. injection Hl as ->.
           destruct (fill_value_again s fv Hfvs) as [fv' [Hfv' _]].
           congruence.
        -- rewrite (Hnot Hd) in Ht. injection Ht as ->. exact Hfv.
      * left. injection Hc as <-. split; [|reflexivity].
        destruct (lookup_column c (columns before)) eqn:Hs; [|reflexivity].
        exfalso.
        assert (Hb : lookup_column c (columns now) <> None).
        { apply (impute_state_lookup _ _ _ c Hst). congruence. }
        congruence.
Qed.

(** The loop succeeds when every fill value can be computed. *)
Lemma impute_frame_total names : forall before done now,
  impute_state before done now ->
  (forall column, In column names ->
     exists s fv, lookup_column column (columns before) = Some s
                  /\ fill_value_of s = Ok fv) ->
  exists after, impute_frame names now = (Ok tt, after).
Proof.
  intros before done now Hst Hall.
  destruct (impute_frame names now) as [[[]|e] after] eqn:H.
  - exists after. reflexivity.
  - destruct (impute_frame_raise _ _ _ _ _ _ Hst H) as [c [Hin Hcase]].
    destruct (Hall c Hin) as [s [fv [Hs Hfv]]].
    destruct Hcase as [[Hnone _]|[s' [Hs' Hr]]]; congruence.
Qed.

Lemma imputed_of_state before after :
  impute_state before (rev (column_names before) ++ []) after ->
  imputed before after.
Proof.
  intros [Hi [Hin [Hn Hcols]]].
  split; [exact Hi|]. split; [exact Hin|]. split; [exact Hn|].
  intros name s Hs. apply (Hcols name s Hs).
  rewrite app_nil_r. apply in_rev. rewrite rev_involutive.
  apply lookup_column_In. congruence.
Qed.

(** What a successful call of [_impute] does: the object it is given
    holds the filled frame, it is the object returned, and nothing else
    changes. *)
Lemma impute_ok data w df r w' :
  nth_error (heap w) data = Some df ->
  _impute data w = (Ok r, w') ->
  r = data
  /\ exists df', imputed df df' /\ w' = with_object w data df'.
Proof.
  intros H Hrun. rewrite (impute_frame_spec _ _ _ H) in Hrun.
  destruct (impute_frame (column_names df) df) as [[[]|e] df'] eqn:Hf;
    simpl in Hrun; [|discriminate].
  injection Hrun as <- <-. split; [reflexivity|].
  exists df'. split; [|reflexivity].
  apply imputed_of_state.
  eapply impute_frame_ok; [apply impute_state_start | exact Hf].
Qed.

(** ** The imputer: effect on the caller's table *)

(** C4 (as claimed): the table passed to the imputer keeps its missing
    values.  It does not: the object itself is filled. *)
Lemma impute_mutates_the_table :
  _impute 0 (Scenario.world_of Scenario.payments)
  = (Ok 0%nat, Scenario.world_of Scenario.payments_filled)
  /\ nth_error (heap (Scenario.world_of Scenario.payments)) 0
     = Some Scenario.payments
  /\ nth_error
       (heap (snd (_impute 0 (Scenario.world_of Scenario.payments)))) 0
     <> Some Scenario.payments.
Proof.
  split; [reflexivity|]. split; [reflexivity|].
  vm_compute. discriminate.
Qed.

(** C4 (amended): the imputer works in place.  A successful call returns
    the object it was given; that object now holds the table with every
    column filled with its mean or first mode (a value that was there is
    kept, and a column whose fill value exists has no missing value left);
    no other object, no model and no event changes. *)
Theorem impute_in_place (data : ref) (w w' : World) (df : DataFrame) (r : ref) :
  nth_error (heap w) data = Some df ->
  _impute data w = (Ok r, w') ->
  r = data
  /\ (exists df',
        nth_error (heap w') data = Some df'
        /\ index df' = index df
        /\ column_names df' = column_names df
        /\ forall name s,
             lookup_column name (columns df) = Some s ->
             exists fill_value,
               fill_value_of s = Ok fill_value
               /\ lookup_column name (columns df')
                  = Some (fillna s fill_value)
               /\ (fill_value <> None ->
                   all_present (fillna s fill_value) = true))
  /\ (forall other, other <> data ->
        nth_error (heap w') other = nth_error (heap w) other)
  /\ length (heap w') = length (heap w)
  /\ models w' = models w
  /\ events w' = events w.
Proof.
  intros H Hrun.
  destruct (impute_ok _ _ _ _ _ H Hrun) as [-> [df' [Himp ->]]].
  split; [reflexivity|].
  split.
  { exists df'. split; [eapply with_object_read, H|].
    destruct Himp as [Hi [_ [Hn Hcols]]].
    split; [exact Hi|]. split; [exact Hn|].
    intros name s Hs. destruct (Hcols name s Hs) as [fv [Hfv Hl]].
    exists fv. split; [exact Hfv|]. split; [exact Hl|].
    destruct fv as [v|]; [intros _; apply fillna_all_present | congruence]. }
  split; [intros other Hne; simpl; apply replace_nth_other, Hne|].
  split; [simpl; apply replace_nth_length|].
  split; reflexivity.
Qed.

Lemma impute_in_place_witness :
  _impute 0 (Scenario.world_of Scenario.payments)
  = (Ok 0%nat, Scenario.world_of Scenario.payments_filled)
  /\ exists df',
       nth_error (heap (Scenario.world_of Scenario.payments_filled)) 0
       = Some df'
       /\ column_names df' = column_names Scenario.payments.
Proof.
  split; [reflexivity|].
  destruct (impute_in_place 0 (Scenario.world_of Scenario.payments)
              (Scenario.world_of Scenario.payments_filled)
              Scenario.payments 0 eq_refl eq_refl)
    as [_ [[df' [Hread [_ [Hnames _]]]] _]].
  exists df'. split; [exact Hread | exact Hnames].
Defined.

(** ** The imputer: entirely missing columns *)

(** C5 (as claimed): a table with an entirely missing column makes the
    imputer fail.  It does not when the column is numeric: the mean is
    missing too, nothing is raised and the column comes back as it was. *)
Lemma impute_numeric_all_missing_succeeds :
  lookup_column "weight" (columns Scenario.unmeasured)
  = Some (Scenario.float_column [None; None])
  /\ exists w',
       _impute 0 (Scenario.world_of Scenario.unmeasured) = (Ok 0%nat, w')
       /\ exists df',
            nth_error (heap w') 0 = Some df'
            /\ lookup_column "weight" (columns df')
               = Some (Scenario.float_column [None; None]).
Proof.
  split; [reflexivity|].
  eexists. split; [reflexivity|].
  eexists. split; reflexivity.
Qed.

(** C5 (amended): the imputer fails exactly when a column that is not
    numeric is entirely missing; the failure is the lookup error raised
    by taking the first mode of the column, and it is the only failure.
    An entirely missing numeric column raises nothing and comes back
    entirely missing: no value other than the mean or the mode is ever
    substituted. *)
Theorem impute_fails_iff_no_mode (data : ref) (w : World) (df : DataFrame) :
  nth_error (heap w) data = Some df ->
  ((exists name s,
       lookup_column name (columns df) = Some s
       /\ is_int_or_float (dtype_of s) = false
       /\ all_missing s = true)
   <-> exists w', _impute data w = (Raise KeyError, w'))
  /\ (forall e w', _impute data w = (Raise e, w') -> e = KeyError)
  /\ (forall r w' name s,
        _impute data w = (Ok r, w') ->
        lookup_column name (columns df) = Some s ->
        is_int_or_float (dtype_of s) = true ->
        all_missing s = true ->
        exists df', nth_error (heap w') data = Some df'
                    /\ lookup_column name (columns df') = Some s).
Proof.
  intros H.
  assert (Hraise : forall e w', _impute data w = (Raise e, w') ->
            e = KeyError
            /\ exists name s,
                 lookup_column name (columns df) = Some s
                 /\ is_int_or_float (dtype_of s) = false
                 /\ all_missing s = true).
  { intros e w' Hrun. rewrite (impute_frame_spec _ _ _ H) in Hrun.
    destruct (impute_frame (column_names df) df) as [[[]|e'] df'] eqn:Hf;
      simpl in Hrun; [discriminate|].
    injection Hrun as -> _.
    destruct (impute_frame_raise _ _ _ _ _ _ (impute_state_start df) Hf)
      as [c [Hin [[Hnone _]|[s [Hs Hr]]]]].
    - exfalso. apply lookup_column_In in Hin. congruence.
    - apply fill_value_raise in Hr. destruct Hr as [Hd [Hp ->]].
      split; [reflexivity|]. exists c, s.
      split; [exact Hs|]. split; [exact Hd|]. apply present_nil_missing, Hp. }
  split; [split|split].
  - intros [name [s [Hs [Hd Hm]]]].
    destruct (_impute data w) as [[r|e] w'] eqn:Hrun.
    + exfalso. destruct (impute_ok _ _ _ _ _ H Hrun) as [_ [df' [Himp _]]].
      destruct Himp as [_ [_ [_ Hcols]]].
      destruct (Hcols name s Hs) as [fv [Hfv _]].
      assert (Hr : fill_value_of s = Raise KeyError).
      { apply fill_value_raise. split; [exact Hd|].
        split; [apply present_nil_missing, Hm | reflexivity]. }
      congruence.
    + destruct (Hraise e w' eq_refl) as [-> _]. exists w'. reflexivity.
  - intros [w' Hrun]. apply (Hraise _ _ Hrun).
  - intros e w' Hrun. apply (Hraise _ _ Hrun).
  - intros r w' name s Hrun Hs Hd Hm.
    destruct (impute_ok _ _ _ _ _ H Hrun) as [_ [df' [Himp ->]]].
    exists df'. split; [eapply with_object_read, H|].
    destruct Himp as [_ [_ [_ Hcols]]].
    destruct (Hcols name s Hs) as [fv [Hfv Hl]].
    unfold fill_value_of in Hfv. rewrite Hd in Hfv.
    unfold mean in Hfv.
    rewrite (present_nil_nums s) in Hfv by (apply present_nil_missing, Hm).
    injection Hfv as <-. rewrite fillna_missing in Hl; [exact Hl|].
    intros E. rewrite E in Hd. discriminate.
Qed.

Lemma impute_fails_iff_no_mode_witness :
  nth_error (heap (Scenario.world_of Scenario.unnamed)) 0
  = Some Scenario.unnamed
  /\ (exists name s,
         lookup_column name (columns Scenario.unnamed) = Some s
         /\ is_int_or_float (dtype_of s) = false
         /\ all_missing s = true)
  /\ exists w', _impute 0 (Scenario.world_of Scenario.unnamed)
                = (Raise KeyError, w').
Proof.
  assert (Hcol : exists name s,
             lookup_column name (columns Scenario.unnamed) = Some s
             /\ is_int_or_float (dtype_of s) = false
             /\ all_missing s = true).
  { exists "name", (mkSeries object_ [None; None]).
    repeat split; reflexivity. }
  split; [reflexivity|]. split; [exact Hcol|].
  destruct (impute_fails_iff_no_mode 0 (Scenario.world_of Scenario.unnamed)
              Scenario.unnamed eq_refl) as [[Hfail _] _].
  exact (Hfail Hcol).
Defined.

(** ** The traversal *)



(** What the primitive computations return. *)
Lemma ret_ok {A : Type} (a b : A) w w' :
  ret a w = (Ok b, w') -> b = a /\ w' = w.
Proof. unfold ret. intros H. injection H as <- <-. auto. Qed.

Lemma lift_ok {A : Type} (x : result A) a w w' :
  lift x w = (Ok a, w') -> x = Ok a /\ w' = w.
Proof. unfold lift. intros H. injection H as -> <-. auto. Qed.

Lemma read_ok r df w w' :
  read r w = (Ok df, w') -> nth_error (heap w) r = Some df /\ w' = w.
Proof.
  unfold read. destruct (nth_error (heap w) r); intros H; [|discriminate].
  injection H as <- <-. auto.
Qed.

Lemma alloc_ok df r w w' :
  alloc df w = (Ok r, w') ->
  r = length (heap w)
  /\ w' = mkWorld (heap w ++ [df]) (models w) (events w).
Proof. unfold alloc. intros H. injection H as <- <-. auto. Qed.

Lemma write_ok r df u w w' :
  write r df w = (Ok u, w') -> w' = with_object w r df.
Proof. unfold write. intros H. injection H as _ <-. reflexivity. Qed.

Lemma emit_ok e u w w' :
  emit e w = (Ok u, w') ->
  w' = mkWorld (heap w) (models w) (events w ++ [e]).
Proof. unfold emit. intros H. injection H as _ <-. reflexivity. Qed.

Lemma store_model_ok name m u w w' :
  store_model name m w = (Ok u, w') ->
  w' = mkWorld (heap w) (set_model name m (models w)) (events w).
Proof. unfold store_model. intros H. injection H as _ <-. reflexivity. Qed.

Lemma nth_error_app_last {A : Type} (l : list A) (x : A) :
  nth_error (l ++ [x]) (length l) = Some x.
Proof. rewrite nth_error_app2, Nat.sub_diag by lia. reflexivity. Qed.

Lemma nth_error_app_old {A : Type} (l : list A) (x y : A) n :
  nth_error l n = Some y -> nth_error (l ++ [x]) n = Some y.
Proof.
  intros H. rewrite nth_error_app1; [exact H | eapply nth_error_lt, H].
Qed.

Lemma replace_nth_app_last {A : Type} (l : list A) (x y : A) :
  replace_nth (length l) x (l ++ [y]) = l ++ [x].
Proof. induction l as [|z l IH]; simpl; [reflexivity | f_equal; exact IH]. Qed.

(** [_fit_model] fills the object it is given and fits the model to
    the filled frame. *)
Lemma fit_model_ok (model : ModelClass) data w df fitted w' :
  nth_error (heap w) data = Some df ->
  _fit_model model data w = (Ok fitted, w') ->
  exists filled,
    imputed df filled
    /\ fit model filled = Ok fitted
    /\ w' = with_object w data filled.
Proof.
  intros H Hrun. unfold _fit_model in Hrun.
  apply bind_ok in Hrun. destruct Hrun as [r [w1 [Himp Hrun]]].
  destruct (impute_ok _ _ _ _ _ H Himp) as [-> [filled [Hfilled ->]]].
  apply bind_ok in Hrun. destruct Hrun as [df1 [w2 [Hread Hrun]]].
  apply read_ok in Hread. destruct Hread as [Hread ->].
  rewrite (with_object_read _ _ _ _ H) in Hread. injection Hread as <-.
  apply lift_ok in Hrun. destruct Hrun as [Hfit ->].
  exists filled. auto.
Qed.

(** What [_get_model_dict] returns is the flattened export of the fitted
    model after its rewriting. *)
Lemma get_model_dict_ok (model : ModelClass) np_log data w params w' :
  _get_model_dict model np_log data w = (Ok params, w') ->
  exists df fitted,
    nth_error (heap w') data = Some df
    /\ fit model df = Ok fitted
    /\ params
       = _flatten_dict (to_dict model (encode_model np_log fitted)) "".
Proof.
  intros H. unfold _get_model_dict in H.
  apply bind_ok in H. destruct H as [fitted [w1 [Hfit Hret]]].
  apply ret_ok in Hret. destruct Hret as [-> ->].
  unfold _fit_model in Hfit.
  apply bind_ok in Hfit. destruct Hfit as [r [w2 [Himp Hfit]]].
  apply bind_ok in Hfit. destruct Hfit as [df [w3 [Hread Hfit]]].
  apply read_ok in Hread. destruct Hread as [Hread ->].
  apply lift_ok in Hfit. destruct Hfit as [Hfit ->].
  assert (Hr : r = data).
  { unfold _impute in Himp.
    apply bind_ok in Himp. destruct Himp as [df0 [w4 [_ Himp]]].
    apply bind_ok in Himp. destruct Himp as [u [w5 [_ Himp]]].
    apply ret_ok in Himp. destruct Himp as [-> _]. reflexivity. }
  subst r. exists df, fitted. auto.
Qed.

(** C3: for a fitted model whose covariance is a symmetric n x n matrix,
    the rewriting of the model between [_fit_model] and [to_dict]
    replaces the covariance by a ragged sequence of n rows, row i being
    the first i + 1 entries of row i of the matrix (its lower triangle);
    n (n + 1) / 2 values are kept, and the matrix is rebuilt from them.
    The other attributes of the model are not touched, and the
    parameters [_get_model_dict] returns are the flattened export of the
    model rewritten this way. *)
Theorem covariance_encoding_lower_triangle (np_log : Q -> Q)
    (m : FittedModel) (n : nat) :
  is_square n (covariance m) = true ->
  is_symmetric (covariance m) = true ->
  length (covariance (encode_model np_log m)) = n
  /\ (forall i, (i < n)%nat ->
        nth i (covariance (encode_model np_log m)) []
        = firstn (i + 1) (nth i (covariance m) [])
        /\ length (nth i (covariance (encode_model np_log m)) [])
           = (i + 1)%nat)
  /\ length (concat (covariance (encode_model np_log m)))
     = (n * (n + 1) / 2)%nat
  /\ rebuild (covariance (encode_model np_log m)) = covariance m
  /\ model_attrs (encode_model np_log m) = model_attrs m
  /\ map fst (distribs (encode_model np_log m)) = map fst (distribs m)
  /\ (forall (model : ModelClass) data w params w',
        _get_model_dict model np_log data w = (Ok params, w') ->
        exists df fitted,
          nth_error (heap w') data = Some df
          /\ fit model df = Ok fitted
          /\ params
             = _flatten_dict (to_dict model (encode_model np_log fitted)) "").
Proof.
  intros Hsq Hsym.
  destruct (encode_covariance_lower_triangle n (covariance m) Hsq Hsym)
    as [H1 [H2 [H3 H4]]].
  split; [exact H1|]. split; [exact H2|]. split; [exact H3|].
  split; [exact H4|]. split; [reflexivity|].
  split; [simpl; rewrite map_map; reflexivity|].
  intros model data w params w'. apply get_model_dict_ok.
Qed.

Lemma covariance_encoding_lower_triangle_witness :
  let m := mkFittedModel [[4; 2; 1]; [2; 5; 3]; [1; 3; 6]]%Q
             [("a", mkDistribution (Some 1%Q) []);
              ("b", mkDistribution None []);
              ("c", mkDistribution (Some 1%Q) [])]
             [("fitted", VScalar (SBool true))] in
  covariance (encode_model Scenario.log_one m) = [[4]; [2; 5]; [1; 3; 6]]%Q
  /\ length (concat (covariance (encode_model Scenario.log_one m)))
     = (3 * (3 + 1) / 2)%nat
  /\ rebuild (covariance (encode_model Scenario.log_one m)) = covariance m.
Proof.
  intros m.
  split; [reflexivity|].
  destruct (covariance_encoding_lower_triangle Scenario.log_one m 3
              eq_refl eq_refl)
    as [_ [_ [Hcount [Hrebuild _]]]].
  split; [exact Hcount | exact Hrebuild].
Defined.

Section TraversalProperties.

Variable metadata : Metadata.
Variable model : ModelClass.
Variable np_log : Q -> Q.






(** ** Tables without a primary key *)

Lemma resolve_table_ok table_name tables w table w1 :
  resolve_table metadata table_name tables w = (Ok table, w1) ->
  models w1 = models w
  /\ ((exists t ts, tables = Some (t :: ts)
                    /\ lookup_table table_name (t :: ts) = Ok table
                    /\ w1 = w)
      \/ ((tables = None \/ tables = Some [])
          /\ exists df, load_table metadata table_name = Ok df
                        /\ table = length (heap w)
                        /\ w1 = mkWorld (heap w ++ [df]) (models w)
                                        (events w ++ [LoadTable table_name]))).
Proof.
  assert (Hload : bind (emit (LoadTable table_name))
                    (fun _ => bind (lift (load_table metadata table_name))
                                (fun t => alloc t)) w = (Ok table, w1) ->
            models w1 = models w
            /\ exists df, load_table metadata table_name = Ok df
                          /\ table = length (heap w)
                          /\ w1 = mkWorld (heap w ++ [df]) (models w)
                                          (events w ++ [LoadTable table_name])).
  { unfold bind, emit, lift, alloc. simpl.
    destruct (load_table metadata table_name) as [df|e]; [|discriminate].
    intros H. injection H as <- <-. split; [reflexivity|].
    exists df. auto. }
  destruct tables as [[|t ts]|]; simpl; intros H.
  - destruct (Hload H) as [Hm Hdf]. split; [exact Hm|]. right. auto.
  - apply lift_ok in H. destruct H as [H ->].
    split; [reflexivity|]. left. exists t, ts. auto.
  - destruct (Hload H) as [Hm Hdf]. split; [exact Hm|]. right. auto.
Qed.

Lemma setitem_aligned_ok df key labels s final :
  setitem_aligned df key labels s = Ok final ->
  index final = index df
  /\ index_name final = index_name df
  /\ forall name, name <> key ->
       lookup_column name (columns final) = lookup_column name (columns df).
Proof.
  unfold setitem_aligned.
  destruct (all_eqb (values (index df)) labels);
    [|destruct (has_duplicates labels); [discriminate|]];
    intros H; injection H as <-; simpl;
    (split; [reflexivity|]; split; [reflexivity|]);
    intros name Hne; rewrite lookup_set_column;
    destruct (String.eqb_spec name key); congruence.
Qed.

Lemma attach_foreign_key_ok table extended key w u w' raw df :
  nth_error (heap w) table = Some raw ->
  nth_error (heap w) extended = Some df ->
  attach_foreign_key table extended key w = (Ok u, w') ->
  exists keys final,
    getitem raw key = Ok keys
    /\ setitem_aligned df key (values (index raw)) keys = Ok final
    /\ w' = with_object w extended final.
Proof.
  intros Ht He H. unfold attach_foreign_key in H.
  apply bind_ok in H. destruct H as [raw' [w1 [Hr H]]].
  apply read_ok in Hr. destruct Hr as [Hr ->].
  rewrite Ht in Hr. injection Hr as <-.
  apply bind_ok in H. destruct H as [keys [w1 [Hk H]]].
  apply lift_ok in Hk. destruct Hk as [Hk ->].
  apply bind_ok in H. destruct H as [df' [w1 [Hr H]]].
  apply read_ok in Hr. destruct Hr as [Hr ->].
  rewrite He in Hr. injection Hr as <-.
  apply bind_ok in H. destruct H as [final [w1 [Hs H]]].
  apply lift_ok in Hs. destruct Hs as [Hs ->].
  apply write_ok in H. exists keys, final. auto.
Qed.

(** A table without a primary key never calls the recursion. *)
Lemma cpa_body_without_key recur1 recur2 table_name tables foreign_key w :
  truthy (get_primary_key metadata table_name) = None ->
  cpa_body metadata model np_log recur1 table_name tables foreign_key w
  = cpa_body metadata model np_log recur2 table_name tables foreign_key w.
Proof. intros H. unfold cpa_body. rewrite H. reflexivity. Qed.

(** C8: for a table without a primary key, [cpa] makes no recursive call
    (a call stack of depth one is enough, whatever the children), asks
    for no other table, logs no other table and stores no other model,
    builds no frame but the transformed one, and returns that frame: the
    row labels are those of the transformed frame, in the same order,
    and the columns are those of the transformed frame with their
    missing values filled (and the foreign key column when a foreign key
    was passed). *)
Theorem cpa_without_primary_key table_name tables foreign_key fuel w :
  truthy (get_primary_key metadata table_name) = None ->
  cpa metadata model np_log (S fuel) table_name tables foreign_key w
  = cpa metadata model np_log 1 table_name tables foreign_key w
  /\ forall r w',
      cpa metadata model np_log (S fuel) table_name tables foreign_key w
      = (Ok r, w') ->
      exists table raw transformed returned fitted,
        nth_error (heap w') table = Some raw
        /\ transform metadata table_name raw = Ok transformed
        /\ nth_error (heap w') r = Some returned
        /\ index returned = index transformed
        /\ nrows returned = nrows transformed
        /\ (forall name s,
              lookup_column name (columns transformed) = Some s ->
              truthy foreign_key <> Some name ->
              exists fill_value,
                fill_value_of s = Ok fill_value
                /\ lookup_column name (columns returned)
                   = Some (fillna s fill_value))
        /\ models w' = set_model table_name fitted (models w)
        /\ events w'
           = events w ++ Info ("Modeling " ++ table_name)
               :: match tables with
                  | Some (_ :: _) => []
                  | _ => [LoadTable table_name]
                  end
        /\ length (heap w')
           = length (heap w) + match tables with
                               | Some (_ :: _) => 1
                               | _ => 2
                               end.
Proof.
  intros Hkey. split.
  { simpl. apply cpa_body_without_key, Hkey. }
  intros r w' Hrun. simpl in Hrun. unfold cpa_body in Hrun. rewrite Hkey in Hrun.
  apply bind_ok in Hrun. destruct Hrun as [u [w0 [Hemit Hrun]]].
  apply emit_ok in Hemit.
  apply bind_ok in Hrun. destruct Hrun as [table [w1 [Hres Hrun]]].
  apply bind_ok in Hrun. destruct Hrun as [raw [w2 [Hread Hrun]]].
  apply read_ok in Hread. destruct Hread as [Hraw ->].
  apply bind_ok in Hrun. destruct Hrun as [transformed [w2 [Htr Hrun]]].
  apply lift_ok in Htr. destruct Htr as [Htr ->].
  apply bind_ok in Hrun. destruct Hrun as [extended [w2 [Hal Hrun]]].
  apply alloc_ok in Hal. destruct Hal as [-> ->].
  apply bind_ok in Hrun. destruct Hrun as [extended [w3 [Hret Hrun]]].
  apply ret_ok in Hret. destruct Hret as [-> ->].
  apply bind_ok in Hrun. destruct Hrun as [fitted [w3 [Hfit Hrun]]].
  apply (fit_model_ok _ _ _ transformed) in Hfit;
    [|simpl; apply nth_error_app_last].
  destruct Hfit as [filled [Himp [Hfit ->]]].
  apply bind_ok in Hrun. destruct Hrun as [u1 [w3 [Hst Hrun]]].
  apply store_model_ok in Hst. subst w3.
  apply bind_ok in Hrun. destruct Hrun as [u2 [w3 [Hret Hrun]]].
  apply ret_ok in Hret. destruct Hret as [_ ->].
  apply bind_ok in Hrun. destruct Hrun as [u3 [w3 [Hfk Hrun]]].
  apply ret_ok in Hrun. destruct Hrun as [-> ->].
  simpl in Hfk. rewrite replace_nth_app_last in Hfk.
  assert (Hmodels : models w1 = models w).
  { destruct (resolve_table_ok _ _ _ _ _ Hres) as [Hm _].
    rewrite Hm, Hemit. reflexivity. }
  assert (Hworld :
            events w1 = events w ++ Info ("Modeling " ++ table_name)
                          :: match tables with
                             | Some (_ :: _) => []
                             | _ => [LoadTable table_name]
                             end
            /\ length (heap w1) + 1
               = length (heap w) + match tables with
                                   | Some (_ :: _) => 1
                                   | _ => 2
                                   end).
  { destruct (resolve_table_ok _ _ _ _ _ Hres)
      as [_ [[t [ts [-> [_ ->]]]]|[Hnone [df [_ [_ ->]]]]]]; rewrite Hemit; simpl.
    - split; [reflexivity | lia].
    - rewrite length_app. simpl.
      destruct Hnone as [->| ->]; rewrite <- app_assoc; simpl; split;
        try reflexivity; lia. }
  destruct Hworld as [Hevents Hheap].
  destruct Himp as [Hi [_ [_ Hcols]]].
  destruct (truthy foreign_key) as [key|] eqn:Hfkey.
  - eapply attach_foreign_key_ok in Hfk;
      [|simpl; eapply nth_error_app_old, Hraw | simpl; apply nth_error_app_last].
    destruct Hfk as [keys [final [_ [Hal ->]]]].
    destruct (setitem_aligned_ok _ _ _ _ _ Hal) as [Hi' [_ Hother]].
    simpl. rewrite replace_nth_app_last.
    exists table, raw, transformed, final, fitted.
    split; [eapply nth_error_app_old, Hraw|].
    split; [exact Htr|].
    split; [apply nth_error_app_last|].
    split; [congruence|].
    split; [unfold nrows; congruence|].
    split.
    { intros name s Hs Hne. destruct (Hcols name s Hs) as [fv [Hfv Hl]].
      exists fv. split; [exact Hfv|]. rewrite Hother; [exact Hl | congruence]. }
    split; [congruence|]. split; [exact Hevents|].
    rewrite length_app. simpl. exact Hheap.
  - apply ret_ok in Hfk. destruct Hfk as [_ ->]. simpl.
    exists table, raw, transformed, filled, fitted.
    split; [eapply nth_error_app_old, Hraw|].
    split; [exact Htr|].
    split; [apply nth_error_app_last|].
    split; [exact Hi|].
    split; [unfold nrows; congruence|].
    split.
    { intros name s Hs _. apply (Hcols name s Hs). }
    split; [congruence|]. split; [exact Hevents|].
    rewrite length_app. simpl. exact Hheap.
Qed.

(** ** The extender *)

Lemma string_app_assoc (a b c : string) :
  ((a ++ b) ++ c)%string = (a ++ b ++ c)%string.
Proof. induction a as [|x a IH]; simpl; [reflexivity | rewrite IH; reflexivity]. Qed.

Lemma string_app_eqb (p a b : string) :
  String.eqb (p ++ a) (p ++ b) = String.eqb a b.
Proof.
  induction p as [|x p IH]; simpl; [reflexivity|].
  rewrite Ascii.eqb_refl. exact IH.
Qed.

Lemma child_rows_column_prefix child_name :
  child_rows_column child_name
  = (("__" ++ child_name ++ "__") ++ "child_rows")%string.
Proof.
  unfold child_rows_column. rewrite !string_app_assoc. reflexivity.
Qed.

Lemma prefix_labels_names prefix row :
  map fst (prefix_labels prefix row)
  = map (fun key => (prefix ++ key)%string) (map fst row).
Proof. unfold prefix_labels. rewrite !map_map. reflexivity. Qed.

Lemma series_of_dict_names d : map fst (series_of_dict d) = dict_keys d.
Proof. unfold series_of_dict, dict_keys. rewrite map_map. reflexivity. Qed.

Lemma lookup_label_prefixed prefix key d :
  lookup_label (prefix ++ key) (prefix_labels prefix (series_of_dict d))
  = match dict_get key d with
    | Some v => cell_of_value v
    | None => None
    end.
Proof.
  induction d as [|[k v] d IH]; simpl; [reflexivity|].
  rewrite string_app_eqb. destruct (String.eqb k key); [reflexivity | exact IH].
Qed.

Lemma distinct_In_from (l : list string) : forall acc x,
  In x (fold_left (fun acc x =>
                     if existsb (String.eqb x) acc then acc else acc ++ [x])
                  l acc)
  <-> In x acc \/ In x l.
Proof.
  induction l as [|a l IH]; intros acc x; simpl; [tauto|].
  rewrite IH. destruct (existsb (String.eqb a) acc) eqn:E.
  - apply existsb_exists in E. destruct E as [y [Hy E]].
    apply String.eqb_eq in E. subst y.
    split; [tauto|]. intros [H|[H|H]]; subst; tauto.
  - rewrite in_app_iff. simpl. tauto.
Qed.

Lemma distinct_In (l : list string) x :
  In x (distinct String.eqb l) <-> In x l.
Proof. unfold distinct. rewrite distinct_In_from. simpl. tauto. Qed.

Lemma frame_of_rows_names rows labels :
  column_names (frame_of_rows rows labels)
  = distinct String.eqb (flat_map (map fst) rows).
Proof.
  unfold frame_of_rows, column_names. simpl. rewrite map_map. simpl.
  apply map_id.
Qed.

Lemma frame_of_rows_lookup rows labels name :
  In name (flat_map (map fst) rows) ->
  lookup_column name (columns (frame_of_rows rows labels))
  = Some (mkSeries (column_dtype name rows)
                   (map (lookup_label name) rows)).
Proof.
  intros Hin. apply (proj2 (distinct_In _ _)) in Hin. unfold frame_of_rows. simpl.
  induction (distinct String.eqb (flat_map (map fst) rows)) as [|k l IH];
    [destruct Hin|]. simpl.
  destruct (String.eqb_spec k name) as [->|Hne]; [reflexivity|].
  apply IH. destruct Hin; [contradiction | assumption].
Qed.

(** One row of the extension. *)
Lemma extension_row_ok child_name indexed label row w w' :
  extension_row model np_log child_name indexed label w = (Ok row, w') ->
  is_group_row model np_log child_name indexed label row.
Proof.
  unfold extension_row. intros H.
  apply bind_ok in H. destruct H as [group [w1 [Hloc H]]].
  apply lift_ok in Hloc. destruct Hloc as [Hloc ->].
  apply bind_ok in H. destruct H as [data [w1 [Hal H]]].
  apply alloc_ok in Hal. destruct Hal as [-> ->].
  apply bind_ok in H. destruct H as [params [w2 [Hdict H]]].
  apply ret_ok in H. destruct H as [-> ->].
  exists group, params, (length (heap w)),
    (mkWorld (heap w ++ [group]) (models w) (events w)), w2.
  split; [exact Hloc|]. split; [exact Hdict|].
  split; [simpl; apply nth_error_app_last | reflexivity].
Qed.

Lemma extension_rows_ok child_name indexed labels : forall rows w w',
  extension_rows model np_log child_name indexed labels w = (Ok rows, w') ->
  Forall2 (is_group_row model np_log child_name indexed) labels rows.
Proof.
  induction labels as [|v labels IH]; intros rows w w' H; simpl in H.
  - apply ret_ok in H. destruct H as [-> _]. constructor.
  - apply bind_ok in H. destruct H as [row [w1 [Hrow H]]].
    apply bind_ok in H. destruct H as [rest [w2 [Hrest H]]].
    apply ret_ok in H. destruct H as [-> _].
    constructor; [eapply extension_row_ok, Hrow | eapply IH, Hrest].
Qed.

(** What a row built for a group holds. *)
Lemma group_row_labels child_name indexed label row :
  is_group_row model np_log child_name indexed label row ->
  exists group params,
    loc indexed label = Ok group
    /\ map fst row
       = map (fun key => ("__" ++ child_name ++ "__" ++ key)%string)
             (dict_keys (dict_set "child_rows" (num_of_nat (nrows group))
                                  params))
    /\ (forall key, In key (dict_keys params) ->
          In ("__" ++ child_name ++ "__" ++ key)%string (map fst row))
    /\ lookup_label (child_rows_column child_name) row
       = Some (num_of_nat (nrows group)).
Proof.
  intros [group [params [data [w1 [w2 [Hloc [_ [_ ->]]]]]]]].
  exists group, params. split; [exact Hloc|].
  assert (Hnames :
            map fst (prefix_labels ("__" ++ child_name ++ "__")
                       (series_of_dict
                          (dict_set "child_rows" (num_of_nat (nrows group))
                                    params)))
            = map (fun key => ("__" ++ child_name ++ "__" ++ key)%string)
                  (dict_keys (dict_set "child_rows"
                                       (num_of_nat (nrows group)) params))).
  { rewrite prefix_labels_names, series_of_dict_names.
    apply map_ext. intros key. rewrite !string_app_assoc. reflexivity. }
  split; [exact Hnames|]. split.
  - intros key Hkey. rewrite Hnames.
    apply in_map_iff. exists key. split; [reflexivity|].
    apply dict_set_keys_in. right. exact Hkey.
  - rewrite child_rows_column_prefix, lookup_label_prefixed.
    rewrite dict_get_set_same. reflexivity.
Qed.

Lemma get_extension_ok child_name child_table foreign_key w r w' :
  _get_extension model np_log child_name child_table foreign_key w
  = (Ok r, w') ->
  exists table key key_column indexed rows,
    nth_error (heap w) child_table = Some table
    /\ foreign_key = Some key
    /\ getitem table key = Ok key_column
    /\ set_index table key = Ok indexed
    /\ Forall2 (is_group_row model np_log child_name indexed)
               (unique key_column) rows
    /\ nth_error (heap w') r
       = Some (frame_of_rows rows
                 (mkSeries (dtype_of key_column) (unique key_column))).
Proof.
  unfold _get_extension. intros H.
  apply bind_ok in H. destruct H as [table [w1 [Hread H]]].
  apply read_ok in Hread. destruct Hread as [Hread ->].
  apply bind_ok in H. destruct H as [key [w1 [Hkey H]]].
  apply lift_ok in Hkey. destruct Hkey as [Hkey ->].
  destruct foreign_key as [k|]; [|discriminate]. injection Hkey as ->.
  apply bind_ok in H. destruct H as [key_column [w1 [Hcol H]]].
  apply lift_ok in Hcol. destruct Hcol as [Hcol ->].
  apply bind_ok in H. destruct H as [indexed [w1 [Hidx H]]].
  apply lift_ok in Hidx. destruct Hidx as [Hidx ->].
  apply bind_ok in H. destruct H as [rows [w1 [Hrows H]]].
  apply alloc_ok in H. destruct H as [-> ->].
  exists table, key, key_column, indexed, rows.
  repeat (split; [first [assumption | reflexivity]|]).
  split; [eapply extension_rows_ok, Hrows|].
  simpl. apply nth_error_app_last.
Qed.


(** ** Objects are only created *)

Lemma extends_refl w : extends w w.
Proof. split; auto. Qed.

Lemma extends_trans w1 w2 w3 : extends w1 w2 -> extends w2 w3 -> extends w1 w3.
Proof.
  intros [H1 H1'] [H2 H2']. split; [lia|].
  intros n Hn. rewrite H2' by lia. apply H1', Hn.
Qed.

Lemma extends_same_heap w w' : heap w' = heap w -> extends w w'.
Proof. intros H. unfold extends. rewrite H. auto. Qed.

Lemma extends_alloc w df :
  extends w (mkWorld (heap w ++ [df]) (models w) (events w)).
Proof.
  split; simpl; [rewrite length_app; lia|].
  intros n Hn. apply nth_error_app1, Hn.
Qed.

Lemma extends_with_object w0 w r df :
  extends w0 w -> length (heap w0) <= r -> extends w0 (with_object w r df).
Proof.
  intros [H1 H2] Hr. split; simpl.
  - rewrite replace_nth_length. exact H1.
  - intros n Hn. rewrite replace_nth_other by lia. apply H2, Hn.
Qed.

Lemma extends_read w w' r df :
  extends w w' -> nth_error (heap w) r = Some df ->
  nth_error (heap w') r = Some df.
Proof.
  intros [_ H] Hr. rewrite H; [exact Hr | eapply nth_error_lt, Hr].
Qed.

Lemma fit_model_extends data w0 w fitted w' :
  extends w0 w -> length (heap w0) <= data ->
  _fit_model model data w = (Ok fitted, w') ->
  extends w0 w'.
Proof.
  intros Hext Hdata Hrun.
  destruct (nth_error (heap w) data) as [df|] eqn:Hdf.
  - destruct (fit_model_ok _ _ _ _ _ _ Hdf Hrun) as [filled [_ [_ ->]]].
    apply extends_with_object; assumption.
  - unfold _fit_model, _impute, bind, read in Hrun. rewrite Hdf in Hrun.
    discriminate.
Qed.

Lemma extension_row_extends child_name indexed label row w w' :
  extension_row model np_log child_name indexed label w = (Ok row, w') ->
  extends w w'.
Proof.
  unfold extension_row. intros H.
  apply bind_ok in H. destruct H as [group [w1 [Hloc H]]].
  apply lift_ok in Hloc. destruct Hloc as [_ ->].
  apply bind_ok in H. destruct H as [data [w1 [Hal H]]].
  apply alloc_ok in Hal. destruct Hal as [-> ->].
  apply bind_ok in H. destruct H as [params [w2 [Hdict H]]].
  apply ret_ok in H. destruct H as [_ ->].
  unfold _get_model_dict in Hdict.
  apply bind_ok in Hdict. destruct Hdict as [fitted [w3 [Hfit Hdict]]].
  apply ret_ok in Hdict. destruct Hdict as [_ ->].
  eapply (fit_model_extends _ w); [apply (extends_alloc w group) | | exact Hfit].
  apply Nat.le_refl.
Qed.

Lemma extension_rows_extends child_name indexed labels : forall rows w w',
  extension_rows model np_log child_name indexed labels w = (Ok rows, w') ->
  extends w w'.
Proof.
  induction labels as [|v labels IH]; intros rows w w' H; simpl in H.
  - apply ret_ok in H. destruct H as [_ ->]. apply extends_refl.
  - apply bind_ok in H. destruct H as [row [w1 [Hrow H]]].
    apply bind_ok in H. destruct H as [rest [w2 [Hrest H]]].
    apply ret_ok in H. destruct H as [_ ->].
    eapply extends_trans;
      [eapply extension_row_extends, Hrow | eapply IH, Hrest].
Qed.

Lemma get_extension_creates child_name child_table foreign_key :
  creates (_get_extension model np_log child_name child_table foreign_key).
Proof.
  intros w r w' H. unfold _get_extension in H.
  apply bind_ok in H. destruct H as [table [w1 [Hread H]]].
  apply read_ok in Hread. destruct Hread as [_ ->].
  apply bind_ok in H. destruct H as [key [w1 [Hkey H]]].
  apply lift_ok in Hkey. destruct Hkey as [_ ->].
  apply bind_ok in H. destruct H as [key_column [w1 [Hcol H]]].
  apply lift_ok in Hcol. destruct Hcol as [_ ->].
  apply bind_ok in H. destruct H as [indexed [w1 [Hidx H]]].
  apply lift_ok in Hidx. destruct Hidx as [_ ->].
  apply bind_ok in H. destruct H as [rows [w1 [Hrows H]]].
  apply alloc_ok in H. destruct H as [-> ->].
  pose proof (extension_rows_extends _ _ _ _ _ _ Hrows) as Hext.
  split; [eapply extends_trans; [exact Hext | apply extends_alloc]|].
  destruct Hext as [Hlen _]. simpl. rewrite length_app. simpl. lia.
Qed.

(** ** One child *)

Lemma nth_error_defined {A : Type} (l : list A) n :
  n < length l -> exists x, nth_error l n = Some x.
Proof.
  intros H. destruct (nth_error l n) as [x|] eqn:E; [exists x; reflexivity|].
  apply nth_error_None in E. lia.
Qed.

Lemma fill_child_rows_ok extended name w u w' df :
  nth_error (heap w) extended = Some df ->
  fill_child_rows extended name w = (Ok u, w') ->
  exists counts,
    getitem df name = Ok counts
    /\ w' = with_object w extended
              (setitem df name (fillna_inplace counts (Some (num 0)))).
Proof.
  intros Hdf H. unfold fill_child_rows in H.
  apply bind_ok in H. destruct H as [df' [w1 [Hr H]]].
  apply read_ok in Hr. destruct Hr as [Hr ->].
  rewrite Hdf in Hr. injection Hr as <-.
  apply bind_ok in H. destruct H as [counts [w1 [Hc H]]].
  apply lift_ok in Hc. destruct Hc as [Hc ->].
  apply write_ok in H. exists counts. auto.
Qed.

(** One iteration of the loop over the children: the child is resolved
    by the recursive call, its extension is built from the table the
    call returns, and the object bound to [extended] afterwards is a new
    one that holds the merged frame with its counts filled. *)
Lemma extend_with_child_ok recur table_name child_name extended w e' w' L :
  (forall c k, creates (recur c k)) ->
  nth_error (heap w) extended = Some L ->
  extend_with_child metadata model np_log recur table_name child_name
                    extended w = (Ok e', w') ->
  exists child_table wb table key key_column indexed rows G,
    recur child_name (get_foreign_key metadata table_name child_name) w
    = (Ok child_table, wb)
    /\ nth_error (heap wb) child_table = Some table
    /\ get_foreign_key metadata table_name child_name = Some key
    /\ getitem table key = Ok key_column
    /\ set_index table key = Ok indexed
    /\ Forall2 (is_group_row model np_log child_name indexed)
               (unique key_column) rows
    /\ extended_by L
         (frame_of_rows rows
            (mkSeries (dtype_of key_column) (unique key_column)))
         (child_rows_column child_name) = Ok G
    /\ nth_error (heap w') e' = Some G
    /\ extends w w'
    /\ length (heap w) <= e'
    /\ e' < length (heap w').
Proof.
  intros Hrec HL H. unfold extend_with_child in H.
  apply bind_ok in H. destruct H as [child_table [wb [Hchild H]]].
  destruct (Hrec _ _ _ _ _ Hchild) as [Hext1 _].
  apply bind_ok in H. destruct H as [extension [w2 [Hget H]]].
  destruct (get_extension_creates _ _ _ _ _ _ Hget) as [Hext2 [_ Hlt2]].
  destruct (get_extension_ok _ _ _ _ _ _ Hget)
    as [table [key [key_column [indexed [rows
         [Htable [Hkey [Hcol [Hidx [Hrows Hextension]]]]]]]]]].
  apply bind_ok in H. destruct H as [left [w3 [Hl H]]].
  apply read_ok in Hl. destruct Hl as [Hl ->].
  assert (Hext : extends w w2) by (eapply extends_trans; eassumption).
  rewrite (extends_read _ _ _ _ Hext HL) in Hl. injection Hl as <-.
  apply bind_ok in H. destruct H as [right [w3 [Hr H]]].
  apply read_ok in Hr. destruct Hr as [Hr ->].
  rewrite Hextension in Hr. injection Hr as <-.
  apply bind_ok in H. destruct H as [merged [w3 [Hal H]]].
  apply alloc_ok in Hal. destruct Hal as [-> ->].
  apply bind_ok in H. destruct H as [u [w3 [Hfill H]]].
  apply ret_ok in H. destruct H as [-> ->].
  eapply fill_child_rows_ok in Hfill; [|simpl; apply nth_error_app_last].
  destruct Hfill as [counts [Hcounts ->]].
  exists child_table, wb, table, key, key_column, indexed, rows.
  eexists.
  split; [exact Hchild|]. split; [exact Htable|]. split; [exact Hkey|].
  split; [exact Hcol|]. split; [exact Hidx|]. split; [exact Hrows|].
  split; [unfold extended_by; rewrite Hcounts; reflexivity|].
  split; [simpl; rewrite replace_nth_app_last; apply nth_error_app_last|].
  split.
  { apply extends_with_object; [|destruct Hext; exact H].
    eapply extends_trans; [exact Hext | apply extends_alloc]. }
  destruct Hext as [Hlen _]. simpl.
  rewrite replace_nth_length, length_app. simpl. lia.
Qed.

Lemma extend_with_children_creates recur table_name :
  (forall c k, creates (recur c k)) ->
  forall children extended w e' w',
    extended < length (heap w) ->
    extend_with_children metadata model np_log recur table_name children
                         extended w = (Ok e', w') ->
    extends w w'
    /\ (e' = extended \/ length (heap w) <= e')
    /\ e' < length (heap w').
Proof.
  intros Hrec. induction children as [|c children IH];
    intros extended w e' w' He H; simpl in H.
  - apply ret_ok in H. destruct H as [-> ->].
    split; [apply extends_refl|]. split; [left; reflexivity | exact He].
  - apply bind_ok in H. destruct H as [e1 [w1 [Hstep H]]].
    destruct (nth_error_defined _ _ He) as [L HL].
    destruct (extend_with_child_ok _ _ _ _ _ _ _ _ Hrec HL Hstep)
      as [? [? [? [? [? [? [? [G [_ [_ [_ [_ [_ [_ [_ [_ [Hext [Hge Hlt]]]]]]]]]]]]]]]]]].
    destruct (IH _ _ _ _ Hlt H) as [Hext' [Hor Hlt']].
    split; [eapply extends_trans; eassumption|].
    split; [|exact Hlt'].
    right. destruct Hext as [Hlen _]. destruct Hor as [->|Hge']; lia.
Qed.

(** ** The steps of [cpa] around the loop *)

Lemma index_by_primary_key_ok table extended key w u w' :
  index_by_primary_key table extended key w = (Ok u, w') ->
  exists raw keys df df',
    nth_error (heap w) table = Some raw
    /\ getitem raw key = Ok keys
    /\ nth_error (heap w) extended = Some df
    /\ assign_index df key keys = Ok df'
    /\ w' = with_object w extended df'.
Proof.
  unfold index_by_primary_key. intros H.
  apply bind_ok in H. destruct H as [raw [w1 [Hr H]]].
  apply read_ok in Hr. destruct Hr as [Hr ->].
  apply bind_ok in H. destruct H as [keys [w1 [Hk H]]].
  apply lift_ok in Hk. destruct Hk as [Hk ->].
  apply bind_ok in H. destruct H as [df [w1 [Hd H]]].
  apply read_ok in Hd. destruct Hd as [Hd ->].
  apply bind_ok in H. destruct H as [df' [w1 [Ha H]]].
  apply lift_ok in Ha. destruct Ha as [Ha ->].
  apply write_ok in H. exists raw, keys, df, df'. auto.
Qed.

Lemma restore_primary_key_ok extended w u w' :
  restore_primary_key extended w = (Ok u, w') ->
  exists df df',
    nth_error (heap w) extended = Some df
    /\ reset_index df = Ok df'
    /\ w' = with_object w extended df'.
Proof.
  unfold restore_primary_key. intros H.
  apply bind_ok in H. destruct H as [df [w1 [Hd H]]].
  apply read_ok in Hd. destruct Hd as [Hd ->].
  apply bind_ok in H. destruct H as [df' [w1 [Ha H]]].
  apply lift_ok in Ha. destruct Ha as [Ha ->].
  apply write_ok in H. exists df, df'. auto.
Qed.

Lemma attach_foreign_key_inv table extended key w u w' :
  attach_foreign_key table extended key w = (Ok u, w') ->
  exists raw keys df final,
    nth_error (heap w) table = Some raw
    /\ getitem raw key = Ok keys
    /\ nth_error (heap w) extended = Some df
    /\ setitem_aligned df key (values (index raw)) keys = Ok final
    /\ w' = with_object w extended final.
Proof.
  unfold attach_foreign_key. intros H.
  apply bind_ok in H. destruct H as [raw [w1 [Hr H]]].
  apply read_ok in Hr. destruct Hr as [Hr ->].
  apply bind_ok in H. destruct H as [keys [w1 [Hk H]]].
  apply lift_ok in Hk. destruct Hk as [Hk ->].
  apply bind_ok in H. destruct H as [df [w1 [Hd H]]].
  apply read_ok in Hd. destruct Hd as [Hd ->].
  apply bind_ok in H. destruct H as [final [w1 [Ha H]]].
  apply lift_ok in Ha. destruct Ha as [Ha ->].
  apply write_ok in H. exists raw, keys, df, final. auto.
Qed.

Lemma resolve_table_extends table_name tables w table w1 :
  resolve_table metadata table_name tables w = (Ok table, w1) ->
  extends w w1.
Proof.
  intros H. destruct (resolve_table_ok _ _ _ _ _ H)
    as [_ [[t [ts [_ [_ ->]]]]|[_ [df [_ [_ ->]]]]]].
  - apply extends_refl.
  - split; simpl; [rewrite length_app; lia|].
    intros n Hn. apply nth_error_app1, Hn.
Qed.

(** [cpa] changes no object that exists when it is called, and the
    object it returns is a new one. *)
Lemma cpa_body_creates recur table_name tables foreign_key :
  (forall c k, creates (recur c k)) ->
  creates (cpa_body metadata model np_log recur table_name tables
                    foreign_key).
Proof.
  intros Hrec w r w' Hrun. unfold cpa_body in Hrun.
  apply bind_ok in Hrun. destruct Hrun as [u [w0 [Hemit Hrun]]].
  apply emit_ok in Hemit.
  assert (H0 : extends w w0) by (apply extends_same_heap; subst w0; reflexivity).
  apply bind_ok in Hrun. destruct Hrun as [table [w1 [Hres Hrun]]].
  assert (H1 : extends w w1).
  { eapply extends_trans; [exact H0 | eapply resolve_table_extends, Hres]. }
  apply bind_ok in Hrun. destruct Hrun as [raw [w2 [Hread Hrun]]].
  apply read_ok in Hread. destruct Hread as [Hraw ->].
  apply bind_ok in Hrun. destruct Hrun as [transformed [w2 [Htr Hrun]]].
  apply lift_ok in Htr. destruct Htr as [Htr ->].
  apply bind_ok in Hrun. destruct Hrun as [extended [w2 [Hal Hrun]]].
  apply alloc_ok in Hal. destruct Hal as [-> ->].
  apply bind_ok in Hrun. destruct Hrun as [e1 [w3 [Hloop Hrun]]].
  assert (H3 : extends w w3 /\ length (heap w) <= e1 /\ e1 < length (heap w3)).
  { destruct (truthy (get_primary_key metadata table_name)) as [key|].
    - apply bind_ok in Hloop. destruct Hloop as [u0 [w4 [Hidx Hloop]]].
      destruct (index_by_primary_key_ok _ _ _ _ _ _ Hidx)
        as [? [? [? [df' [_ [_ [_ [_ ->]]]]]]]].
      apply extend_with_children_creates in Hloop;
        [|exact Hrec | simpl; rewrite replace_nth_length, length_app; simpl; lia].
      destruct Hloop as [Hext [Hor Hlt]].
      destruct H1 as [Hlen1 Hold1].
      split.
      { eapply extends_trans; [|exact Hext].
        apply extends_with_object; [|exact Hlen1].
        eapply extends_trans; [split; [exact Hlen1 | exact Hold1]|].
        apply extends_alloc. }
      split; [|exact Hlt].
      simpl in Hor. rewrite replace_nth_length, length_app in Hor.
      destruct Hor as [->|Hge]; lia.
    - apply ret_ok in Hloop. destruct Hloop as [-> ->].
      split; [eapply extends_trans; [exact H1 | apply extends_alloc]|].
      destruct H1 as [Hlen1 _]. simpl. rewrite length_app. simpl. lia. }
  destruct H3 as [H3 [Hge Hlt]].
  apply bind_ok in Hrun. destruct Hrun as [fitted [w4 [Hfit Hrun]]].
  pose proof (fit_model_extends _ _ _ _ _ H3 Hge Hfit) as H4.
  assert (Hlen4 : length (heap w4) = length (heap w3)).
  { destruct (nth_error_defined _ _ Hlt) as [df Hdf].
    destruct (fit_model_ok _ _ _ _ _ _ Hdf Hfit) as [? [_ [_ ->]]].
    simpl. apply replace_nth_length. }
  apply bind_ok in Hrun. destruct Hrun as [u1 [w5 [Hst Hrun]]].
  apply store_model_ok in Hst.
  assert (H5 : extends w w5 /\ length (heap w5) = length (heap w3)).
  { subst w5. split; [|exact Hlen4].
    eapply extends_trans; [exact H4 | apply extends_same_heap; reflexivity]. }
  clear Hst. destruct H5 as [H5 Hlen5].
  apply bind_ok in Hrun. destruct Hrun as [u2 [w6 [Hrs Hrun]]].
  assert (H6 : extends w w6 /\ length (heap w6) = length (heap w3)).
  { destruct (truthy (get_primary_key metadata table_name)).
    - destruct (restore_primary_key_ok _ _ _ _ Hrs) as [? [? [_ [_ ->]]]].
      split; [apply extends_with_object; assumption|].
      simpl. rewrite replace_nth_length. exact Hlen5.
    - apply ret_ok in Hrs. destruct Hrs as [_ ->]. auto. }
  destruct H6 as [H6 Hlen6].
  apply bind_ok in Hrun. destruct Hrun as [u3 [w7 [Hat Hrun]]].
  apply ret_ok in Hrun. destruct Hrun as [-> ->].
  destruct (truthy foreign_key).
  - destruct (attach_foreign_key_inv _ _ _ _ _ _ Hat) as [? [? [? [? [_ [_ [_ [_ ->]]]]]]]].
    split; [apply extends_with_object; assumption|].
    split; [exact Hge|]. simpl. rewrite replace_nth_length. lia.
  - apply ret_ok in Hat. destruct Hat as [_ ->].
    split; [exact H6|]. split; [exact Hge | lia].
Qed.

Lemma cpa_creates fuel : forall table_name tables foreign_key,
  creates (cpa metadata model np_log fuel table_name tables foreign_key).
Proof.
  induction fuel as [|fuel IH]; intros table_name tables foreign_key.
  - intros w r w' H. discriminate.
  - simpl. apply cpa_body_creates. intros c k. apply IH.
Qed.

(** ** The merge *)

Lemma In_enumerate_from {A : Type} (l : list A) : forall start i x,
  In (i, x) (enumerate_from start l) ->
  start <= i /\ nth_error l (i - start) = Some x.
Proof.
  induction l as [|y l IH]; intros start i x H; simpl in H; [destruct H|].
  destruct H as [H|H].
  - injection H as <- <-. rewrite Nat.sub_diag. auto.
  - apply IH in H. destruct H as [Hle Hn].
    split; [lia|]. replace (i - start) with (S (i - S start)) by lia.
    exact Hn.
Qed.

Lemma positions_of_In label labels j :
  In j (positions_of label labels) -> j < length labels.
Proof.
  unfold positions_of. intros H. apply in_map_iff in H.
  destruct H as [[i x] [Hj H]]. simpl in Hj. subst i.
  apply filter_In in H. destruct H as [H _].
  apply In_enumerate_from in H. destruct H as [_ H].
  rewrite Nat.sub_0_r in H. eapply nth_error_lt, H.
Qed.

(** A pair of the join: a row of the left frame with a row of the same
    label, or alone when no row of the right frame has its label. *)
Lemma left_join_pair left right p :
  In p (left_join left right) ->
  exists label,
    nth_error left (fst p) = Some label
    /\ match snd p with
       | None => positions_of label right = []
       | Some j => In j (positions_of label right)
       end.
Proof.
  unfold left_join. intros H. apply in_flat_map in H.
  destruct H as [[i label] [Hin H]].
  apply In_enumerate_from in Hin. destruct Hin as [_ Hin].
  rewrite Nat.sub_0_r in Hin. simpl in H.
  destruct (positions_of label right) as [|j js] eqn:Hp.
  - destruct H as [<-|[]]. exists label. simpl. auto.
  - change (In p (map (fun j0 => (i, Some j0)) (j :: js))) in H.
    apply in_map_iff in H. destruct H as [j' [<- Hj']].
    exists label. simpl. split; [exact Hin|]. rewrite Hp. exact Hj'.
Qed.

Lemma insert_pair_In labels p q l :
  In q (insert_pair labels p l) <-> q = p \/ In q l.
Proof.
  induction l as [|x l IH]; simpl.
  - intuition.
  - destruct (label_leb (nth (fst p) labels None) (nth (fst x) labels None));
      simpl; [intuition|].
    rewrite IH. intuition.
Qed.

Lemma sort_pairs_In labels q l : In q (sort_pairs labels l) <-> In q l.
Proof.
  unfold sort_pairs. induction l as [|x l IH]; simpl; [tauto|].
  rewrite insert_pair_In, IH. intuition.
Qed.

(** The pairs of the merged frame are those of the left join, in one
    order or another. *)
Lemma join_rows_pair left right p :
  In p (join_rows left right) ->
  exists label,
    nth_error left (fst p) = Some label
    /\ match snd p with
       | None => positions_of label right = []
       | Some j => In j (positions_of label right)
       end.
Proof.
  unfold join_rows. intros H. apply left_join_pair.
  destruct (join_sorts left right); [apply sort_pairs_In in H|]; exact H.
Qed.

Lemma lookup_column_app name a b :
  lookup_column name (a ++ b)
  = match lookup_column name a with
    | Some s => Some s
    | None => lookup_column name b
    end.
Proof.
  induction a as [|[k s] a IH]; simpl; [reflexivity|].
  destruct (String.eqb k name); [reflexivity | exact IH].
Qed.

(** Looking a column up after the columns have been renamed. *)
Lemma lookup_column_renamed (rename : string -> string)
    (f : Series -> Series) name cols :
  (forall n, rename n = name -> n = name) ->
  (lookup_column name cols <> None -> rename name = name) ->
  lookup_column name (map (fun ks => (rename (fst ks), f (snd ks))) cols)
  = option_map f (lookup_column name cols).
Proof.
  intros Hinj. induction cols as [|[k s] cols IH]; simpl; intros Hfix.
  - reflexivity.
  - destruct (String.eqb_spec k name) as [->|Hne].
    + rewrite Hfix by congruence. rewrite String.eqb_refl. reflexivity.
    + destruct (String.eqb_spec (rename k) name) as [Heq|_].
      * apply Hinj in Heq. contradiction.
      * apply IH, Hfix.
Qed.

Lemma key_in_false name names :
  key_in name names = false <-> ~ In name names.
Proof.
  unfold key_in. split.
  - intros H Hin. assert (existsb (String.eqb name) names = true).
    { apply existsb_exists. exists name. split; [exact Hin|].
      apply String.eqb_refl. }
    congruence.
  - intros H. destruct (existsb (String.eqb name) names) eqn:E; [|reflexivity].
    apply existsb_exists in E. destruct E as [y [Hy E]].
    apply String.eqb_eq in E. subst y. contradiction.
Qed.

Lemma suffixed_eq suffix others n name :
  (forall a, name <> (a ++ suffix)%string) ->
  suffixed suffix others n = name ->
  n = name /\ key_in name others = false.
Proof.
  unfold suffixed. intros Hno.
  destruct (key_in n others) eqn:E; intros H.
  - exfalso. apply (Hno n). symmetry. exact H.
  - subst n. auto.
Qed.

Lemma lookup_none_key_in name (df : DataFrame) :
  lookup_column name (columns df) = None ->
  key_in name (column_names df) = false.
Proof.
  intros H. apply key_in_false. intros Hin.
  apply lookup_column_In in Hin. contradiction.
Qed.

(** A column that the left frame does not have is looked up in the right
    frame. *)
Lemma merge_lookup_right left right name :
  (forall a, name <> (a ++ "_x")%string) ->
  (forall a, name <> (a ++ "_y")%string) ->
  lookup_column name (columns left) = None ->
  lookup_column name (columns (merge left right))
  = option_map
      (take (map snd (join_rows (values (index left))
                                (values (index right)))))
      (lookup_column name (columns right)).
Proof.
  intros Hx Hy Hnone. unfold merge. simpl.
  rewrite lookup_column_app, lookup_column_renamed.
  - rewrite Hnone. simpl. apply lookup_column_renamed.
    + intros n Hn. apply (suffixed_eq _ _ _ _ Hy Hn).
    + intros _. unfold suffixed.
      rewrite (lookup_none_key_in _ _ Hnone). reflexivity.
  - intros n Hn. apply (suffixed_eq _ _ _ _ Hx Hn).
  - intros H. congruence.
Qed.

Lemma merge_index_values left right :
  values (index (merge left right))
  = map (fun p => nth (fst p) (values (index left)) None)
        (join_rows (values (index left)) (values (index right))).
Proof. unfold merge, take. simpl. rewrite map_map. reflexivity. Qed.

Lemma take_left_values pairs s :
  values (take (map (fun p : nat * option nat => Some (fst p)) pairs) s)
  = map (fun p => nth (fst p) (values s) None) pairs.
Proof. unfold take. simpl. rewrite map_map. reflexivity. Qed.

Lemma take_right_values (pairs : list (nat * option nat)) s :
  values (take (map snd pairs) s)
  = map (fun p => match snd p with
                  | Some j => nth j (values s) None
                  | None => None
                  end) pairs.
Proof. unfold take. simpl. rewrite map_map. reflexivity. Qed.

(** ** Names of count columns *)

Lemma app_last_neq (x y : ascii) :
  x <> y ->
  forall a b, (a ++ String x "")%string <> (b ++ String y "")%string.
Proof.
  intros Hxy. induction a as [|c a IH]; intros [|d b]; simpl; intros H.
  - injection H as H. contradiction.
  - injection H as _ H. destruct b; discriminate.
  - injection H as _ H. destruct a; discriminate.
  - injection H as _ H. apply (IH _ H).
Qed.

Lemma child_rows_column_last child_name :
  child_rows_column child_name
  = (("__" ++ child_name ++ "__child_row") ++ "s")%string.
Proof.
  unfold child_rows_column. rewrite !string_app_assoc. reflexivity.
Qed.

Lemma child_rows_column_no_x child_name a :
  child_rows_column child_name <> (a ++ "_x")%string.
Proof.
  rewrite child_rows_column_last.
  replace (a ++ "_x")%string with ((a ++ "_") ++ "x")%string
    by (rewrite string_app_assoc; reflexivity).
  intros H. symmetry in H. revert H. apply app_last_neq. discriminate.
Qed.

Lemma child_rows_column_no_y child_name a :
  child_rows_column child_name <> (a ++ "_y")%string.
Proof.
  rewrite child_rows_column_last.
  replace (a ++ "_y")%string with ((a ++ "_") ++ "y")%string
    by (rewrite string_app_assoc; reflexivity).
  intros H. symmetry in H. revert H. apply app_last_neq. discriminate.
Qed.

(** ** The extension of one child, merged *)

Lemma Forall2_In_right {A B : Type} (R : A -> B -> Prop) l1 l2 y :
  Forall2 R l1 l2 -> In y l2 -> exists x, In x l1 /\ R x y.
Proof.
  induction 1 as [|x0 y0 l1 l2 HR _ IH]; intros Hin; [destruct Hin|].
  destruct Hin as [->|Hin].
  - exists x0. split; [left; reflexivity | exact HR].
  - destruct (IH Hin) as [x [Hx HRx]]. exists x. split; [right|]; assumption.
Qed.

Lemma Forall2_nth_right {A B : Type} (R : A -> B -> Prop) l1 l2 d :
  Forall2 R l1 l2 ->
  forall j, j < length l2 -> exists x, R x (nth j l2 d).
Proof.
  induction 1 as [|x0 y0 l1 l2 HR _ IH]; intros j Hj; simpl in Hj; [lia|].
  destruct j as [|j]; simpl; [exists x0; exact HR|].
  apply IH. lia.
Qed.

(** The columns of the extension of a child carry the prefix of the
    child. *)
Lemma extension_names child_name indexed labels rows index_labels name :
  Forall2 (is_group_row model np_log child_name indexed) labels rows ->
  In name (column_names (frame_of_rows rows index_labels)) ->
  exists suffix, name = ("__" ++ child_name ++ "__" ++ suffix)%string.
Proof.
  intros Hrows Hin. rewrite frame_of_rows_names in Hin.
  apply (proj1 (distinct_In _ _)) in Hin. apply in_flat_map in Hin.
  destruct Hin as [row [Hrow Hname]].
  destruct (Forall2_In_right _ _ _ _ Hrows Hrow) as [label [_ Hgroup]].
  destruct (group_row_labels _ _ _ _ Hgroup) as [group [params [_ [Hnames _]]]].
  rewrite Hnames in Hname. apply in_map_iff in Hname.
  destruct Hname as [key [<- _]]. exists key. reflexivity.
Qed.

(** The count column of the extension of a child has no missing
    value. *)
Lemma extension_counts child_name indexed labels rows index_labels counts :
  Forall2 (is_group_row model np_log child_name indexed) labels rows ->
  lookup_column (child_rows_column child_name)
                (columns (frame_of_rows rows index_labels)) = Some counts ->
  forall j, j < length rows ->
    exists n, nth j (values counts) None = Some (num_of_nat n).
Proof.
  intros Hrows Hcounts j Hj.
  rewrite frame_of_rows_lookup in Hcounts.
  - injection Hcounts as <-. simpl.
    change (@None value) with (lookup_label (child_rows_column child_name) []).
    rewrite map_nth.
    destruct (Forall2_nth_right _ _ _ [] Hrows j Hj) as [label Hgroup].
    destruct (group_row_labels _ _ _ _ Hgroup) as [group [params [_ [_ [_ Hc]]]]].
    exists (nrows group). exact Hc.
  - assert (Hin : In (child_rows_column child_name)
                     (column_names (frame_of_rows rows index_labels))).
    { apply lookup_column_In. congruence. }
    rewrite frame_of_rows_names in Hin. apply (proj1 (distinct_In _ _)) in Hin. exact Hin.
Qed.

(** After the merge with the extension of a child and the filling of its
    counts, the count column of the child is there, none of its values
    is missing, and a row without child rows counts zero. *)
Lemma extended_by_counts child_name indexed foreign_keys rows dt left G :
  Forall2 (is_group_row model np_log child_name indexed) foreign_keys rows ->
  lookup_column (child_rows_column child_name) (columns left) = None ->
  extended_by left (frame_of_rows rows (mkSeries dt foreign_keys))
              (child_rows_column child_name) = Ok G ->
  counts_ok (child_rows_column child_name) foreign_keys
            (values (index G)) G.
Proof.
  intros Hrows Hnone HG. unfold extended_by, getitem in HG.
  set (right := frame_of_rows rows (mkSeries dt foreign_keys)) in *.
  set (name := child_rows_column child_name) in *.
  rewrite (merge_lookup_right left right name) in HG;
    [|apply child_rows_column_no_x | apply child_rows_column_no_y | exact Hnone].
  destruct (lookup_column name (columns right)) as [counts|] eqn:Hcounts;
    [|discriminate].
  unfold option_map in HG. injection HG as <-.
  set (pairs := join_rows (values (index left)) (values (index right))) in *.
  exists (fillna_inplace (take (map snd pairs) counts) (Some (num 0))).
  split.
  { unfold setitem. simpl. rewrite lookup_set_column, String.eqb_refl.
    reflexivity. }
  assert (Hidx : forall s,
             values (index (setitem (merge left right) name s))
             = map (fun p => nth (fst p) (values (index left)) None) pairs).
  { intros s. unfold setitem. simpl. unfold take. simpl.
    rewrite map_map. reflexivity. }
  rewrite Hidx.
  rewrite fillna_inplace_values, fillna_length, take_right_values, !length_map.
  split; [reflexivity|].
  intros i Hi.
  destruct (nth_error_defined _ _ Hi) as [p Hp].
  assert (Hin : In p pairs) by (eapply nth_error_In, Hp).
  destruct (join_rows_pair _ _ _ Hin) as [label [Hlabel Hmatch]].
  unfold fillna. simpl. rewrite !map_map.
  rewrite (map_nth_error _ _ _ Hp).
  rewrite (nth_indep _ None (nth (fst p) (values (index left)) None))
    by (rewrite length_map; exact Hi).
  rewrite (map_nth (fun p => nth (fst p) (values (index left)) None)).
  rewrite (nth_error_nth _ _ _ Hp).
  rewrite (nth_error_nth _ _ _ Hlabel).
  destruct (snd p) as [j|].
  - assert (Hj : j < length rows).
    { apply positions_of_In in Hmatch. subst right. simpl in Hmatch.
      rewrite <- (Forall2_length Hrows). exact Hmatch. }
    destruct (extension_counts _ _ _ _ _ _ Hrows Hcounts j Hj) as [n Hn].
    rewrite Hn. exists (num_of_nat n). split; [reflexivity|].
    intros Hempty. subst right. simpl in Hmatch.
    rewrite Hempty in Hmatch. destruct Hmatch.
  - exists (num 0). split; reflexivity.
Qed.

(** ** After the loop *)

Lemma imputed_counts name foreign_keys labels before after :
  imputed before after ->
  counts_ok name foreign_keys labels before ->
  counts_ok name foreign_keys labels after.
Proof.
  intros [_ [_ [_ Hcols]]] [counts [Hcounts [Hlen Hrowsok]]].
  destruct (Hcols name counts Hcounts) as [fv [_ Hl]].
  exists (fillna counts fv). split; [exact Hl|].
  split; [rewrite fillna_length; exact Hlen|].
  intros i Hi. destruct (Hrowsok i Hi) as [v [Hv Hzero]].
  exists v. split; [apply fillna_keeps, Hv | exact Hzero].
Qed.

(** A column of a filled frame has no missing value, unless it is a
    numeric column without a single number. *)
Lemma imputed_filled before after name s :
  imputed before after ->
  lookup_column name (columns after) = Some s ->
  all_present s = true
  \/ (is_int_or_float (dtype_of s) = true /\ present_nums s = []).
Proof.
  intros [_ [_ [Hnames Hcols]]] Hs.
  assert (Hb : lookup_column name (columns before) <> None).
  { apply lookup_column_In. unfold column_names in Hnames.
    rewrite <- Hnames. apply lookup_column_In. congruence. }
  destruct (lookup_column name (columns before)) as [s0|] eqn:Hs0;
    [|congruence].
  destruct (Hcols name s0 Hs0) as [fv [Hfv Hl]].
  rewrite Hs in Hl. injection Hl as ->.
  destruct fv as [v|].
  - left. apply fillna_all_present.
  - right. rewrite (fillna_missing _ (fill_value_numeric _ Hfv)).
    apply fill_value_missing, Hfv.
Qed.

Lemma reset_index_ok df df' key :
  index_name df = Some key ->
  reset_index df = Ok df' ->
  lookup_column key (columns df') = Some (index df)
  /\ nrows df' = nrows df
  /\ forall name,
       lookup_column name (columns df) <> None ->
       lookup_column name (columns df')
       = lookup_column name (columns df).
Proof.
  unfold reset_index. intros Hname. rewrite Hname.
  destruct (key_in key (column_names df)) eqn:Hin; [discriminate|].
  intros H. injection H as <-. simpl. rewrite String.eqb_refl.
  split; [reflexivity|].
  split; [unfold nrows, range_index; simpl; rewrite length_map, length_seq;
          reflexivity|].
  intros name Hsome. destruct (String.eqb_spec key name) as [->|_];
    [|reflexivity].
  exfalso. apply key_in_false in Hin. apply Hin.
  apply lookup_column_In. exact Hsome.
Qed.

Lemma assign_index_ok df key keys df' :
  assign_index df key keys = Ok df' ->
  df' = mkDataFrame (Some key) keys (columns df).
Proof.
  unfold assign_index.
  destruct (Nat.eqb (length (values keys)) (nrows df)); [|discriminate].
  intros H. injection H as <-. reflexivity.
Qed.

Lemma counts_ok_lookup name foreign_keys labels df df' :
  lookup_column name (columns df') = lookup_column name (columns df) ->
  counts_ok name foreign_keys labels df ->
  counts_ok name foreign_keys labels df'.
Proof.
  intros Heq [counts [Hcounts H]]. exists counts.
  split; [rewrite Heq; exact Hcounts | exact H].
Qed.

End TraversalProperties.

Lemma cpa_without_primary_key_witness :
  truthy (get_primary_key Scenario.keyless "notes") = None
  /\ get_children Scenario.keyless "notes" = ["orders"]
  /\ cpa Scenario.keyless Scenario.model_class Scenario.log_one 3
         "notes" None None Scenario.empty_world
     = cpa Scenario.keyless Scenario.model_class Scenario.log_one 1
         "notes" None None Scenario.empty_world
  /\ fst (cpa Scenario.keyless Scenario.model_class Scenario.log_one 1
             "notes" None None Scenario.empty_world) = Ok 1
  /\ events (snd (cpa Scenario.keyless Scenario.model_class
                     Scenario.log_one 1 "notes" None None
                     Scenario.empty_world))
     = [Info "Modeling notes"; LoadTable "notes"].
Proof.
  split; [reflexivity|]. split; [reflexivity|].
  destruct (cpa_without_primary_key Scenario.keyless Scenario.model_class
              Scenario.log_one "notes" None None 2 Scenario.empty_world
              eq_refl) as [Hdepth _].
  split; [exact Hdepth|].
  split; vm_compute; reflexivity.
Defined.


(** ** The end-to-end scenario *)

(** C1 (as claimed): in the frame returned for [users], the user without
    orders keeps missing values in the extension columns other than the
    count.  It does not: the frame has three rows and the counts are
    2, 0 and 1, but every other extension column of that user holds the
    mean of the column, put there by the imputation that precedes the
    fit of the model of [users]. *)
Lemma zero_order_user_columns_filled :
  exists returned,
    Scenario.frame_of Scenario.run_users = Some returned
    /\ nrows returned = 3
    /\ lookup_column "id" (columns returned)
       = Some (Scenario.int_column [1; 2; 3]%Z)
    /\ lookup_column "__orders__child_rows" (columns returned)
       = Some (Scenario.float_column [Some 2; Some 0; Some 1]%Q)
    /\ lookup_column "__orders__distribs__amount__mean" (columns returned)
       = Some (Scenario.float_column [Some 6; Some (15 # 2); Some 9]%Q)
    /\ lookup_column "__orders__covariance__0__0" (columns returned)
       = Some (Scenario.float_column [Some 1; Some 1; Some 1]%Q)
    /\ forallb (fun ks => negb (isna (nth 1 (values (snd ks)) None)))
               (columns returned) = true.
Proof.
  eexists. split; [vm_compute; reflexivity|].
  repeat split; vm_compute; reflexivity.
Qed.

(** * Further properties *)

(** ** Arrays are flattened without loss *)

Lemma to_uint_nonnil n : Nat.to_uint n <> Decimal.Nil.
Proof.
  intros H.
  assert (Hn : n = 0).
  { rewrite <- (Unsigned.of_to n), H. reflexivity. }
  subst n. discriminate.
Qed.

Lemma str_of_nat_inj n m : str_of_nat n = str_of_nat m -> n = m.
Proof.
  unfold str_of_nat. intros H.
  apply Unsigned.to_uint_inj.
  pose proof (NilZero.usu _ (to_uint_nonnil n)) as Hn.
  pose proof (NilZero.usu _ (to_uint_nonnil m)) as Hm.
  rewrite H in Hn. congruence.
Qed.

Lemma digits_no_underscore d :
  no_underscore (NilEmpty.string_of_uint d) = true.
Proof. induction d; simpl; auto. Qed.

Lemma str_of_nat_no_underscore n : no_underscore (str_of_nat n) = true.
Proof.
  unfold str_of_nat, NilZero.string_of_uint.
  destruct (Nat.to_uint n); try reflexivity; apply digits_no_underscore.
Qed.

Lemma str_of_nat_nonempty n : str_of_nat n <> "".
Proof.
  unfold str_of_nat, NilZero.string_of_uint.
  destruct (Nat.to_uint n); simpl; discriminate.
Qed.

Lemma string_app_cancel (p a b : string) :
  (p ++ a)%string = (p ++ b)%string -> a = b.
Proof.
  induction p as [|c p IH]; simpl; intros H; [exact H|].
  injection H as H. apply IH, H.
Qed.

(** Two strings of digits followed by nothing or by an underscore and
    more are equal only when the digits are. *)
Lemma digits_split (a b t1 t2 : string) :
  no_underscore a = true -> no_underscore b = true ->
  (t1 = "" \/ exists r, t1 = String "_" r) ->
  (t2 = "" \/ exists r, t2 = String "_" r) ->
  (a ++ t1)%string = (b ++ t2)%string -> a = b.
Proof.
  revert b. induction a as [|c a IH]; intros [|d b] Ha Hb H1 H2 H; simpl in *.
  - reflexivity.
  - exfalso. apply andb_true_iff in Hb. destruct Hb as [Hd _].
    destruct H1 as [->|[r ->]]; [discriminate|].
    injection H as <- _. discriminate.
  - exfalso. apply andb_true_iff in Ha. destruct Ha as [Hc _].
    destruct H2 as [->|[r ->]]; [discriminate|].
    injection H as -> _. discriminate.
  - apply andb_true_iff in Ha. destruct Ha as [_ Ha].
    apply andb_true_iff in Hb. destruct Hb as [_ Hb].
    injection H as -> H. f_equal. apply (IH b Ha Hb H1 H2 H).
Qed.

Lemma join_prefix_nonempty prefix n : join_prefix prefix (str_of_nat n) <> "".
Proof.
  destruct prefix; simpl; [apply str_of_nat_nonempty | discriminate].
Qed.

Lemma join_prefix_app key s :
  key <> "" -> join_prefix key s = (key ++ "__" ++ s)%string.
Proof. destruct key; [congruence | reflexivity]. Qed.

Lemma extends_key_self key : extends_key key key.
Proof. left. reflexivity. Qed.

Lemma extends_key_deeper key s k :
  key <> "" ->
  extends_key (join_prefix key s) k -> extends_key key k.
Proof.
  intros Hne. rewrite (join_prefix_app _ _ Hne).
  intros [->|[t ->]]; right.
  - exists s. reflexivity.
  - exists (s ++ "__" ++ t)%string. rewrite !string_app_assoc.
    reflexivity.
Qed.

(** The keys below two positions of the same array are different. *)
Lemma extends_key_positions prefix i j k :
  extends_key (join_prefix prefix (str_of_nat i)) k ->
  extends_key (join_prefix prefix (str_of_nat j)) k ->
  i = j.
Proof.
  intros Hi Hj. apply str_of_nat_inj.
  assert (Htail : forall key k',
             extends_key key k' ->
             exists t, k' = (key ++ t)%string
                       /\ (t = "" \/ exists r, t = String "_" r)).
  { intros key k' [->|[t ->]].
    - exists "". split; [|left; reflexivity].
      clear. induction key as [|c key IH]; simpl; congruence.
    - exists ("__" ++ t)%string. split; [reflexivity|].
      right. exists (String "_" t). reflexivity. }
  destruct (Htail _ _ Hi) as [t1 [H1 Ht1]].
  destruct (Htail _ _ Hj) as [t2 [H2 Ht2]].
  rewrite H1 in H2. clear Htail Hi Hj H1.
  destruct prefix as [|c prefix]; simpl in H2.
  - eapply digits_split; [apply str_of_nat_no_underscore
                         | apply str_of_nat_no_underscore
                         | exact Ht1 | exact Ht2 | exact H2].
  - injection H2 as H2. rewrite !string_app_assoc in H2.
    apply string_app_cancel in H2. simpl in H2. injection H2 as H2.
    eapply digits_split; [apply str_of_nat_no_underscore
                         | apply str_of_nat_no_underscore
                         | exact Ht1 | exact Ht2 | exact H2].
Qed.

Lemma leaves_of_item_list sub key :
  leaves_of_item (VList sub) key = array_leaves sub 0 key.
Proof.
  simpl. generalize 0. induction sub as [|x sub IH]; intros n; simpl;
    [reflexivity | rewrite IH; reflexivity].
Qed.

Lemma leaves_of_item_array sub key :
  leaves_of_item (VArray sub) key = array_leaves sub 0 key.
Proof. exact (leaves_of_item_list sub key). Qed.

Lemma array_leaves_keys_from nested prefix :
  Forall (fun item => forall key k,
            key <> "" ->
            In k (map fst (leaves_of_item item key)) -> extends_key key k)
         nested ->
  forall start k,
    In k (map fst (array_leaves nested start prefix)) ->
    exists j, start <= j
              /\ extends_key (join_prefix prefix (str_of_nat j)) k.
Proof.
  induction 1 as [|x nested Hx _ IH]; intros start k Hin; simpl in Hin.
  - destruct Hin.
  - rewrite map_app, in_app_iff in Hin. destruct Hin as [Hin|Hin].
    + exists start. split; [lia|].
      apply Hx; [apply join_prefix_nonempty | exact Hin].
    + destruct (IH _ _ Hin) as [j [Hj Hext]]. exists j. split; [lia | exact Hext].
Qed.

(** Every key of the leaves of an element lies below the key of the
    element. *)
Lemma leaves_keys_below : forall item key k,
  key <> "" ->
  In k (map fst (leaves_of_item item key)) -> extends_key key k.
Proof.
  induction item as [s|items _|elems IH|elems IH] using value_nested_ind;
    intros key k Hne Hin.
  - destruct Hin as [<-|[]]. apply extends_key_self.
  - destruct Hin as [<-|[]]. apply extends_key_self.
  - rewrite leaves_of_item_list in Hin.
    destruct (array_leaves_keys_from _ _ IH _ _ Hin) as [j [_ Hext]].
    eapply extends_key_deeper; eassumption.
  - rewrite leaves_of_item_array in Hin.
    destruct (array_leaves_keys_from _ _ IH _ _ Hin) as [j [_ Hext]].
    eapply extends_key_deeper; eassumption.
Qed.

Lemma array_leaves_keys nested prefix start k :
  In k (map fst (array_leaves nested start prefix)) ->
  exists j, start <= j /\ extends_key (join_prefix prefix (str_of_nat j)) k.
Proof.
  apply array_leaves_keys_from. apply Forall_forall.
  intros item _ key k' Hne. apply leaves_keys_below, Hne.
Qed.

Lemma NoDup_app_disjoint {A : Type} (l1 l2 : list A) :
  NoDup l1 -> NoDup l2 -> (forall x, In x l1 -> ~ In x l2) -> NoDup (l1 ++ l2).
Proof.
  induction l1 as [|a l1 IH]; simpl; intros H1 H2 Hd; [exact H2|].
  inversion H1 as [|? ? Ha H1']; subst. constructor.
  - rewrite in_app_iff. intros [H|H]; [contradiction|].
    apply (Hd a); auto.
  - apply IH; auto.
Qed.

Lemma array_leaves_NoDup_from nested prefix :
  Forall (fun item => forall key,
            key <> "" -> NoDup (map fst (leaves_of_item item key)))
         nested ->
  forall start, NoDup (map fst (array_leaves nested start prefix)).
Proof.
  induction 1 as [|x nested Hx _ IH]; intros start; simpl; [constructor|].
  rewrite map_app. apply NoDup_app_disjoint.
  - apply Hx, join_prefix_nonempty.
  - apply IH.
  - intros k Hk1 Hk2.
    apply leaves_keys_below in Hk1; [|apply join_prefix_nonempty].
    destruct (array_leaves_keys _ _ _ _ Hk2) as [j [Hj Hext]].
    pose proof (extends_key_positions _ _ _ _ Hk1 Hext). lia.
Qed.

Lemma leaves_NoDup : forall item key,
  key <> "" -> NoDup (map fst (leaves_of_item item key)).
Proof.
  induction item as [s|items _|elems IH|elems IH] using value_nested_ind;
    intros key Hne.
  - simpl. constructor; [intros [] | constructor].
  - simpl. constructor; [intros [] | constructor].
  - rewrite leaves_of_item_list. apply array_leaves_NoDup_from, IH.
  - rewrite leaves_of_item_array. apply array_leaves_NoDup_from, IH.
Qed.

Lemma dict_set_append key v d :
  ~ In key (dict_keys d) -> dict_set key v d = d ++ [(key, v)].
Proof.
  induction d as [|[k w] d IH]; simpl; intros H; [reflexivity|].
  destruct (String.eqb_spec k key) as [->|_].
  - exfalso. apply H. left. reflexivity.
  - rewrite IH; [reflexivity|]. intros Hin. apply H. right. exact Hin.
Qed.

Lemma dict_update_append other : forall d,
  NoDup (dict_keys other) ->
  (forall k, In k (dict_keys other) -> ~ In k (dict_keys d)) ->
  dict_update d other = d ++ other.
Proof.
  unfold dict_update.
  induction other as [|[k v] other IH]; intros d Hnd Hdis; simpl.
  - rewrite app_nil_r. reflexivity.
  - inversion Hnd as [|? ? Hk Hnd']; subst.
    rewrite dict_set_append by (apply Hdis; left; reflexivity).
    rewrite IH; [rewrite <- app_assoc; reflexivity | exact Hnd'|].
    intros k' Hk' Hin. unfold dict_keys in Hin.
    rewrite map_app, in_app_iff in Hin. destruct Hin as [Hin|[<-|[]]].
    + apply (Hdis k'); [right; exact Hk' | exact Hin].
    + apply Hk. exact Hk'.
Qed.

(** The loop of [_flatten_array] appends the leaves of the elements it
    visits, as long as every element does. *)
Lemma flatten_array_from_leaves nested prefix :
  Forall (fun item => forall key result,
            key <> "" ->
            (forall k, In k (dict_keys result) -> ~ extends_key key k) ->
            flatten_item item key result
            = result ++ leaves_of_item item key)
         nested ->
  forall start acc,
    (forall k, In k (dict_keys acc) ->
       exists j, j < start
                 /\ extends_key (join_prefix prefix (str_of_nat j)) k) ->
    flatten_array_from nested start prefix acc
    = acc ++ array_leaves nested start prefix.
Proof.
  induction 1 as [|x nested Hx _ IH]; intros start acc Hacc; simpl.
  - rewrite app_nil_r. reflexivity.
  - rewrite Hx; [|apply join_prefix_nonempty|].
    + rewrite IH; [rewrite <- app_assoc; reflexivity|].
      intros k Hk. unfold dict_keys in Hk.
      rewrite map_app, in_app_iff in Hk. destruct Hk as [Hk|Hk].
      * destruct (Hacc _ Hk) as [j [Hj Hext]]. exists j. split; [lia | exact Hext].
      * exists start. split; [lia|].
        eapply leaves_keys_below; [apply join_prefix_nonempty | exact Hk].
    + intros k Hk Hext. destruct (Hacc _ Hk) as [j [Hj Hext']].
      pose proof (extends_key_positions _ _ _ _ Hext Hext'). lia.
Qed.

Lemma flatten_item_leaves : forall item key result,
  key <> "" ->
  (forall k, In k (dict_keys result) -> ~ extends_key key k) ->
  flatten_item item key result = result ++ leaves_of_item item key.
Proof.
  assert (Hseq : forall elems,
             Forall (fun item => forall key result,
                       key <> "" ->
                       (forall k, In k (dict_keys result) ->
                                  ~ extends_key key k) ->
                       flatten_item item key result
                       = result ++ leaves_of_item item key) elems ->
             forall key result,
               key <> "" ->
               (forall k, In k (dict_keys result) -> ~ extends_key key k) ->
               dict_update result (_flatten_array elems key)
               = result ++ array_leaves elems 0 key).
  { intros elems IH key result Hne Hres.
    unfold _flatten_array.
    rewrite (flatten_array_from_leaves _ _ IH 0 [])
      by (intros k []).
    simpl. apply dict_update_append.
    - unfold dict_keys. apply array_leaves_NoDup_from.
      apply Forall_forall. intros item _ key' Hne'.
      apply leaves_NoDup, Hne'.
    - intros k Hk Hin. apply (Hres k Hin).
      destruct (array_leaves_keys _ _ _ _ Hk) as [j [_ Hext]].
      eapply extends_key_deeper; eassumption. }
  induction item as [s|items _|elems IH|elems IH] using value_nested_ind;
    intros key result Hne Hres.
  - simpl. apply dict_set_append. intros Hin.
    apply (Hres _ Hin), extends_key_self.
  - simpl. apply dict_set_append. intros Hin.
    apply (Hres _ Hin), extends_key_self.
  - rewrite flatten_item_list, leaves_of_item_list. apply Hseq; assumption.
  - rewrite flatten_item_array, leaves_of_item_array. apply Hseq; assumption.
Qed.

(** X1: [_flatten_array] loses nothing: its result holds one entry per
    leaf of the array, in depth-first order, under the key made of the
    positions on the way to the leaf, and no two leaves share a key. *)
Theorem flatten_array_lossless (nested : list value) (prefix : string) :
  _flatten_array nested prefix = array_leaves nested 0 prefix
  /\ NoDup (dict_keys (_flatten_array nested prefix)).
Proof.
  assert (H : _flatten_array nested prefix = array_leaves nested 0 prefix).
  { unfold _flatten_array.
    rewrite (flatten_array_from_leaves nested prefix); [reflexivity| |].
    - apply Forall_forall. intros item _ key result.
      apply flatten_item_leaves.
    - intros k []. }
  split; [exact H|]. rewrite H. unfold dict_keys.
  apply array_leaves_NoDup_from. apply Forall_forall.
  intros item _ key Hne. apply leaves_NoDup, Hne.
Qed.

Lemma flatten_array_is_leaves (nested : list value) (prefix : string) :
  _flatten_array nested prefix = array_leaves nested 0 prefix.
Proof.
  unfold _flatten_array.
  rewrite (flatten_array_from_leaves nested prefix); [reflexivity| |].
  - apply Forall_forall. intros item _ key result.
    apply flatten_item_leaves.
  - intros k [].
Qed.

(** ** Keys of a flattened mapping *)

Lemma dict_update_keys other : forall d k,
  In k (dict_keys (dict_update d other)) ->
  In k (dict_keys d) \/ In k (dict_keys other).
Proof.
  unfold dict_update.
  induction other as [|[k0 v] other IH]; intros d k H; simpl in *; [auto|].
  apply IH in H. destruct H as [H|H]; [|auto].
  apply dict_set_keys_in in H. destruct H as [->|H]; auto.
Qed.

Lemma flatten_dict_from_keys items prefix :
  Forall (fun kv => forall key result k,
            key <> "" ->
            In k (dict_keys (flatten_value (snd kv) key result)) ->
            In k (dict_keys result) \/ extends_key key k)
         items ->
  (forall key, In key (map fst items) -> join_prefix prefix key <> "") ->
  forall acc k,
    In k (dict_keys (flatten_dict_from items prefix acc)) ->
    In k (dict_keys acc)
    \/ exists key, In key (map fst items)
                   /\ extends_key (join_prefix prefix key) k.
Proof.
  induction 1 as [|[key v] items Hv _ IH]; intros Hne acc k Hin; simpl in *.
  - auto.
  - apply IH in Hin; [|intros key' Hk'; apply Hne; right; exact Hk'].
    destruct Hin as [Hin|[key' [Hk' Hext]]].
    + destruct (is_ignored key v); [auto|].
      apply Hv in Hin; [|apply Hne; left; reflexivity].
      destruct Hin as [Hin|Hext]; [auto|].
      right. exists key. auto.
    + right. exists key'. auto.
Qed.

(** The keys a value adds lie below the key it is found at. *)
Lemma flatten_value_keys : forall v key result k,
  key <> "" ->
  In k (dict_keys (flatten_value v key result)) ->
  In k (dict_keys result) \/ extends_key key k.
Proof.
  assert (Harr : forall sub key result k,
             key <> "" ->
             In k (dict_keys (dict_update result (_flatten_array sub key))) ->
             In k (dict_keys result) \/ extends_key key k).
  { intros sub key result k Hne Hin.
    apply dict_update_keys in Hin. destruct Hin as [Hin|Hin]; [auto|].
    right. rewrite flatten_array_is_leaves in Hin.
    destruct (array_leaves_keys _ _ _ _ Hin) as [j [_ Hext]].
    eapply extends_key_deeper; eassumption. }
  induction v as [s|items IH|elems _|elems _] using value_nested_ind;
    intros key result k Hne Hin.
  - simpl in Hin. apply dict_set_keys_in in Hin.
    destruct Hin as [->|Hin]; [right; apply extends_key_self | auto].
  - rewrite flatten_value_dict in Hin.
    apply dict_update_keys in Hin. destruct Hin as [Hin|Hin]; [auto|].
    right. unfold _flatten_dict in Hin.
    apply (flatten_dict_from_keys items key IH) in Hin.
    + destruct Hin as [[]|[key' [_ Hext]]].
      eapply extends_key_deeper; eassumption.
    + intros key' _. rewrite (join_prefix_app _ _ Hne).
      destruct key; [congruence | discriminate].
  - apply (Harr elems); assumption.
  - apply (Harr elems); assumption.
Qed.

(** X2: every key of a flattened mapping lies below one of the keys of
    the mapping: it is that key behind the prefix, alone or followed by
    the delimiter and more segments.  In particular, with a prefix that
    is not empty every key of the result starts with the prefix and the
    delimiter. *)
Theorem flatten_dict_keys_below (nested : pydict) (prefix k : string) :
  (forall key, In key (dict_keys nested) -> join_prefix prefix key <> "") ->
  In k (dict_keys (_flatten_dict nested prefix)) ->
  (exists key, In key (dict_keys nested)
               /\ extends_key (join_prefix prefix key) k)
  /\ (prefix <> "" -> exists t, k = (prefix ++ "__" ++ t)%string).
Proof.
  intros Hne Hin. unfold _flatten_dict in Hin.
  apply (flatten_dict_from_keys nested prefix) in Hin.
  - destruct Hin as [[]|[key [Hkey Hext]]].
    split; [exists key; auto|].
    intros Hp. rewrite (join_prefix_app _ _ Hp) in Hext.
    destruct Hext as [->|[t ->]].
    + exists key. reflexivity.
    + exists (key ++ "__" ++ t)%string. rewrite !string_app_assoc.
      reflexivity.
  - apply Forall_forall. intros kv _ key result k'.
    apply flatten_value_keys.
  - exact Hne.
Qed.

Lemma flatten_dict_keys_below_witness :
  let nested := [("covariance", VList [VList [num 1]]);
                 ("distribs", VDict [("x", VDict [("std", num 0)])])] in
  In "orders__distribs__x__std"
     (dict_keys (_flatten_dict nested "orders"))
  /\ exists t, "orders__distribs__x__std" = ("orders" ++ "__" ++ t)%string.
Proof.
  intros nested.
  assert (Hin : In "orders__distribs__x__std"
                   (dict_keys (_flatten_dict nested "orders")))
    by (vm_compute; auto).
  split; [exact Hin|].
  destruct (flatten_dict_keys_below nested "orders"
              "orders__distribs__x__std") as [_ Hprefix].
  - intros key _. discriminate.
  - exact Hin.
  - apply Hprefix. discriminate.
Defined.

(** X3: the compound keys of a mapping can collide.  A parameter whose
    name already contains the delimiter and a nested parameter with the
    same path are flattened to a single entry: the value met last wins
    and the other one is lost. *)
Theorem flatten_dict_keys_collide (a b : string) (x y : scalar) :
  a <> "" ->
  key_in (a ++ "__" ++ b) IGNORED_DICT_KEYS = false ->
  key_in b IGNORED_DICT_KEYS = false ->
  _flatten_dict [((a ++ "__" ++ b)%string, VScalar x);
                 (a, VDict [(b, VScalar y)])] ""
  = [((a ++ "__" ++ b)%string, VScalar y)].
Proof.
  intros Ha Hab Hb. unfold _flatten_dict.
  cbn [flatten_dict_from join_prefix]. unfold is_ignored. rewrite Hab.
  cbn [is_dict_or_list negb andb]. rewrite andb_false_r.
  rewrite flatten_value_dict.
  unfold _flatten_dict. cbn [flatten_dict_from].
  unfold is_ignored. rewrite Hb.
  cbn [is_dict_or_list negb andb flatten_value dict_set].
  rewrite (join_prefix_app _ _ Ha). unfold dict_update.
  cbn [fold_left fst snd dict_set]. rewrite String.eqb_refl. reflexivity.
Qed.

Lemma flatten_dict_keys_collide_witness :
  _flatten_dict [("mu__0", num 1); ("mu", VDict [("0", num 2)])] ""
  = [("mu__0", num 2)].
Proof.
  apply (flatten_dict_keys_collide "mu" "0" (SNum 1) (SNum 2)).
  - discriminate.
  - reflexivity.
  - reflexivity.
Defined.

(** ** The imputer: what is filled in *)

Lemma distinct_subset_from {A : Type} (eqb : A -> A -> bool) (l : list A) :
  forall acc x,
    In x (fold_left (fun acc x =>
                       if existsb (eqb x) acc then acc else acc ++ [x])
                    l acc) ->
    In x acc \/ In x l.
Proof.
  induction l as [|a l IH]; intros acc x H; simpl in *; [auto|].
  apply IH in H. destruct H as [H|H]; [|auto].
  destruct (existsb (eqb a) acc); [auto|].
  apply in_app_iff in H. destruct H as [H|[<-|[]]]; auto.
Qed.

Lemma distinct_subset {A : Type} (eqb : A -> A -> bool) (l : list A) x :
  In x (distinct eqb l) -> In x l.
Proof.
  intros H. apply distinct_subset_from in H. destruct H as [[]|H]. exact H.
Qed.

Lemma insert_sorted_In v l x : In x (insert_sorted v l) -> x = v \/ In x l.
Proof.
  induction l as [|w l IH]; simpl; intros H.
  - destruct H as [<-|[]]. auto.
  - destruct (value_leb v w); simpl in H.
    + destruct H as [<-|H]; auto.
    + destruct H as [<-|H]; [auto|].
      apply IH in H. destruct H; auto.
Qed.

Lemma sort_values_In l x : In x (sort_values l) -> In x l.
Proof.
  unfold sort_values. destruct l as [|v l]; [auto|].
  destruct (forallb (same_kind v) (v :: l)); [|auto].
  generalize (v :: l). clear. intros l.
  induction l as [|w l IH]; simpl; intros H; [auto|].
  apply insert_sorted_In in H. destruct H as [<-|H]; auto.
Qed.

Lemma max_bound {A : Type} (f : A -> nat) (l : list A) x :
  In x l -> f x <= fold_right Nat.max 0 (map f l).
Proof.
  induction l as [|y l IH]; simpl; intros H; [destruct H|].
  destruct H as [<-|H]; [lia|]. apply IH in H. lia.
Qed.

(** The first mode of a column is one of its values, and none of its
    distinct values occurs more often. *)
Lemma mode_first_spec s c :
  mode_first s = Ok c ->
  exists v,
    c = Some v
    /\ In v (present s)
    /\ forall u, In u (distinct value_eqb (present s)) ->
         count_of u (present s) <= count_of v (present s).
Proof.
  unfold mode_first. destruct (mode s) as [|v l] eqn:Hmode; [discriminate|].
  intros H. injection H as <-. exists v. split; [reflexivity|].
  assert (Hin : In v (mode s)) by (rewrite Hmode; left; reflexivity).
  unfold mode in Hin. apply sort_values_In in Hin.
  apply filter_In in Hin. destruct Hin as [Hcand Hbest].
  apply Nat.eqb_eq in Hbest.
  split; [eapply distinct_subset, Hcand|].
  intros u Hu. rewrite Hbest.
  apply (max_bound (fun v => count_of v (present s))), Hu.
Qed.

(** X5: a column that is not numeric is filled with one of its own
    values, and no distinct value of the column occurs more often than
    the one chosen: the imputer never invents a value. *)
Theorem impute_fills_with_a_mode (data : ref) (w w' : World) (df : DataFrame)
    (r : ref) (name : string) (s : Series) :
  nth_error (heap w) data = Some df ->
  _impute data w = (Ok r, w') ->
  lookup_column name (columns df) = Some s ->
  is_int_or_float (dtype_of s) = false ->
  exists df' v,
    nth_error (heap w') data = Some df'
    /\ lookup_column name (columns df') = Some (fillna s (Some v))
    /\ In v (present s)
    /\ forall u, In u (distinct value_eqb (present s)) ->
         count_of u (present s) <= count_of v (present s).
Proof.
  intros H Hrun Hs Hd.
  destruct (impute_ok _ _ _ _ _ H Hrun) as [_ [df' [Himp ->]]].
  destruct Himp as [_ [_ [_ Hcols]]].
  destruct (Hcols name s Hs) as [fv [Hfv Hl]].
  unfold fill_value_of in Hfv. rewrite Hd in Hfv.
  destruct (mode_first_spec _ _ Hfv) as [v [-> [Hin Hmost]]].
  exists df', v. split; [eapply with_object_read, H|]. auto.
Qed.

Lemma impute_fills_with_a_mode_witness :
  (exists df' v,
     nth_error (heap (Scenario.world_of Scenario.payments_filled)) 0
     = Some df'
     /\ lookup_column "currency" (columns df')
        = Some (fillna (mkSeries object_
                          [Some (VScalar (SStr "eur")); None;
                           Some (VScalar (SStr "eur"))]) (Some v))
     /\ In v [VScalar (SStr "eur"); VScalar (SStr "eur")])
  /\ exists df',
       nth_error (heap (snd (_impute 0 (Scenario.world_of Scenario.flags)))) 0
       = Some df'
       /\ lookup_column "flag" (columns df')
          = Some (mkSeries object_
                    [Some (num 1); Some (VScalar (SBool true)); Some (num 2);
                     Some (num 2); Some (num 1)])
       /\ count_of (num 2) [num 1; VScalar (SBool true); num 2; num 2]
          <= count_of (num 1) [num 1; VScalar (SBool true); num 2; num 2].
Proof.
  split.
  - destruct (impute_fills_with_a_mode 0 (Scenario.world_of Scenario.payments)
                (Scenario.world_of Scenario.payments_filled)
                Scenario.payments 0 "currency"
                (mkSeries object_ [Some (VScalar (SStr "eur")); None;
                                   Some (VScalar (SStr "eur"))])
                eq_refl eq_refl eq_refl eq_refl)
      as [df' [v [Hread [Hcol [Hin _]]]]].
    exists df', v. auto.
  - destruct (impute_fills_with_a_mode 0 (Scenario.world_of Scenario.flags)
                (snd (_impute 0 (Scenario.world_of Scenario.flags)))
                Scenario.flags 0 "flag"
                (mkSeries object_
                   [Some (num 1); Some (VScalar (SBool true)); Some (num 2);
                    Some (num 2); None])
                eq_refl eq_refl eq_refl eq_refl)
      as [df' [v [Hread [Hcol [_ Hmost]]]]].
    exists df'. split; [exact Hread|].
    vm_compute in Hread. injection Hread as <-.
    assert (Hv : v = num 1).
    { vm_compute in Hcol. injection Hcol as Hv. symmetry. exact Hv. }
    subst v. split; [vm_compute; reflexivity|].
    apply (Hmost (num 2)). vm_compute. right. left. reflexivity.
Defined.

(** ** The imputer: a second call *)

Lemma set_column_same name s cols :
  lookup_column name cols = Some s -> set_column name s cols = cols.
Proof.
  induction cols as [|[k old] cols IH]; simpl; [discriminate|].
  destruct (String.eqb_spec k name) as [->|_].
  - intros H. injection H as ->. reflexivity.
  - intros H. rewrite (IH H). reflexivity.
Qed.

(** On a frame whose columns are filled the loop changes nothing. *)
Lemma impute_frame_filled names : forall df,
  (forall name, In name names ->
     exists s fv, fill_value_of s = Ok fv
                  /\ lookup_column name (columns df) = Some (fillna s fv)) ->
  impute_frame names df = (Ok tt, df).
Proof.
  induction names as [|c names IH]; intros df Hall; simpl; [reflexivity|].
  destruct (Hall c (or_introl eq_refl)) as [s [fv [Hfv Hl]]].
  destruct (fill_value_again s fv Hfv) as [fv' [Hfv' Heq]].
  unfold impute_frame_column, getitem. rewrite Hl, Hfv', Heq.
  unfold setitem. rewrite (set_column_same _ _ _ Hl).
  destruct df as [iname idx cols]. simpl.
  apply IH. intros name Hname. apply Hall. right. exact Hname.
Qed.

(** X6: [_impute] is idempotent: a second call on the table it has just
    filled succeeds, returns the same object and changes nothing. *)
Theorem impute_idempotent (data : ref) (w w' : World) (df : DataFrame)
    (r : ref) :
  nth_error (heap w) data = Some df ->
  _impute data w = (Ok r, w') ->
  _impute data w' = (Ok r, w').
Proof.
  intros H Hrun.
  destruct (impute_ok _ _ _ _ _ H Hrun) as [-> [df' [Himp ->]]].
  pose proof (with_object_read _ _ df' _ H) as Hread.
  rewrite (impute_frame_spec _ _ _ Hread).
  rewrite impute_frame_filled.
  - simpl fst. simpl snd. rewrite (with_object_id _ _ _ Hread). reflexivity.
  - intros name Hname. destruct Himp as [_ [_ [Hnames Hcols]]].
    rewrite Hnames in Hname. apply lookup_column_In in Hname.
    destruct (lookup_column name (columns df)) as [s|] eqn:Hs; [|congruence].
    destruct (Hcols name s Hs) as [fv [Hfv Hl]].
    exists s, fv. auto.
Qed.

Lemma impute_idempotent_witness :
  _impute 0 (Scenario.world_of Scenario.payments)
  = (Ok 0, Scenario.world_of Scenario.payments_filled)
  /\ _impute 0 (Scenario.world_of Scenario.payments_filled)
     = (Ok 0, Scenario.world_of Scenario.payments_filled).
Proof.
  split; [reflexivity|].
  exact (impute_idempotent 0 (Scenario.world_of Scenario.payments)
           (Scenario.world_of Scenario.payments_filled) Scenario.payments 0
           eq_refl eq_refl).
Defined.

(** ** Fitting a group *)

Section ModelDictProperties.

Variable model : ModelClass.
Variable np_log : Q -> Q.

(** X7: on a table in which no non-numeric column is entirely missing,
    [_get_model_dict] fills the table in place and then depends on the
    fitting primitive alone: a failure of the primitive is raised as it
    is, and a success gives the flattened export of the model after its
    covariance and scales have been encoded.  In both cases the table
    has been filled. *)
Theorem model_dict_after_fill (data : ref) (w : World) (df : DataFrame) :
  nth_error (heap w) data = Some df ->
  (forall name s,
      lookup_column name (columns df) = Some s ->
      is_int_or_float (dtype_of s) = false -> all_missing s = false) ->
  exists filled,
    imputed df filled
    /\ _get_model_dict model np_log data w
       = (match fit model filled with
          | Ok fitted =>
              Ok (_flatten_dict (to_dict model (encode_model np_log fitted))
                                "")
          | Raise e => Raise e
          end,
          with_object w data filled).
Proof.
  intros H Hcols.
  destruct (impute_frame_total (column_names df) df [] df
              (impute_state_start df)) as [filled Hfilled].
  { intros column Hin. apply lookup_column_In in Hin.
    destruct (lookup_column column (columns df)) as [s|] eqn:Hs; [|congruence].
    destruct (fill_value_of s) as [fv|e] eqn:Hfv; [exists s, fv; auto|].
    exfalso. apply fill_value_raise in Hfv. destruct Hfv as [Hd [Hp _]].
    apply present_nil_missing in Hp. rewrite (Hcols _ _ Hs Hd) in Hp.
    discriminate. }
  exists filled. split.
  { apply imputed_of_state.
    eapply impute_frame_ok; [apply impute_state_start | exact Hfilled]. }
  unfold _get_model_dict, _fit_model.
  unfold bind at 1. unfold bind at 1.
  rewrite (impute_frame_spec _ _ _ H), Hfilled. simpl fst. simpl snd.
  unfold bind, read, lift, ret.
  rewrite (with_object_read _ _ filled _ H).
  destruct (fit model filled); reflexivity.
Qed.

End ModelDictProperties.

Lemma lookup_column_pair name cols s :
  lookup_column name cols = Some s -> In (name, s) cols.
Proof.
  induction cols as [|[k t] cols IH]; simpl; [discriminate|].
  destruct (String.eqb_spec k name) as [->|_].
  - intros H. injection H as ->. left. reflexivity.
  - intros H. right. apply IH, H.
Qed.

Lemma model_dict_after_fill_witness :
  exists filled,
    imputed Scenario.payments filled
    /\ fst (_get_model_dict Scenario.mu_class Scenario.log_one 0
              (Scenario.world_of Scenario.payments))
       = match fit Scenario.mu_class filled with
         | Ok fitted =>
             Ok (_flatten_dict
                   (to_dict Scenario.mu_class
                      (encode_model Scenario.log_one fitted)) "")
         | Raise e => Raise e
         end.
Proof.
  destruct (model_dict_after_fill Scenario.mu_class Scenario.log_one 0
              (Scenario.world_of Scenario.payments) Scenario.payments
              eq_refl) as [filled [Himp Hrun]].
  - intros name s Hs Hd. apply lookup_column_pair in Hs.
    destruct Hs as [Hs|[Hs|[]]]; injection Hs as <- <-;
      [discriminate | reflexivity].
  - exists filled. split; [exact Himp|]. rewrite Hrun. reflexivity.
Defined.

(** ** The shape of an extension *)

Lemma Forall2_nth_error {A B : Type} (R : A -> B -> Prop) l1 l2 :
  Forall2 R l1 l2 ->
  forall i x, nth_error l1 i = Some x ->
    exists y, nth_error l2 i = Some y /\ R x y.
Proof.
  induction 1 as [|x0 y0 l1 l2 HR _ IH]; intros i x Hi.
  - destruct i; discriminate.
  - destruct i as [|i]; simpl in *.
    + injection Hi as <-. exists y0. auto.
    + apply IH, Hi.
Qed.

Lemma frame_of_rows_column_length rows labels name s :
  lookup_column name (columns (frame_of_rows rows labels)) = Some s ->
  length (values s) = length rows.
Proof.
  intros H. apply lookup_column_pair in H. unfold frame_of_rows in H.
  simpl in H. apply in_map_iff in H. destruct H as [n [H _]].
  injection H as _ <-. simpl. apply length_map.
Qed.

(** The group of a label holds the rows of that label. *)
Lemma loc_group indexed label group :
  loc indexed label = Ok group ->
  group = take_rows (map Some (positions_of label (values (index indexed))))
                    indexed
  /\ positions_of label (values (index indexed)) <> [].
Proof.
  unfold loc.
  destruct (positions_of label (values (index indexed))) as [|p ps] eqn:Hp;
    [discriminate|].
  destruct label as [v|]; [|destruct ps; [|discriminate]];
    intros H; injection H as <-; split; (reflexivity || discriminate).
Qed.

Lemma loc_rows indexed label group :
  loc indexed label = Ok group ->
  nrows group = length (positions_of label (values (index indexed)))
  /\ 1 <= nrows group.
Proof.
  intros H. apply loc_group in H. destruct H as [-> Hne].
  unfold nrows, take_rows, take. simpl. rewrite !length_map.
  split; [reflexivity|].
  destruct (positions_of label (values (index indexed))); [congruence|].
  simpl. lia.
Qed.

Lemma set_index_index table key key_column indexed :
  getitem table key = Ok key_column ->
  set_index table key = Ok indexed ->
  index indexed = key_column.
Proof.
  unfold getitem, set_index.
  destruct (lookup_column key (columns table)); [|discriminate].
  intros H1 H2. injection H1 as <-. injection H2 as <-. reflexivity.
Qed.

Section ExtensionProperties.

Variable model : ModelClass.
Variable np_log : Q -> Q.

(** X8: the extension of a child has one row per distinct value of the
    foreign key column, labelled by these values in order of first
    appearance; every column has one cell per row; and the [child_rows]
    cell of a row is the number of rows of the child table that carry
    the value, which is at least one. *)
Theorem extension_one_row_per_key child_name child_table foreign_key w r w' :
  _get_extension model np_log child_name child_table foreign_key w
  = (Ok r, w') ->
  exists table key key_column extension,
    nth_error (heap w) child_table = Some table
    /\ foreign_key = Some key
    /\ getitem table key = Ok key_column
    /\ nth_error (heap w') r = Some extension
    /\ values (index extension) = unique key_column
    /\ (forall name s,
          lookup_column name (columns extension) = Some s ->
          length (values s) = length (unique key_column))
    /\ (forall i label,
          nth_error (unique key_column) i = Some label ->
          1 <= length (positions_of label (values key_column))
          /\ exists counts,
               lookup_column (child_rows_column child_name)
                             (columns extension) = Some counts
               /\ nth_error (values counts) i
                  = Some (Some (num_of_nat
                                  (length (positions_of label
                                             (values key_column)))))).
Proof.
  intros H.
  destruct (get_extension_ok _ _ _ _ _ _ _ _ H)
    as [table [key [key_column [indexed [rows
         [Htable [Hkey [Hcol [Hidx [Hrows Hext]]]]]]]]]].
  exists table, key, key_column.
  eexists. split; [exact Htable|]. split; [exact Hkey|].
  split; [exact Hcol|]. split; [exact Hext|].
  split; [reflexivity|].
  split.
  { intros name s Hs. rewrite (frame_of_rows_column_length _ _ _ _ Hs).
    symmetry. apply (Forall2_length Hrows). }
  intros i label Hi.
  destruct (Forall2_nth_error _ _ _ Hrows i label Hi) as [row [Hrow Hgroup]].
  destruct (group_row_labels _ _ _ _ _ _ Hgroup)
    as [group [params [Hloc [Hnames [_ Hcount]]]]].
  destruct (loc_rows _ _ _ Hloc) as [Hn Hpos].
  rewrite (set_index_index _ _ _ _ Hcol Hidx) in Hn.
  rewrite <- Hn. split; [exact Hpos|].
  assert (Hin : In (child_rows_column child_name) (flat_map (map fst) rows)).
  { apply in_flat_map. exists row. split; [eapply nth_error_In, Hrow|].
    rewrite Hnames. apply in_map_iff. exists "child_rows".
    split; [reflexivity|]. apply dict_set_keys_in. left. reflexivity. }
  eexists. split; [apply frame_of_rows_lookup, Hin|].
  simpl. rewrite (map_nth_error _ _ _ Hrow). rewrite Hcount. reflexivity.
Qed.

End ExtensionProperties.

Lemma extension_one_row_per_key_witness :
  let out := _get_extension Scenario.mu_class Scenario.log_one "orders" 0
               (Some "user_id") (Scenario.world_of Scenario.orders) in
  fst out = Ok 3
  /\ exists extension,
       nth_error (heap (snd out)) 3 = Some extension
       /\ values (index extension)
          = [Some (num 1); Some (num 3)]
       /\ lookup_column "__orders__child_rows" (columns extension)
          = Some (Scenario.float_column [Some 2; Some 1]%Q).
Proof.
  intros out.
  assert (Hrun : _get_extension Scenario.mu_class Scenario.log_one "orders" 0
                   (Some "user_id") (Scenario.world_of Scenario.orders)
                 = (Ok 3, snd out)) by (vm_compute; reflexivity).
  split; [vm_compute; reflexivity|].
  destruct (extension_one_row_per_key Scenario.mu_class Scenario.log_one
              "orders" 0 (Some "user_id") _ _ _ Hrun)
    as [table [key [key_column [extension [_ [_ [_ [Hext _]]]]]]]].
  exists extension. split; [exact Hext|].
  assert (Hsame : nth_error (heap (snd out)) 3 = Some extension) by exact Hext.
  vm_compute in Hsame. injection Hsame as <-.
  split; vm_compute; reflexivity.
Defined.

(** ** A child without rows *)

Section EmptyChild.

Variable metadata : Metadata.
Variable model : ModelClass.
Variable np_log : Q -> Q.

Lemma get_extension_empty child_name child_table key table key_column w :
  nth_error (heap w) child_table = Some table ->
  getitem table key = Ok key_column ->
  values key_column = [] ->
  _get_extension model np_log child_name child_table (Some key) w
  = (Ok (length (heap w)),
     mkWorld (heap w ++ [frame_of_rows [] (mkSeries (dtype_of key_column) [])])
             (models w) (events w)).
Proof.
  intros Htable Hcol Hempty. unfold _get_extension, bind, read, lift.
  rewrite Htable, Hcol. unfold unique. rewrite Hempty.
  unfold getitem in Hcol. unfold set_index.
  destruct (lookup_column key (columns table)); [|discriminate].
  reflexivity.
Qed.

(** X9: a child table without rows makes the parent fail.  The
    extension of such a child has no column at all, so that after the
    merge the count column of the child does not exist and filling it
    raises [KeyError]. *)
Theorem child_without_rows_raises recur table_name child_name extended w L
    child_table wb table key key_column :
  (forall c k, creates (recur c k)) ->
  nth_error (heap w) extended = Some L ->
  lookup_column (child_rows_column child_name) (columns L) = None ->
  recur child_name (get_foreign_key metadata table_name child_name) w
  = (Ok child_table, wb) ->
  nth_error (heap wb) child_table = Some table ->
  get_foreign_key metadata table_name child_name = Some key ->
  getitem table key = Ok key_column ->
  values key_column = [] ->
  exists w',
    extend_with_child metadata model np_log recur table_name child_name
                      extended w = (Raise KeyError, w').
Proof.
  intros Hrec HL Hfresh Hchild Htable Hkey Hcol Hempty.
  destruct (Hrec _ _ _ _ _ Hchild) as [Hext _].
  unfold extend_with_child.
  rewrite (bind_step _ _ _ _ _ Hchild). rewrite Hkey.
  rewrite (bind_step _ _ _ _ _
             (get_extension_empty child_name _ _ _ _ _ Htable Hcol Hempty)).
  set (E := frame_of_rows [] (mkSeries (dtype_of key_column) [])).
  set (w2 := mkWorld (heap wb ++ [E]) (models wb) (events wb)).
  assert (HL2 : nth_error (heap w2) extended = Some L).
  { simpl. eapply nth_error_app_old, extends_read; eassumption. }
  assert (HE2 : nth_error (heap w2) (length (heap wb)) = Some E).
  { simpl. apply nth_error_app_last. }
  unfold bind at 1. unfold read at 1. rewrite HL2.
  unfold bind at 1. unfold read at 1. rewrite HE2.
  unfold bind at 1. unfold alloc at 1.
  unfold bind at 1. unfold fill_child_rows.
  unfold bind at 1. unfold read at 1. simpl heap.
  rewrite nth_error_app_last.
  unfold bind at 1. unfold lift at 1. unfold getitem.
  rewrite (merge_lookup_right L E);
    [|apply child_rows_column_no_x | apply child_rows_column_no_y
     |exact Hfresh].
  simpl. eexists. reflexivity.
Qed.

End EmptyChild.

Lemma child_without_rows_raises_witness :
  fst (cpa Scenario.metadata_no_orders Scenario.model_class Scenario.log_one
           2 "users" None None Scenario.empty_world) = Raise KeyError
  /\ exists w',
       extend_with_child Scenario.metadata_no_orders Scenario.model_class
         Scenario.log_one
         (fun c k => cpa Scenario.metadata_no_orders Scenario.model_class
                         Scenario.log_one 1 c None k)
         "users" "orders" 0 (Scenario.world_of Scenario.users)
       = (Raise KeyError, w').
Proof.
  split; [vm_compute; reflexivity|].
  set (recur := fun c k => cpa Scenario.metadata_no_orders
                               Scenario.model_class Scenario.log_one 1 c None k).
  set (wb := snd (recur "orders" (Some "user_id")
                        (Scenario.world_of Scenario.users))).
  set (table := nth 2 (heap wb) Scenario.no_orders).
  set (key_column := match getitem table "user_id" with
                     | Ok s => s
                     | Raise _ => mkSeries object_ []
                     end).
  apply (child_without_rows_raises Scenario.metadata_no_orders
           Scenario.model_class Scenario.log_one recur "users" "orders" 0
           (Scenario.world_of Scenario.users) Scenario.users 2 wb table
           "user_id" key_column).
  - intros c k. apply cpa_creates.
  - reflexivity.
  - reflexivity.
  - vm_compute. reflexivity.
  - vm_compute. reflexivity.
  - reflexivity.
  - vm_compute. reflexivity.
  - vm_compute. reflexivity.
Defined.

(** ** The registry of models *)

Lemma lookup_model_set_same name m d :
  lookup_model name (set_model name m d) = Some m.
Proof.
  induction d as [|[k old] d IH]; simpl.
  - rewrite String.eqb_refl. reflexivity.
  - destruct (String.eqb k name) eqn:E; simpl; rewrite E;
      [reflexivity | exact IH].
Qed.

Lemma lookup_model_set_other name m d n :
  n <> name -> lookup_model n (set_model name m d) = lookup_model n d.
Proof.
  intros Hn. induction d as [|[k old] d IH]; simpl.
  - destruct (String.eqb name n) eqn:E; [|reflexivity].
    apply String.eqb_eq in E. congruence.
  - destruct (String.eqb k name) eqn:E; simpl.
    + apply String.eqb_eq in E. subst k.
      destruct (String.eqb name n) eqn:E2; [|reflexivity].
      apply String.eqb_eq in E2. congruence.
    + destruct (String.eqb k n); [reflexivity | exact IH].
Qed.

Lemma quiet_ret {A : Type} (a : A) : quiet (ret a).
Proof. intros w. reflexivity. Qed.

Lemma quiet_raise {A : Type} (e : error) : quiet (@raise A e).
Proof. intros w. reflexivity. Qed.

Lemma quiet_lift {A : Type} (x : result A) : quiet (lift x).
Proof. intros w. reflexivity. Qed.

Lemma quiet_alloc df : quiet (alloc df).
Proof. intros w. reflexivity. Qed.

Lemma quiet_read r : quiet (read r).
Proof. intros w. unfold read. destruct (nth_error (heap w) r); reflexivity. Qed.

Lemma quiet_write r df : quiet (write r df).
Proof. intros w. reflexivity. Qed.

Lemma quiet_emit e : quiet (emit e).
Proof. intros w. reflexivity. Qed.

Lemma quiet_bind {A B : Type} (c : M A) (k : A -> M B) :
  quiet c -> (forall a, quiet (k a)) -> quiet (bind c k).
Proof.
  intros Hc Hk w. unfold bind. specialize (Hc w).
  destruct (c w) as [[a|e] w1]; simpl in *.
  - rewrite Hk. exact Hc.
  - exact Hc.
Qed.

Lemma quiet_for_each {A : Type} (l : list A) (body : A -> M unit) :
  (forall x, quiet (body x)) -> quiet (for_each l body).
Proof.
  intros H. induction l as [|x l IH]; simpl.
  - apply quiet_ret.
  - apply quiet_bind; [apply H | intros _; exact IH].
Qed.

Ltac quiet_steps :=
  repeat first
    [ apply quiet_ret | apply quiet_raise | apply quiet_lift
    | apply quiet_alloc | apply quiet_read | apply quiet_write
    | apply quiet_emit
    | apply quiet_bind; [|intro]
    | apply quiet_for_each; intro
    | progress cbv beta ].

Lemma quiet_impute data : quiet (_impute data).
Proof. unfold _impute, impute_column. quiet_steps. Qed.

Lemma quiet_fit_model model data : quiet (_fit_model model data).
Proof.
  unfold _fit_model. apply quiet_bind; [apply quiet_impute|].
  intro. quiet_steps.
Qed.

Lemma quiet_get_model_dict model np_log data :
  quiet (_get_model_dict model np_log data).
Proof.
  unfold _get_model_dict. apply quiet_bind; [apply quiet_fit_model|].
  intro. quiet_steps.
Qed.

Lemma quiet_extension_row model np_log child_name child_table v :
  quiet (extension_row model np_log child_name child_table v).
Proof.
  unfold extension_row. apply quiet_bind; [apply quiet_lift|]. intro.
  apply quiet_bind; [apply quiet_alloc|]. intro.
  apply quiet_bind; [apply quiet_get_model_dict|]. intro. quiet_steps.
Qed.

Lemma quiet_extension_rows model np_log child_name child_table vs :
  quiet (extension_rows model np_log child_name child_table vs).
Proof.
  induction vs as [|v vs IH]; simpl; [apply quiet_ret|].
  apply quiet_bind; [apply quiet_extension_row|]. intro.
  apply quiet_bind; [exact IH|]. intro. apply quiet_ret.
Qed.

Lemma quiet_get_extension model np_log child_name child_table foreign_key :
  quiet (_get_extension model np_log child_name child_table foreign_key).
Proof.
  unfold _get_extension.
  apply quiet_bind; [apply quiet_read|]. intro.
  apply quiet_bind; [apply quiet_lift|]. intro.
  apply quiet_bind; [apply quiet_lift|]. intro.
  apply quiet_bind; [apply quiet_lift|]. intro.
  apply quiet_bind; [apply quiet_extension_rows|]. intro.
  apply quiet_alloc.
Qed.

Lemma quiet_resolve_table metadata table_name tables :
  quiet (resolve_table metadata table_name tables).
Proof.
  unfold resolve_table. destruct tables as [[|t ts]|]; quiet_steps.
Qed.

Lemma quiet_fill_child_rows extended name :
  quiet (fill_child_rows extended name).
Proof. unfold fill_child_rows. quiet_steps. Qed.

Lemma quiet_index_by_primary_key table extended key :
  quiet (index_by_primary_key table extended key).
Proof. unfold index_by_primary_key. quiet_steps. Qed.

Lemma quiet_restore_primary_key extended :
  quiet (restore_primary_key extended).
Proof. unfold restore_primary_key. quiet_steps. Qed.

Lemma quiet_attach_foreign_key table extended key :
  quiet (attach_foreign_key table extended key).
Proof. unfold attach_foreign_key. quiet_steps. Qed.

Lemma entries_kept_refl d : entries_kept d d.
Proof. intros n H. exact H. Qed.

Lemma entries_kept_trans a b c :
  entries_kept a b -> entries_kept b c -> entries_kept a c.
Proof. intros H1 H2 n H. apply H2, H1, H. Qed.

Lemma entries_kept_store name m d : entries_kept d (set_model name m d).
Proof.
  intros n H. destruct (string_dec n name) as [->|Hn].
  - rewrite lookup_model_set_same. discriminate.
  - rewrite lookup_model_set_other by exact Hn. exact H.
Qed.

Lemma same_outside_refl S d : same_outside S d d.
Proof. intros n _. reflexivity. Qed.

Lemma same_outside_trans S a b c :
  same_outside S a b -> same_outside S b c -> same_outside S a c.
Proof. intros H1 H2 n H. rewrite (H2 n H). apply H1, H. Qed.

Lemma same_outside_store (S : string -> Prop) name m d :
  S name -> same_outside S d (set_model name m d).
Proof.
  intros HS n Hn. apply lookup_model_set_other. intros ->. exact (Hn HS).
Qed.

(** What a relation on registries that holds across every update of an
    entry of [S] gives for the traversal. *)
Section Registry.

Variable metadata : Metadata.
Variable model : ModelClass.
Variable np_log : Q -> Q.

Variable R :
  list (string * FittedModel) -> list (string * FittedModel) -> Prop.
Hypothesis R_refl : forall d, R d d.
Hypothesis R_trans : forall a b c, R a b -> R b c -> R a c.

Variable S : string -> Prop.
Hypothesis R_store : forall name m d, S name -> R d (set_model name m d).

Lemma quiet_respects {A : Type} (c : M A) : quiet c -> respects R c.
Proof. intros H w. rewrite H. apply R_refl. Qed.

Lemma respects_bind {A B : Type} (c : M A) (k : A -> M B) :
  respects R c -> (forall a, respects R (k a)) -> respects R (bind c k).
Proof.
  intros Hc Hk w. unfold bind. specialize (Hc w).
  destruct (c w) as [[a|e] w1]; simpl in *.
  - eapply R_trans; [exact Hc | apply Hk].
  - exact Hc.
Qed.

Lemma respects_store name m : S name -> respects R (store_model name m).
Proof. intros HS w. simpl. apply R_store, HS. Qed.

Lemma extend_with_child_respects recur table_name child_name extended :
  (forall k, respects R (recur child_name k)) ->
  respects R (extend_with_child metadata model np_log recur table_name
                                child_name extended).
Proof.
  intros Hrec. unfold extend_with_child.
  apply respects_bind; [apply Hrec|]. intro.
  apply quiet_respects.
  apply quiet_bind; [apply quiet_get_extension|]. intro.
  apply quiet_bind; [apply quiet_read|]. intro.
  apply quiet_bind; [apply quiet_read|]. intro.
  apply quiet_bind; [apply quiet_alloc|]. intro.
  apply quiet_bind; [apply quiet_fill_child_rows|]. intro.
  apply quiet_ret.
Qed.

Lemma extend_with_children_respects recur table_name children :
  (forall c k, In c children -> respects R (recur c k)) ->
  forall extended,
    respects R (extend_with_children metadata model np_log recur table_name
                                     children extended).
Proof.
  induction children as [|c rest IH]; intros Hrec extended; simpl.
  - apply quiet_respects, quiet_ret.
  - apply respects_bind.
    + apply extend_with_child_respects. intros k. apply Hrec. left. reflexivity.
    + intros e. apply IH. intros c' k Hin. apply Hrec. right. exact Hin.
Qed.

Lemma cpa_tail_quiet table_name table extended foreign_key :
  quiet (match truthy (get_primary_key metadata table_name) with
         | Some _ => restore_primary_key extended
         | None => ret tt
         end ;;;
         match truthy foreign_key with
         | Some key => attach_foreign_key table extended key
         | None => ret tt
         end ;;;
         ret extended).
Proof.
  apply quiet_bind.
  - destruct (truthy (get_primary_key metadata table_name));
      [apply quiet_restore_primary_key | apply quiet_ret].
  - intros _. apply quiet_bind; [|intros _; apply quiet_ret].
    destruct (truthy foreign_key);
      [apply quiet_attach_foreign_key | apply quiet_ret].
Qed.

Lemma cpa_body_respects recur table_name tables foreign_key :
  S table_name ->
  (forall key c k,
     truthy (get_primary_key metadata table_name) = Some key ->
     In c (get_children metadata table_name) ->
     respects R (recur c k)) ->
  respects R (cpa_body metadata model np_log recur table_name tables
                       foreign_key).
Proof.
  intros HS Hrec. unfold cpa_body.
  apply respects_bind; [apply quiet_respects, quiet_emit|]. intros _.
  apply respects_bind; [apply quiet_respects, quiet_resolve_table|].
  intros table.
  apply respects_bind; [apply quiet_respects, quiet_read|]. intros table_now.
  apply respects_bind; [apply quiet_respects, quiet_lift|]. intros transformed.
  apply respects_bind; [apply quiet_respects, quiet_alloc|]. intros extended.
  apply respects_bind.
  - destruct (truthy (get_primary_key metadata table_name)) as [key|] eqn:Hk.
    + apply respects_bind;
        [apply quiet_respects, quiet_index_by_primary_key|].
      intros _. apply extend_with_children_respects.
      intros c k Hin. eapply Hrec; [reflexivity | exact Hin].
    + apply quiet_respects, quiet_ret.
  - intros extended'.
    apply respects_bind; [apply quiet_respects, quiet_fit_model|].
    intros fitted.
    apply respects_bind; [apply respects_store, HS|]. intros _.
    apply quiet_respects, cpa_tail_quiet.
Qed.

Lemma cpa_respects fuel : forall table_name tables foreign_key,
  (forall d, visits metadata table_name d -> S d) ->
  respects R (cpa metadata model np_log fuel table_name tables foreign_key).
Proof.
  induction fuel as [|fuel IH]; intros table_name tables foreign_key HS.
  - simpl. apply quiet_respects, quiet_raise.
  - simpl. apply cpa_body_respects.
    + apply HS, visits_self.
    + intros key c k Hk Hin. apply IH. intros d Hd. apply HS.
      eapply visits_child; eassumption.
Qed.

Lemma for_each_respects {A : Type} (l : list A) (body : A -> M unit) :
  (forall x, In x l -> respects R (body x)) -> respects R (for_each l body).
Proof.
  induction l as [|x l IH]; intros H; simpl.
  - apply quiet_respects, quiet_ret.
  - apply respects_bind; [apply H; left; reflexivity|].
    intros _. apply IH. intros y Hy. apply H. right. exact Hy.
Qed.

Lemma model_database_respects fuel tables :
  (forall t d, In t (get_tables metadata) ->
               get_parents metadata t = [] ->
               visits metadata t d -> S d) ->
  respects R (model_database metadata model np_log fuel tables).
Proof.
  intros HS. unfold model_database.
  apply respects_bind; [|intros _; apply quiet_respects, quiet_emit].
  apply for_each_respects. intros t Hin.
  destruct (get_parents metadata t) as [|p ps] eqn:Hp.
  - apply respects_bind; [|intros _; apply quiet_respects, quiet_ret].
    apply cpa_respects. intros d Hd. exact (HS t d Hin Hp Hd).
  - apply quiet_respects, quiet_ret.
Qed.

End Registry.

Lemma respects_run {A : Type}
    (R : list (string * FittedModel) -> list (string * FittedModel) -> Prop)
    (c : M A) w r w' :
  respects R c -> c w = (r, w') -> R (models w) (models w').
Proof. intros H E. specialize (H w). rewrite E in H. exact H. Qed.

Lemma has_model_kept {A : Type} (c : M A) w r w' n :
  respects entries_kept c -> c w = (r, w') ->
  has_model n w -> has_model n w'.
Proof. intros H E. exact (respects_run _ _ _ _ _ H E n). Qed.

Lemma has_model_quiet {A : Type} (c : M A) w r w' n :
  quiet c -> c w = (r, w') -> has_model n w -> has_model n w'.
Proof.
  intros H. apply has_model_kept.
  apply quiet_respects; [exact entries_kept_refl | exact H].
Qed.

Section RegistryProperties.

Variable metadata : Metadata.
Variable model : ModelClass.
Variable np_log : Q -> Q.

Lemma cpa_keeps_entries fuel table_name tables foreign_key :
  respects entries_kept
    (cpa metadata model np_log fuel table_name tables foreign_key).
Proof.
  apply (cpa_respects metadata model np_log entries_kept
           entries_kept_refl entries_kept_trans (fun _ => True)).
  - intros name m d _. apply entries_kept_store.
  - intros d _. exact I.
Qed.

(** Every child of the loop has been modelled by a call that returned,
    and what that call registered is still there after the loop. *)
Lemma extend_with_children_calls recur table_name children :
  (forall c k, respects entries_kept (recur c k)) ->
  forall extended w r w' c,
    extend_with_children metadata model np_log recur table_name children
                         extended w = (Ok r, w') ->
    In c children ->
    exists wa rb wb,
      recur c (get_foreign_key metadata table_name c) wa = (Ok rb, wb)
      /\ forall n, has_model n wb -> has_model n w'.
Proof.
  intros Hrec.
  induction children as [|c0 rest IH]; intros extended w r w' c H Hin;
    [destruct Hin|].
  simpl in H. apply bind_ok in H. destruct H as [e1 [w1 [H1 H2]]].
  destruct Hin as [<-|Hin].
  - unfold extend_with_child in H1. apply bind_ok in H1.
    destruct H1 as [ct [wb [Hcall Hrest]]].
    exists w, ct, wb. split; [exact Hcall|]. intros n Hn.
    eapply has_model_kept; [|exact H2|].
    { apply (extend_with_children_respects metadata model np_log
               entries_kept entries_kept_refl entries_kept_trans).
      intros c' k _. apply Hrec. }
    eapply has_model_quiet; [|exact Hrest|exact Hn].
    apply quiet_bind; [apply quiet_get_extension|]. intro.
    apply quiet_bind; [apply quiet_read|]. intro.
    apply quiet_bind; [apply quiet_read|]. intro.
    apply quiet_bind; [apply quiet_alloc|]. intro.
    apply quiet_bind; [apply quiet_fill_child_rows|]. intro.
    apply quiet_ret.
  - exact (IH _ _ _ _ _ H2 Hin).
Qed.

(** The steps of a call of [cpa] that returned: the loop over the
    children (when there is a primary key), the registration, and the
    rest, which leaves the registry alone. *)
Lemma cpa_body_steps recur table_name tables foreign_key w r w' :
  cpa_body metadata model np_log recur table_name tables foreign_key w
  = (Ok r, w') ->
  exists w5 extended w6 fitted,
    (forall key,
       truthy (get_primary_key metadata table_name) = Some key ->
       exists e0 wi,
         extend_with_children metadata model np_log recur table_name
           (get_children metadata table_name) e0 wi = (Ok extended, w5))
    /\ (truthy (get_primary_key metadata table_name) = None ->
        models w5 = models w)
    /\ models w6 = models w5
    /\ models w' = set_model table_name fitted (models w6).
Proof.
  intros H. unfold cpa_body in H.
  apply bind_ok in H. destruct H as [u0 [w1 [H0 H]]].
  apply bind_ok in H. destruct H as [table [w2 [Hres H]]].
  apply bind_ok in H. destruct H as [table_now [w3 [Hread H]]].
  apply bind_ok in H. destruct H as [transformed [w4 [Htr H]]].
  apply bind_ok in H. destruct H as [e0 [w4' [Hal H]]].
  apply bind_ok in H. destruct H as [extended [w5 [Hloop H]]].
  apply bind_ok in H. destruct H as [fitted [w6 [Hfit H]]].
  apply bind_ok in H. destruct H as [u1 [w7 [Hstore H]]].
  exists w5, extended, w6, fitted.
  assert (Hpre : models w4' = models w).
  { pose proof (quiet_emit (Info ("Modeling " ++ table_name)) w) as Q0.
    rewrite H0 in Q0. simpl in Q0.
    pose proof (quiet_resolve_table metadata table_name tables w1) as Q1.
    rewrite Hres in Q1. simpl in Q1.
    apply read_ok in Hread. destruct Hread as [_ ->].
    apply lift_ok in Htr. destruct Htr as [_ ->].
    apply alloc_ok in Hal. destruct Hal as [_ ->]. simpl. congruence. }
  split.
  { intros key Hk. rewrite Hk in Hloop. apply bind_ok in Hloop.
    destruct Hloop as [u [wi [_ Hloop]]]. exists e0, wi. exact Hloop. }
  split.
  { intros Hk. rewrite Hk in Hloop.
    apply ret_ok in Hloop. destruct Hloop as [_ ->]. exact Hpre. }
  split.
  { pose proof (quiet_fit_model model extended w5) as Q. rewrite Hfit in Q.
    exact Q. }
  apply store_model_ok in Hstore.
  pose proof (cpa_tail_quiet metadata table_name table extended foreign_key w7)
    as Q.
  rewrite H in Q. simpl in Q. rewrite Q, Hstore. reflexivity.
Qed.

Lemma cpa_registers fuel : forall table_name tables foreign_key w r w' d,
  cpa metadata model np_log fuel table_name tables foreign_key w
  = (Ok r, w') ->
  visits metadata table_name d ->
  has_model d w'.
Proof.
  induction fuel as [|fuel IH];
    intros table_name tables foreign_key w r w' d H Hv; [discriminate|].
  simpl in H. apply cpa_body_steps in H.
  destruct H as [w5 [extended [w6 [fitted [Hloop [_ [H6 H7]]]]]]].
  unfold has_model. rewrite H7.
  inversion Hv as [t|t key c d' Hk Hin Hc]; subst.
  - rewrite lookup_model_set_same. discriminate.
  - apply entries_kept_store. rewrite H6.
    destruct (Hloop key Hk) as [e0 [wi Hrun]].
    destruct (extend_with_children_calls _ table_name _
                (fun c k => cpa_keeps_entries fuel c tables k)
                _ _ _ _ c Hrun Hin)
      as [wa [rb [wb [Hcall Hkeep]]]].
    apply Hkeep. exact (IH _ _ _ _ _ _ _ Hcall Hc).
Qed.

(** X10: a call of [cpa] that returns has registered a model for the
    table and for every table it went through (the children, their
    children and so on, as long as the parent has a primary key), and
    no entry that was in [self.models] before the call is lost. *)
Theorem cpa_registers_visited fuel table_name tables foreign_key w r w' :
  cpa metadata model np_log fuel table_name tables foreign_key w
  = (Ok r, w') ->
  (forall d, visits metadata table_name d -> has_model d w')
  /\ (forall n, has_model n w -> has_model n w').
Proof.
  intros H. split.
  - intros d Hd. exact (cpa_registers _ _ _ _ _ _ _ _ H Hd).
  - intros n. exact (has_model_kept _ _ _ _ _ (cpa_keeps_entries _ _ _ _) H).
Qed.

Lemma for_each_calls {A : Type} (body : A -> M unit) (l : list A) :
  (forall x, respects entries_kept (body x)) ->
  forall w u w' x,
    for_each l body w = (Ok u, w') ->
    In x l ->
    exists wa ub wb,
      body x wa = (Ok ub, wb)
      /\ forall n, has_model n wb -> has_model n w'.
Proof.
  intros Hbody.
  induction l as [|x0 l IH]; intros w u w' x H Hin; [destruct Hin|].
  simpl in H. apply bind_ok in H. destruct H as [u1 [w1 [H1 H2]]].
  destruct Hin as [<-|Hin].
  - exists w, u1, w1. split; [exact H1|]. intros n.
    eapply has_model_kept; [|exact H2].
    apply (for_each_respects entries_kept entries_kept_refl
             entries_kept_trans).
    intros y _. apply Hbody.
  - exact (IH _ _ _ _ H2 Hin).
Qed.

Lemma model_database_body_keeps fuel tables table_name :
  respects entries_kept
    (match get_parents metadata table_name with
     | [] => cpa metadata model np_log fuel table_name tables None ;;; ret tt
     | _ => ret tt
     end).
Proof.
  destruct (get_parents metadata table_name).
  - apply (respects_bind entries_kept entries_kept_trans).
    + apply cpa_keeps_entries.
    + intros _. apply (quiet_respects entries_kept entries_kept_refl).
      apply quiet_ret.
  - apply (quiet_respects entries_kept entries_kept_refl). apply quiet_ret.
Qed.

(** X11: when [model_database] returns, every table without parents
    and every table reached from one of them has a model in
    [self.models]. *)
Theorem model_database_registers fuel tables w u w' table_name d :
  model_database metadata model np_log fuel tables w = (Ok u, w') ->
  In table_name (get_tables metadata) ->
  get_parents metadata table_name = [] ->
  visits metadata table_name d ->
  has_model d w'.
Proof.
  intros H Hin Hroot Hv. unfold model_database in H.
  apply bind_ok in H. destruct H as [u1 [w1 [Hloop Hemit]]].
  eapply has_model_quiet; [apply quiet_emit | exact Hemit |].
  destruct (for_each_calls _ _ (model_database_body_keeps fuel tables)
              _ _ _ _ Hloop Hin)
    as [wa [ub [wb [Hcall Hkeep]]]].
  apply Hkeep. rewrite Hroot in Hcall.
  apply bind_ok in Hcall. destruct Hcall as [r [w2 [Hcpa Hret]]].
  apply ret_ok in Hret. destruct Hret as [_ ->].
  exact (cpa_registers _ _ _ _ _ _ _ _ Hcpa Hv).
Qed.

(** X12: whatever its outcome, a call of [cpa] changes [self.models]
    only at the tables it goes through; the entry of any other name is
    what it was. *)
Theorem cpa_registry_frame fuel table_name tables foreign_key w r w' n :
  cpa metadata model np_log fuel table_name tables foreign_key w = (r, w') ->
  ~ visits metadata table_name n ->
  lookup_model n (models w') = lookup_model n (models w).
Proof.
  intros H Hn.
  refine (respects_run (same_outside (visits metadata table_name))
            _ _ _ _ _ H n Hn).
  apply (cpa_respects metadata model np_log
           (same_outside (visits metadata table_name))
           (same_outside_refl _) (same_outside_trans _)
           (visits metadata table_name)).
  - intros name m d. apply same_outside_store.
  - intros d Hd. exact Hd.
Qed.

(** X13: a cycle in the schema.  When the tables [S] all have a primary
    key and a child in [S], a call of [cpa] on a table of [S] cannot
    return a table, however deep the recursion is allowed to go: there
    is no record of the tables already visited. *)
Theorem cpa_cycle_never_returns (S : string -> Prop) tables :
  (forall t, S t ->
     exists key c,
       truthy (get_primary_key metadata t) = Some key
       /\ In c (get_children metadata t)
       /\ S c) ->
  forall fuel table_name foreign_key w,
    S table_name ->
    exists e w',
      cpa metadata model np_log fuel table_name tables foreign_key w
      = (Raise e, w').
Proof.
  intros Hcycle.
  induction fuel as [|fuel IH]; intros table_name foreign_key w HS.
  - exists RecursionError, w. reflexivity.
  - destruct (cpa metadata model np_log (Datatypes.S fuel) table_name tables
                  foreign_key w) as [[r|e] w'] eqn:H.
    + exfalso. simpl in H. apply cpa_body_steps in H.
      destruct H as [w5 [extended [w6 [fitted [Hloop _]]]]].
      destruct (Hcycle _ HS) as [key [c [Hk [Hin Hc]]]].
      destruct (Hloop key Hk) as [e0 [wi Hrun]].
      destruct (extend_with_children_calls _ table_name _
                  (fun c k => cpa_keeps_entries fuel c tables k)
                  _ _ _ _ c Hrun Hin)
        as [wa [rb [wb [Hcall _]]]].
      destruct (IH c (get_foreign_key metadata table_name c) wa Hc)
        as [e [w'' Hfail]].
      rewrite Hfail in Hcall. discriminate.
    + exists e, w'. reflexivity.
Qed.

End RegistryProperties.

Lemma cpa_registers_visited_witness :
  has_model "users" (snd Scenario.run_users)
  /\ has_model "orders" (snd Scenario.run_users)
  /\ has_model "payments"
       (snd (cpa Scenario.metadata Scenario.model_class Scenario.log_one 2
                 "users" None None Scenario.with_payments_model)).
Proof.
  assert (Hv : visits Scenario.metadata "users" "orders").
  { apply (visits_child Scenario.metadata "users" "id" "orders" "orders").
    - reflexivity.
    - left. reflexivity.
    - apply visits_self. }
  destruct (cpa_registers_visited Scenario.metadata Scenario.model_class
              Scenario.log_one 2 "users" None None Scenario.empty_world
              (match fst Scenario.run_users with Ok r => r | Raise _ => 0 end)
              (snd Scenario.run_users))
    as [H _]; [vm_compute; reflexivity|].
  split; [apply H, visits_self|]. split; [apply H, Hv|].
  set (out := cpa Scenario.metadata Scenario.model_class Scenario.log_one 2
                  "users" None None Scenario.with_payments_model).
  destruct (cpa_registers_visited Scenario.metadata Scenario.model_class
              Scenario.log_one 2 "users" None None
              Scenario.with_payments_model
              (match fst out with Ok r => r | Raise _ => 0 end)
              (snd out))
    as [_ H2]; [vm_compute; reflexivity|].
  apply H2. vm_compute. discriminate.
Defined.

Lemma model_database_registers_witness :
  has_model "orders"
    (snd (model_database Scenario.metadata Scenario.model_class
            Scenario.log_one 2 None Scenario.empty_world)).
Proof.
  apply (model_database_registers Scenario.metadata Scenario.model_class
           Scenario.log_one 2 None Scenario.empty_world tt
           (snd (model_database Scenario.metadata Scenario.model_class
                   Scenario.log_one 2 None Scenario.empty_world))
           "users" "orders").
  - vm_compute. reflexivity.
  - left. reflexivity.
  - reflexivity.
  - apply (visits_child Scenario.metadata "users" "id" "orders" "orders").
    + reflexivity.
    + left. reflexivity.
    + apply visits_self.
Defined.

Lemma users_never_visit_payments :
  ~ visits Scenario.metadata "users" "payments".
Proof.
  intros H. inversion H as [|t key c d Hk Hin Hc]; subst.
  simpl in Hin. destruct Hin as [<-|[]].
  inversion Hc as [|t key2 c d Hk2 Hin2 Hc2]; subst.
  simpl in Hin2. destruct Hin2.
Qed.

Lemma cpa_registry_frame_witness :
  lookup_model "payments"
    (models (snd (cpa Scenario.metadata Scenario.model_class
                      Scenario.log_one 2 "users" None None
                      Scenario.with_payments_model)))
  = Some (mkFittedModel [] [] []).
Proof.
  set (out := cpa Scenario.metadata Scenario.model_class Scenario.log_one 2
                  "users" None None Scenario.with_payments_model).
  rewrite (cpa_registry_frame Scenario.metadata Scenario.model_class
             Scenario.log_one 2 "users" None None
             Scenario.with_payments_model (fst out) (snd out) "payments").
  - reflexivity.
  - apply surjective_pairing.
  - exact users_never_visit_payments.
Defined.

Lemma cpa_cycle_never_returns_witness :
  fst (cpa Scenario.reporting Scenario.model_class Scenario.log_one 5
           "employees" None None Scenario.empty_world)
  = Raise RecursionError
  /\ exists e w',
       cpa Scenario.reporting Scenario.model_class Scenario.log_one 5
           "employees" None None Scenario.empty_world
       = (Raise e, w').
Proof.
  split; [vm_compute; reflexivity|].
  apply (cpa_cycle_never_returns Scenario.reporting Scenario.model_class
           Scenario.log_one (fun t => t = "employees") None).
  - intros t ->. exists "id", "employees".
    split; [reflexivity|]. split; [left; reflexivity | reflexivity].
  - reflexivity.
Defined.

(** ** Rows are neither duplicated nor dropped *)

Lemma scalar_eqb_sym s t : scalar_eqb s t = true -> scalar_eqb t s = true.
Proof.
  unfold scalar_eqb.
  destruct (scalar_number s) as [x|] eqn:Hs, (scalar_number t) as [y|] eqn:Ht;
    try discriminate.
  - apply Qeq_bool_sym.
  - destruct s, t; try discriminate; auto.
    intros H. apply String.eqb_eq in H. subst. apply String.eqb_refl.
Qed.

Lemma scalar_eqb_trans s t u :
  scalar_eqb s t = true -> scalar_eqb t u = true -> scalar_eqb s u = true.
Proof.
  unfold scalar_eqb.
  destruct (scalar_number s) as [x|] eqn:Hs, (scalar_number t) as [y|] eqn:Ht;
    try discriminate;
    destruct (scalar_number u) as [z|] eqn:Hu; try discriminate.
  - apply Qeq_bool_trans.
  - destruct s, t; try discriminate; destruct u; try discriminate; auto.
    intros H1 H2. apply String.eqb_eq in H1, H2. subst. apply String.eqb_refl.
Qed.

Lemma scalar_eqb_refl s : scalar_eqb s s = true.
Proof.
  unfold scalar_eqb. destruct s as [|[|]|q|x]; simpl;
    auto using Qeq_bool_refl, String.eqb_refl.
Qed.

Lemma value_eqb_sym : forall a b,
  value_eqb a b = true -> value_eqb b a = true.
Proof.
  unfold value_eqb.
  induction a as [s|items IH|elems IH|elems IH] using value_nested_ind;
    intros b; destruct b as [t|items'|elems'|elems']; simpl;
    try discriminate.
  - apply scalar_eqb_sym.
  - revert items'. induction IH as [|[k x] xs Hx _ IHxs];
      intros [|[l y] ys]; simpl; try discriminate; auto.
    rewrite !Bool.andb_true_iff. intros [[Hk Hv] Hr].
    split; [split|].
    + rewrite String.eqb_sym. exact Hk.
    + apply Hx, Hv.
    + apply IHxs, Hr.
  - revert elems'. induction IH as [|x xs Hx _ IHxs];
      intros [|y ys]; simpl; try discriminate; auto.
    rewrite !Bool.andb_true_iff. intros [Hv Hr].
    split; [apply Hx, Hv | apply IHxs, Hr].
  - revert elems'. induction IH as [|x xs Hx _ IHxs];
      intros [|y ys]; simpl; try discriminate; auto.
    rewrite !Bool.andb_true_iff. intros [Hv Hr].
    split; [apply Hx, Hv | apply IHxs, Hr].
Qed.

Lemma value_eqb_trans : forall a b c,
  value_eqb a b = true -> value_eqb b c = true -> value_eqb a c = true.
Proof.
  unfold value_eqb.
  induction a as [s|items IH|elems IH|elems IH] using value_nested_ind;
    intros b c; destruct b as [t|items'|elems'|elems']; simpl;
    try discriminate;
    destruct c as [u|items''|elems''|elems'']; simpl; try discriminate.
  - apply scalar_eqb_trans.
  - revert items' items''. induction IH as [|[k x] xs Hx _ IHxs];
      intros [|[l y] ys] [|[m z] zs]; simpl; try discriminate; auto.
    rewrite !Bool.andb_true_iff. intros [[Hk Hv] Hr] [[Hk' Hv'] Hr'].
    split; [split|].
    + apply String.eqb_eq in Hk, Hk'. subst. apply String.eqb_refl.
    + exact (Hx _ _ Hv Hv').
    + exact (IHxs _ _ Hr Hr').
  - revert elems' elems''. induction IH as [|x xs Hx _ IHxs];
      intros [|y ys] [|z zs]; simpl; try discriminate; auto.
    rewrite !Bool.andb_true_iff. intros [Hv Hr] [Hv' Hr'].
    split; [exact (Hx _ _ Hv Hv') | exact (IHxs _ _ Hr Hr')].
  - revert elems' elems''. induction IH as [|x xs Hx _ IHxs];
      intros [|y ys] [|z zs]; simpl; try discriminate; auto.
    rewrite !Bool.andb_true_iff. intros [Hv Hr] [Hv' Hr'].
    split; [exact (Hx _ _ Hv Hv') | exact (IHxs _ _ Hr Hr')].
Qed.

Lemma cell_eqb_sym a b : cell_eqb a b = true -> cell_eqb b a = true.
Proof.
  destruct a, b; simpl; try discriminate; auto. apply value_eqb_sym.
Qed.

Lemma cell_eqb_trans a b c :
  cell_eqb a b = true -> cell_eqb b c = true -> cell_eqb a c = true.
Proof.
  destruct a, b; simpl; try discriminate; destruct c; simpl;
    try discriminate; auto.
  apply value_eqb_trans.
Qed.

Lemma ordered_pairs_snoc {A : Type} (R : A -> A -> Prop) l x :
  ForallOrdPairs R l -> Forall (fun a => R a x) l ->
  ForallOrdPairs R (l ++ [x]).
Proof.
  induction 1 as [|a l Ha Hl IH]; simpl; intros HF.
  - constructor; constructor.
  - inversion HF; subst. constructor.
    + apply Forall_app. split; [exact Ha|]. constructor; [assumption|constructor].
    + apply IH. assumption.
Qed.

(** No element of [distinct eqb l] is equal to an earlier one. *)
Lemma distinct_apart_from {A : Type} (eqb : A -> A -> bool) (l : list A) :
  forall acc,
    ForallOrdPairs (fun a b => eqb b a = false) acc ->
    ForallOrdPairs (fun a b => eqb b a = false)
      (fold_left (fun acc x => if existsb (eqb x) acc then acc else acc ++ [x])
                 l acc).
Proof.
  induction l as [|x l IH]; intros acc H; simpl; [exact H|].
  apply IH. destruct (existsb (eqb x) acc) eqn:E; [exact H|].
  apply ordered_pairs_snoc; [exact H|].
  apply Forall_forall. intros y Hy.
  destruct (eqb x y) eqn:E2; [|reflexivity].
  assert (Hex : existsb (eqb x) acc = true).
  { apply existsb_exists. exists y. auto. }
  congruence.
Qed.

Lemma distinct_apart {A : Type} (eqb : A -> A -> bool) (l : list A) :
  ForallOrdPairs (fun a b => eqb b a = false) (distinct eqb l).
Proof. apply distinct_apart_from. constructor. Qed.

Lemma filter_enumerate_length {A : Type} (f : A -> bool) (l : list A) :
  forall start,
    length (filter (fun il => f (snd il)) (enumerate_from start l))
    = length (filter f l).
Proof.
  induction l as [|x l IH]; intros start; simpl; [reflexivity|].
  destruct (f x); simpl; rewrite IH; reflexivity.
Qed.

Lemma filter_none {A : Type} (f : A -> bool) (l : list A) :
  (forall x, In x l -> f x = false) -> filter f l = [].
Proof.
  induction l as [|x l IH]; intros H; simpl; [reflexivity|].
  rewrite (H x) by (left; reflexivity).
  apply IH. intros y Hy. apply H. right. exact Hy.
Qed.

(** Among labels that are apart from each other, a label is found at
    one position at most. *)
Lemma positions_of_apart label labels :
  ForallOrdPairs (fun a b => cell_eqb b a = false) labels ->
  length (positions_of label labels) <= 1.
Proof.
  unfold positions_of, enumerate. rewrite length_map.
  rewrite (filter_enumerate_length (fun x => cell_eqb x label)).
  induction 1 as [|a l Ha Hl IH]; simpl; [lia|].
  destruct (cell_eqb a label) eqn:E; [|exact IH].
  rewrite filter_none; [simpl; lia|].
  intros b Hb. rewrite Forall_forall in Ha. specialize (Ha b Hb).
  destruct (cell_eqb b label) eqn:E2; [|reflexivity].
  rewrite (cell_eqb_trans b label a E2 (cell_eqb_sym _ _ E)) in Ha.
  discriminate.
Qed.

Lemma left_join_rows_from right :
  (forall label, length (positions_of label right) <= 1) ->
  forall left start,
    map fst (flat_map (fun il =>
                         match positions_of (snd il) right with
                         | [] => [(fst il, None)]
                         | ps => map (fun j => (fst il, Some j)) ps
                         end)
                      (enumerate_from start left))
    = seq start (length left).
Proof.
  intros H. induction left as [|a left IH]; intros start; simpl;
    [reflexivity|].
  rewrite map_app, IH. specialize (H a).
  destruct (positions_of a right) as [|j [|j' js]]; simpl in *;
    [reflexivity | reflexivity | lia].
Qed.

(** Every row of the left frame is met once in a left join with labels
    that are apart from each other. *)
Lemma left_join_rows left right :
  ForallOrdPairs (fun a b => cell_eqb b a = false) right ->
  map fst (left_join left right) = seq 0 (length left).
Proof.
  intros H. unfold left_join, enumerate. apply left_join_rows_from.
  intros label. apply positions_of_apart, H.
Qed.

Lemma map_nth_seq {A : Type} (d : A) (l : list A) :
  map (fun i => nth i l d) (seq 0 (length l)) = l.
Proof.
  induction l as [|x l IH]; simpl; [reflexivity|].
  f_equal. rewrite <- seq_shift, map_map. exact IH.
Qed.

Lemma existsb_all_some {A : Type} (f : A -> nat) (l : list A) :
  existsb (fun p : option nat => match p with None => true | Some _ => false end)
          (map (fun x => Some (f x)) l) = false.
Proof. induction l; simpl; auto. Qed.

Lemma apart_front {A : Type} (eqb : A -> A -> bool) x l : forall acc,
  ForallOrdPairs (fun a b => eqb b a = false) (acc ++ x :: l) ->
  existsb (eqb x) acc = false.
Proof.
  induction acc as [|a acc IH]; simpl; intros H; [reflexivity|].
  inversion H as [|? ? Ha Hrest]; subst.
  rewrite Forall_forall in Ha.
  rewrite (Ha x) by (apply in_or_app; right; left; reflexivity).
  apply IH, Hrest.
Qed.

Lemma apart_distinct_from {A : Type} (eqb : A -> A -> bool) (l : list A) :
  forall acc,
    ForallOrdPairs (fun a b => eqb b a = false) (acc ++ l) ->
    fold_left (fun acc x => if existsb (eqb x) acc then acc else acc ++ [x])
              l acc
    = acc ++ l.
Proof.
  induction l as [|x l IH]; intros acc H; simpl.
  - rewrite app_nil_r. reflexivity.
  - rewrite (apart_front eqb x l acc H).
    rewrite IH; rewrite <- app_assoc; [reflexivity | exact H].
Qed.

(** Labels that are apart from each other are their own distinct
    labels. *)
Lemma apart_distinct {A : Type} (eqb : A -> A -> bool) (l : list A) :
  ForallOrdPairs (fun a b => eqb b a = false) l -> distinct eqb l = l.
Proof. intros H. apply (apart_distinct_from eqb l []). exact H. Qed.

Lemma distinct_shape {A : Type} (eqb : A -> A -> bool) (l : list A) :
  forall acc, exists l',
    fold_left (fun acc x => if existsb (eqb x) acc then acc else acc ++ [x])
              l acc
    = acc ++ l'
    /\ length l' <= length l
    /\ (length l' = length l -> l' = l).
Proof.
  induction l as [|x l IH]; intros acc; simpl.
  - exists []. rewrite app_nil_r. auto.
  - destruct (existsb (eqb x) acc).
    + destruct (IH acc) as [l' [H [Hle _]]]. exists l'.
      split; [exact H|]. split; [lia|]. intros Heq. lia.
    + destruct (IH (acc ++ [x])) as [l' [H [Hle Heq]]]. exists (x :: l').
      rewrite H, <- app_assoc. split; [reflexivity|]. simpl.
      split; [lia|]. intros Hl. f_equal. apply Heq. lia.
Qed.

Lemma apart_no_duplicates labels :
  ForallOrdPairs (fun a b => cell_eqb b a = false) labels ->
  has_duplicates labels = false.
Proof.
  intros H. unfold has_duplicates. rewrite (apart_distinct _ _ H).
  rewrite Nat.eqb_refl. reflexivity.
Qed.

Lemma no_duplicates_apart labels :
  has_duplicates labels = false ->
  ForallOrdPairs (fun a b => cell_eqb b a = false) labels.
Proof.
  unfold has_duplicates. intros H. apply Bool.negb_false_iff in H.
  apply Nat.eqb_eq in H.
  destruct (distinct_shape cell_eqb labels []) as [l' [Hd [_ Heq]]].
  simpl in Hd. unfold distinct in H. rewrite Hd in H.
  rewrite <- (Heq H), <- Hd. apply distinct_apart.
Qed.

Lemma unique_no_duplicates s : has_duplicates (unique s) = false.
Proof. apply apart_no_duplicates, distinct_apart. Qed.

Lemma join_sorts_false left right :
  has_duplicates left = false -> has_duplicates right = false ->
  join_sorts left right = false.
Proof.
  intros Hl Hr. unfold join_sorts. rewrite Hl, Hr.
  destruct right; reflexivity.
Qed.

(** Without a repeated label the rows of the left frame are met once
    each and in their order. *)
Lemma join_rows_plain left right :
  has_duplicates left = false -> has_duplicates right = false ->
  map fst (join_rows left right) = seq 0 (length left)
  /\ map snd (join_rows left right)
     = map (fun l => hd_error (positions_of l right)) left.
Proof.
  intros Hl Hr. unfold join_rows. rewrite (join_sorts_false _ _ Hl Hr).
  split; [apply left_join_rows, no_duplicates_apart, Hr|].
  apply no_duplicates_apart in Hr. clear Hl.
  unfold left_join, enumerate. generalize 0.
  induction left as [|a left IH]; intros start; simpl; [reflexivity|].
  rewrite map_app, IH.
  pose proof (positions_of_apart a right Hr) as Hone.
  destruct (positions_of a right) as [|j [|j' js]]; simpl in *;
    [reflexivity | reflexivity | lia].
Qed.

(** The row labels of a frame merged with another one, when neither has
    a repeated label, are its own. *)
Lemma merge_index_apart left right :
  has_duplicates (values (index left)) = false ->
  has_duplicates (values (index right)) = false ->
  index (merge left right) = index left
  /\ index_name (merge left right) = index_name left.
Proof.
  intros Hl Hr.
  assert (Hv : values (index (merge left right)) = values (index left)).
  { rewrite merge_index_values.
    rewrite <- (map_map fst (fun i => nth i (values (index left)) None)).
    rewrite (proj1 (join_rows_plain _ _ Hl Hr)). apply map_nth_seq. }
  assert (Hd : dtype_of (index (merge left right)) = dtype_of (index left)).
  { unfold merge, take. cbn [index dtype_of].
    rewrite existsb_all_some. reflexivity. }
  split.
  - destruct (index (merge left right)), (index left). simpl in *. congruence.
  - unfold merge, joined_name. cbn [index_name].
    rewrite (join_sorts_false _ _ Hl Hr). reflexivity.
Qed.

Lemma extended_by_index left right name G :
  has_duplicates (values (index left)) = false ->
  has_duplicates (values (index right)) = false ->
  extended_by left right name = Ok G ->
  index G = index left /\ index_name G = index_name left.
Proof.
  intros Hl Hr. unfold extended_by.
  destruct (getitem (merge left right) name) as [counts|e]; [|discriminate].
  intros H. injection H as <-. unfold setitem. cbn [index index_name].
  apply merge_index_apart; assumption.
Qed.

Section RowProperties.

Variable metadata : Metadata.
Variable model : ModelClass.
Variable np_log : Q -> Q.

(** The loop over the children keeps the row labels of a table whose
    labels are not repeated. *)
Lemma extend_with_children_index recur table_name children :
  (forall c k, creates (recur c k)) ->
  forall extended w e' w' L,
    nth_error (heap w) extended = Some L ->
    has_duplicates (values (index L)) = false ->
    extend_with_children metadata model np_log recur table_name children
                         extended w = (Ok e', w') ->
    exists G,
      nth_error (heap w') e' = Some G
      /\ index G = index L
      /\ index_name G = index_name L.
Proof.
  intros Hrec.
  induction children as [|c rest IH]; intros extended w e' w' L HL Hu H;
    simpl in H.
  - apply ret_ok in H. destruct H as [-> ->]. exists L. auto.
  - apply bind_ok in H. destruct H as [e1 [w1 [H1 H2]]].
    destruct (extend_with_child_ok metadata model np_log _ _ _ _ _ _ _ _
                Hrec HL H1)
      as [ct [wb [table [key [kc [indexed [rows [G1
            [_ [_ [_ [_ [_ [_ [Hby [HG1 _]]]]]]]]]]]]]]]].
    apply extended_by_index in Hby;
      [|exact Hu
       |unfold frame_of_rows; cbn [index values]; apply unique_no_duplicates].
    destruct Hby as [Hi1 Hn1].
    destruct (IH _ _ _ _ _ HG1 ltac:(rewrite Hi1; exact Hu) H2)
      as [G [HG [Hi Hn]]].
    exists G. split; [exact HG|]. split; congruence.
Qed.

(** X14: the table [cpa] returns for a table whose primary key has no
    repeated value has the rows of the table, one for one and in their
    order: the column of the primary key in the returned table is the
    column of the table that was modelled.  The extension of a child has
    one row per value of the foreign key, so that merging it duplicates
    no row, and the left merge drops none. *)
Theorem cpa_keeps_rows table_name tables foreign_key fuel w key r w' :
  truthy (get_primary_key metadata table_name) = Some key ->
  truthy foreign_key <> Some key ->
  cpa metadata model np_log fuel table_name tables foreign_key w
  = (Ok r, w') ->
  exists raw keys,
    match tables with
    | Some (t :: ts) =>
        exists table,
          lookup_table table_name (t :: ts) = Ok table
          /\ nth_error (heap w) table = Some raw
    | _ => load_table metadata table_name = Ok raw
    end
    /\ getitem raw key = Ok keys
    /\ (has_duplicates (values keys) = false ->
        exists returned,
          nth_error (heap w') r = Some returned
          /\ lookup_column key (columns returned) = Some keys
          /\ nrows returned = length (values keys)).
Proof.
  intros Hkey Hfk1 Hrun. destruct fuel as [|fuel]; [discriminate|].
  simpl in Hrun. unfold cpa_body in Hrun. rewrite Hkey in Hrun.
  set (recur := fun child_name child_key =>
                  cpa metadata model np_log fuel child_name tables child_key)
    in *.
  assert (Hrec : forall c k, creates (recur c k))
    by (intros c k; apply cpa_creates).
  apply bind_ok in Hrun. destruct Hrun as [u [w0 [Hemit Hrun]]].
  apply emit_ok in Hemit. subst w0.
  apply bind_ok in Hrun. destruct Hrun as [table [w1 [Hres Hrun]]].
  apply bind_ok in Hrun. destruct Hrun as [raw [w2 [Hread Hrun]]].
  apply read_ok in Hread. destruct Hread as [Hraw ->].
  apply bind_ok in Hrun. destruct Hrun as [transformed [w2 [Htr Hrun]]].
  apply lift_ok in Htr. destruct Htr as [Htr ->].
  apply bind_ok in Hrun. destruct Hrun as [extended [w2 [Hal Hrun]]].
  apply alloc_ok in Hal. destruct Hal as [-> ->].
  apply bind_ok in Hrun. destruct Hrun as [e1 [w4 [Hloop Hrun]]].
  apply bind_ok in Hloop. destruct Hloop as [u0 [w3 [Hidx Hloop]]].
  destruct (index_by_primary_key_ok _ _ _ _ _ _ Hidx)
    as [raw' [keys [df [G0 [Hraw' [Hkeys [Hdf [Hassign ->]]]]]]]].
  simpl in Hraw', Hdf.
  rewrite (nth_error_app_old _ _ _ _ Hraw) in Hraw'. injection Hraw' as <-.
  rewrite nth_error_app_last in Hdf. injection Hdf as <-.
  apply assign_index_ok in Hassign. subst G0.
  assert (Hsource :
            match tables with
            | Some (t :: ts) =>
                exists table,
                  lookup_table table_name (t :: ts) = Ok table
                  /\ nth_error (heap w) table = Some raw
            | _ => load_table metadata table_name = Ok raw
            end).
  { destruct (resolve_table_ok metadata _ _ _ _ _ Hres)
      as [_ [[t [ts [-> [Hlook ->]]]]|[Hnone [loaded [Hload [-> ->]]]]]].
    - exists table. split; [exact Hlook | exact Hraw].
    - simpl in Hraw. rewrite nth_error_app_last in Hraw.
      injection Hraw as <-.
      destruct Hnone as [->| ->]; exact Hload. }
  exists raw, keys.
  split; [exact Hsource|]. split; [exact Hkeys|]. intros Hu.
  eapply (extend_with_children_index recur table_name
            (get_children metadata table_name) Hrec) in Hloop;
    [|simpl; rewrite replace_nth_app_last; apply nth_error_app_last
     |exact Hu].
  destruct Hloop as [G [HG [Hindex Hname]]]. simpl in Hindex, Hname.
  apply bind_ok in Hrun. destruct Hrun as [fitted [w5 [Hfit Hrun]]].
  destruct (fit_model_ok _ _ _ _ _ _ HG Hfit) as [Gi [Himp [_ ->]]].
  apply bind_ok in Hrun. destruct Hrun as [u1 [w6 [Hst Hrun]]].
  apply store_model_ok in Hst. subst w6.
  apply bind_ok in Hrun. destruct Hrun as [u2 [w7 [Hrs Hrun]]].
  destruct (restore_primary_key_ok _ _ _ _ Hrs)
    as [Gi' [R1 [HGi [Hreset ->]]]].
  simpl in HGi. rewrite (replace_nth_same _ _ _ (nth_error_lt _ _ _ HG)) in HGi.
  injection HGi as <-.
  destruct Himp as [HiGi [HnGi _]].
  assert (HnameGi : index_name Gi = Some key) by congruence.
  assert (HindexGi : index Gi = keys) by congruence.
  destruct (reset_index_ok _ _ _ HnameGi Hreset) as [Hkeycol [Hnrows _]].
  rewrite HindexGi in Hkeycol.
  assert (Hrows : nrows R1 = length (values keys)).
  { rewrite Hnrows. unfold nrows. rewrite HindexGi. reflexivity. }
  apply bind_ok in Hrun. destruct Hrun as [u3 [w8 [Hat Hrun]]].
  apply ret_ok in Hrun. destruct Hrun as [-> ->].
  assert (He1 : e1 < length (replace_nth e1 Gi (heap w4))).
  { rewrite replace_nth_length. eapply nth_error_lt, HG. }
  destruct (truthy foreign_key) as [fkname|] eqn:Hfkey.
  - destruct (attach_foreign_key_inv _ _ _ _ _ _ Hat)
      as [raw2 [fkeys [df2 [R [_ [_ [Hdf2 [Hal ->]]]]]]]].
    simpl in Hdf2. rewrite (replace_nth_same _ _ _ He1) in Hdf2.
    injection Hdf2 as <-.
    destruct (setitem_aligned_ok _ _ _ _ _ Hal) as [Hi' [_ Hother]].
    exists R.
    split; [simpl; apply replace_nth_same; rewrite replace_nth_length;
            exact He1|].
    split; [rewrite Hother; [exact Hkeycol | congruence]|].
    unfold nrows in *. rewrite Hi'. exact Hrows.
  - apply ret_ok in Hat. destruct Hat as [_ ->].
    exists R1.
    split; [simpl; apply replace_nth_same, He1|].
    split; [exact Hkeycol | exact Hrows].
Qed.

End RowProperties.

Lemma cpa_keeps_rows_witness :
  has_duplicates (values (Scenario.int_column [1; 2; 3]%Z)) = false
  /\ exists returned,
       Scenario.frame_of Scenario.run_users = Some returned
       /\ lookup_column "id" (columns returned)
          = Some (Scenario.int_column [1; 2; 3]%Z)
       /\ nrows returned = 3.
Proof.
  split; [reflexivity|].
  destruct (cpa_keeps_rows Scenario.metadata Scenario.model_class
              Scenario.log_one "users" None None 2 Scenario.empty_world "id"
              (match fst Scenario.run_users with Ok r => r | Raise _ => 0 end)
              (snd Scenario.run_users))
    as [raw [keys [Hload [Hkeys Hrows]]]].
  - reflexivity.
  - discriminate.
  - vm_compute. reflexivity.
  - simpl in Hload. injection Hload as <-.
    unfold getitem in Hkeys. simpl in Hkeys. injection Hkeys as <-.
    destruct (Hrows eq_refl) as [returned [Hret [Hcol Hn]]].
    exists returned.
    split; [exact Hret|]. split; [exact Hcol | exact Hn].
Defined.

(** ** The tables that are loaded *)

Lemma emits_nothing {A : Type} allowed (c : M A) :
  (forall w, events (snd (c w)) = events w) -> emits_only allowed c.
Proof.
  intros H w. exists []. rewrite app_nil_r. split; [apply H | reflexivity].
Qed.

Lemma emits_ret {A : Type} allowed (a : A) : emits_only allowed (ret a).
Proof. apply emits_nothing. reflexivity. Qed.

Lemma emits_raise {A : Type} allowed (e : error) :
  emits_only allowed (@raise A e).
Proof. apply emits_nothing. reflexivity. Qed.

Lemma emits_lift {A : Type} allowed (x : result A) :
  emits_only allowed (lift x).
Proof. apply emits_nothing. reflexivity. Qed.

Lemma emits_alloc allowed df : emits_only allowed (alloc df).
Proof. apply emits_nothing. reflexivity. Qed.

Lemma emits_read allowed r : emits_only allowed (read r).
Proof.
  apply emits_nothing. intros w. unfold read.
  destruct (nth_error (heap w) r); reflexivity.
Qed.

Lemma emits_write allowed r df : emits_only allowed (write r df).
Proof. apply emits_nothing. reflexivity. Qed.

Lemma emits_store_model allowed name m :
  emits_only allowed (store_model name m).
Proof. apply emits_nothing. reflexivity. Qed.

Lemma emits_emit (allowed : event -> bool) e :
  allowed e = true -> emits_only allowed (emit e).
Proof.
  intros H w. exists [e]. simpl. rewrite H. split; reflexivity.
Qed.

Lemma emits_bind {A B : Type} allowed (c : M A) (k : A -> M B) :
  emits_only allowed c -> (forall a, emits_only allowed (k a)) ->
  emits_only allowed (bind c k).
Proof.
  intros Hc Hk w. unfold bind. destruct (Hc w) as [new [Hn Ha]].
  destruct (c w) as [[a|e] w1]; simpl in *.
  - destruct (Hk a w1) as [new' [Hn' Ha']].
    exists (new ++ new'). rewrite Hn', Hn, app_assoc. split; [reflexivity|].
    rewrite forallb_app, Ha, Ha'. reflexivity.
  - exists new. auto.
Qed.

Lemma emits_for_each {A : Type} allowed (l : list A) (body : A -> M unit) :
  (forall x, emits_only allowed (body x)) ->
  emits_only allowed (for_each l body).
Proof.
  intros H. induction l as [|x l IH]; simpl.
  - apply emits_ret.
  - apply emits_bind; [apply H | intros _; exact IH].
Qed.

Ltac emits_steps :=
  repeat first
    [ apply emits_ret | apply emits_raise | apply emits_lift
    | apply emits_alloc | apply emits_read | apply emits_write
    | apply emits_store_model
    | apply emits_bind; [|intro]
    | apply emits_for_each; intro
    | progress cbv beta ].

Lemma emits_impute allowed data : emits_only allowed (_impute data).
Proof. unfold _impute, impute_column. emits_steps. Qed.

Lemma emits_fit_model allowed model data :
  emits_only allowed (_fit_model model data).
Proof.
  unfold _fit_model. apply emits_bind; [apply emits_impute|].
  intro. emits_steps.
Qed.

Lemma emits_get_model_dict allowed model np_log data :
  emits_only allowed (_get_model_dict model np_log data).
Proof.
  unfold _get_model_dict. apply emits_bind; [apply emits_fit_model|].
  intro. emits_steps.
Qed.

Lemma emits_extension_rows allowed model np_log child_name child_table vs :
  emits_only allowed (extension_rows model np_log child_name child_table vs).
Proof.
  induction vs as [|v vs IH]; simpl; [apply emits_ret|].
  apply emits_bind.
  - unfold extension_row. apply emits_bind; [apply emits_lift|]. intro.
    apply emits_bind; [apply emits_alloc|]. intro.
    apply emits_bind; [apply emits_get_model_dict|]. intro. apply emits_ret.
  - intro. apply emits_bind; [exact IH|]. intro. apply emits_ret.
Qed.

Lemma emits_get_extension allowed model np_log child_name child_table
    foreign_key :
  emits_only allowed
    (_get_extension model np_log child_name child_table foreign_key).
Proof.
  unfold _get_extension.
  apply emits_bind; [apply emits_read|]. intro.
  apply emits_bind; [apply emits_lift|]. intro.
  apply emits_bind; [apply emits_lift|]. intro.
  apply emits_bind; [apply emits_lift|]. intro.
  apply emits_bind; [apply emits_extension_rows|]. intro.
  apply emits_alloc.
Qed.

Section GivenTables.

Variable metadata : Metadata.
Variable model : ModelClass.
Variable np_log : Q -> Q.

Lemma emits_extend_with_children recur table_name children :
  (forall c k, emits_only is_info (recur c k)) ->
  forall extended,
    emits_only is_info
      (extend_with_children metadata model np_log recur table_name children
                            extended).
Proof.
  intros Hrec. induction children as [|c rest IH]; intros extended; simpl.
  - apply emits_ret.
  - apply emits_bind; [|intro; apply IH].
    unfold extend_with_child, fill_child_rows.
    apply emits_bind; [apply Hrec|]. intro.
    apply emits_bind; [apply emits_get_extension|]. intro.
    emits_steps.
Qed.

Lemma emits_cpa_body recur table_name t ts foreign_key :
  (forall c k, emits_only is_info (recur c k)) ->
  emits_only is_info
    (cpa_body metadata model np_log recur table_name (Some (t :: ts))
              foreign_key).
Proof.
  intros Hrec. unfold cpa_body, resolve_table.
  apply emits_bind; [apply emits_emit; reflexivity|]. intros _.
  apply emits_bind; [apply emits_lift|]. intros table.
  apply emits_bind; [apply emits_read|]. intros table_now.
  apply emits_bind; [apply emits_lift|]. intros transformed.
  apply emits_bind; [apply emits_alloc|]. intros extended.
  apply emits_bind.
  - destruct (truthy (get_primary_key metadata table_name)).
    + apply emits_bind; [unfold index_by_primary_key; emits_steps|].
      intros _. apply emits_extend_with_children, Hrec.
    + apply emits_ret.
  - intros extended'.
    apply emits_bind; [apply emits_fit_model|]. intros fitted.
    apply emits_bind; [apply emits_store_model|]. intros _.
    apply emits_bind.
    + destruct (truthy (get_primary_key metadata table_name));
        [unfold restore_primary_key; emits_steps | apply emits_ret].
    + intros _. apply emits_bind; [|intros _; apply emits_ret].
      destruct (truthy foreign_key);
        [unfold attach_foreign_key; emits_steps | apply emits_ret].
Qed.

Lemma emits_cpa t ts fuel : forall table_name foreign_key,
  emits_only is_info
    (cpa metadata model np_log fuel table_name (Some (t :: ts)) foreign_key).
Proof.
  induction fuel as [|fuel IH]; intros table_name foreign_key; simpl.
  - apply emits_raise.
  - apply emits_cpa_body. intros c k. apply IH.
Qed.

(** X15: when the tables are given (a mapping that is not empty), the
    metadata is never asked to load a table, by [cpa] at any depth or by
    [model_database], whatever the outcome: the only events are logged
    messages. *)
Theorem given_tables_never_loaded t ts fuel :
  (forall table_name foreign_key,
      emits_only is_info
        (cpa metadata model np_log fuel table_name (Some (t :: ts))
             foreign_key))
  /\ emits_only is_info
       (model_database metadata model np_log fuel (Some (t :: ts))).
Proof.
  split; [apply emits_cpa|].
  unfold model_database.
  apply emits_bind; [|intros _; apply emits_emit; reflexivity].
  apply emits_for_each. intros table_name.
  destruct (get_parents metadata table_name); [|apply emits_ret].
  apply emits_bind; [apply emits_cpa | intros _; apply emits_ret].
Qed.

End GivenTables.

(** ** The child counts add up *)

Lemma value_eqb_refl : forall a, value_eqb a a = true.
Proof.
  unfold value_eqb.
  induction a as [s|items IH|elems IH|elems IH] using value_nested_ind;
    simpl.
  - apply scalar_eqb_refl.
  - induction IH as [|[k x] xs Hx _ IHxs]; simpl; [reflexivity|].
    simpl in Hx. rewrite String.eqb_refl, Hx, IHxs. reflexivity.
  - induction IH as [|x xs Hx _ IHxs]; simpl; [reflexivity|].
    rewrite Hx, IHxs. reflexivity.
  - induction IH as [|x xs Hx _ IHxs]; simpl; [reflexivity|].
    rewrite Hx, IHxs. reflexivity.
Qed.

Lemma cell_eqb_refl a : cell_eqb a a = true.
Proof. destruct a; simpl; [apply value_eqb_refl | reflexivity]. Qed.

(** Every element of [l] is equal to an element of [distinct eqb l]. *)
Lemma distinct_covers_from {A : Type} (eqb : A -> A -> bool) :
  (forall a, eqb a a = true) ->
  forall l acc x,
    In x l \/ (exists d, In d acc /\ eqb x d = true) ->
    exists d,
      In d (fold_left (fun acc x =>
                         if existsb (eqb x) acc then acc else acc ++ [x])
                      l acc)
      /\ eqb x d = true.
Proof.
  intros Hrefl.
  induction l as [|a l IH]; intros acc x H; simpl.
  - destruct H as [[]|H]. exact H.
  - apply IH. destruct H as [[<-|H]|[d [Hd Hx]]].
    + right. destruct (existsb (eqb a) acc) eqn:E.
      * apply existsb_exists in E. exact E.
      * exists a. split; [apply in_or_app; right; left; reflexivity|].
        apply Hrefl.
    + left. exact H.
    + right. exists d. split; [|exact Hx].
      destruct (existsb (eqb a) acc); [exact Hd|].
      apply in_or_app. left. exact Hd.
Qed.

Lemma total_map_add {A : Type} (f g : A -> nat) (l : list A) :
  total (map (fun x => f x + g x) l) = total (map f l) + total (map g l).
Proof.
  unfold total. induction l as [|x l IH]; simpl; [reflexivity|].
  rewrite IH. lia.
Qed.

Lemma total_map_zero {A : Type} (f : A -> nat) (l : list A) :
  (forall x, In x l -> f x = 0) -> total (map f l) = 0.
Proof.
  unfold total. induction l as [|x l IH]; intros H; simpl; [reflexivity|].
  rewrite (H x) by (left; reflexivity). simpl.
  apply IH. intros y Hy. apply H. right. exact Hy.
Qed.

(** Among labels that are apart from each other, exactly one is equal
    to a label that is equal to one of them. *)
Lemma matched_once x ds :
  ForallOrdPairs (fun a b => cell_eqb b a = false) ds ->
  (exists d, In d ds /\ cell_eqb x d = true) ->
  total (map (fun d => if cell_eqb x d then 1 else 0) ds) = 1.
Proof.
  induction 1 as [|a rest Ha Hrest IH]; intros [d [Hd Hx]]; [destruct Hd|].
  change (total (map (fun d0 => if cell_eqb x d0 then 1 else 0) (a :: rest)))
    with ((if cell_eqb x a then 1 else 0)
          + total (map (fun d0 => if cell_eqb x d0 then 1 else 0) rest)).
  rewrite Forall_forall in Ha.
  destruct (cell_eqb x a) eqn:E.
  - rewrite total_map_zero; [reflexivity|].
    intros b Hb. destruct (cell_eqb x b) eqn:E2; [|reflexivity].
    pose proof (Ha b Hb) as Hab.
    rewrite (cell_eqb_trans b x a (cell_eqb_sym _ _ E2) E) in Hab.
    discriminate.
  - simpl. apply IH. destruct Hd as [<-|Hd]; [congruence|].
    exists d. auto.
Qed.

Lemma positions_of_length label labels :
  length (positions_of label labels)
  = length (filter (fun x => cell_eqb x label) labels).
Proof.
  unfold positions_of, enumerate. rewrite length_map.
  apply (filter_enumerate_length (fun x => cell_eqb x label)).
Qed.

Lemma matches_total ds :
  ForallOrdPairs (fun a b => cell_eqb b a = false) ds ->
  forall l,
    (forall x, In x l -> exists d, In d ds /\ cell_eqb x d = true) ->
    total (map (fun d => length (filter (fun x => cell_eqb x d) l)) ds)
    = length l.
Proof.
  intros Hapart. induction l as [|x l IH]; intros Hcover.
  - simpl. apply total_map_zero. reflexivity.
  - rewrite (map_ext _ (fun d => (if cell_eqb x d then 1 else 0)
                                 + length (filter (fun y => cell_eqb y d) l))).
    + rewrite total_map_add, IH.
      * rewrite (matched_once x ds Hapart); [reflexivity|].
        apply Hcover. left. reflexivity.
      * intros y Hy. apply Hcover. right. exact Hy.
    + intros d. simpl. destruct (cell_eqb x d); reflexivity.
Qed.

(** The groups of the distinct labels of a list share out its
    positions. *)
Lemma positions_total labels :
  total (map (fun label => length (positions_of label labels))
             (distinct cell_eqb labels))
  = length labels.
Proof.
  rewrite (map_ext _ (fun d => length (filter (fun x => cell_eqb x d) labels)))
    by (intros d; apply positions_of_length).
  apply matches_total; [apply distinct_apart|].
  intros x Hx. apply (distinct_covers_from cell_eqb cell_eqb_refl).
  left. exact Hx.
Qed.

Section CountProperties.

Variable model : ModelClass.
Variable np_log : Q -> Q.

Lemma group_counts child_name indexed key_values : forall labels rows,
  values (index indexed) = key_values ->
  Forall2 (is_group_row model np_log child_name indexed) labels rows ->
  map (lookup_label (child_rows_column child_name)) rows
  = map (fun n => Some (num_of_nat n))
        (map (fun label => length (positions_of label key_values)) labels).
Proof.
  intros labels rows Hidx H. induction H as [|label row labels rows Hrow _ IH];
    simpl; [reflexivity|].
  rewrite IH. f_equal.
  destruct (group_row_labels _ _ _ _ _ _ Hrow)
    as [group [params [Hloc [_ [_ Hcount]]]]].
  destruct (loc_rows _ _ _ Hloc) as [Hn _].
  rewrite Hcount, Hn, Hidx. reflexivity.
Qed.

(** X16: the child counts of an extension account for every row of the
    child table once: its [child_rows] cells are the sizes of the groups
    of the distinct foreign key values, and the sizes add up to the
    number of cells of the foreign key column. *)
Theorem child_rows_add_up child_name child_table foreign_key w r w'
    extension counts :
  _get_extension model np_log child_name child_table foreign_key w
  = (Ok r, w') ->
  nth_error (heap w') r = Some extension ->
  lookup_column (child_rows_column child_name) (columns extension)
  = Some counts ->
  exists table key key_column sizes,
    nth_error (heap w) child_table = Some table
    /\ foreign_key = Some key
    /\ getitem table key = Ok key_column
    /\ values counts = map (fun n => Some (num_of_nat n)) sizes
    /\ total sizes = length (values key_column).
Proof.
  intros H Hext Hcounts.
  destruct (get_extension_ok _ _ _ _ _ _ _ _ H)
    as [table [key [key_column [indexed [rows
         [Htable [Hkey [Hcol [Hidx [Hrows Hext']]]]]]]]]].
  rewrite Hext in Hext'. injection Hext' as ->.
  exists table, key, key_column,
    (map (fun label => length (positions_of label (values key_column)))
         (unique key_column)).
  split; [exact Htable|]. split; [exact Hkey|]. split; [exact Hcol|].
  split; [|apply positions_total].
  assert (Hin : In (child_rows_column child_name) (flat_map (map fst) rows)).
  { apply (proj1 (distinct_In _ _)).
    rewrite <- (frame_of_rows_names rows
                  (mkSeries (dtype_of key_column) (unique key_column))).
    apply lookup_column_In. rewrite Hcounts. discriminate. }
  rewrite (frame_of_rows_lookup _ _ _ Hin) in Hcounts.
  injection Hcounts as <-. simpl.
  apply (group_counts child_name indexed); [|exact Hrows].
  rewrite (set_index_index _ _ _ _ Hcol Hidx). reflexivity.
Qed.

End CountProperties.

Lemma child_rows_add_up_witness :
  let out := _get_extension Scenario.model_class Scenario.log_one "orders" 0
               (Some "user_id") (Scenario.world_of Scenario.orders) in
  let extension := nth 3 (heap (snd out)) Scenario.orders in
  let counts :=
    match lookup_column (child_rows_column "orders") (columns extension) with
    | Some s => s
    | None => mkSeries object_ []
    end in
  values counts = [Some (num_of_nat 2); Some (num_of_nat 1)]
  /\ exists table key key_column sizes,
       nth_error (heap (Scenario.world_of Scenario.orders)) 0 = Some table
       /\ Some "user_id" = Some key
       /\ getitem table key = Ok key_column
       /\ values counts = map (fun n => Some (num_of_nat n)) sizes
       /\ total sizes = length (values key_column).
Proof.
  intros out extension counts. split; [vm_compute; reflexivity|].
  apply (child_rows_add_up Scenario.model_class Scenario.log_one "orders" 0
           (Some "user_id") (Scenario.world_of Scenario.orders) 3 (snd out)
           extension counts).
  - vm_compute. reflexivity.
  - vm_compute. reflexivity.
  - vm_compute. reflexivity.
Defined.

(** ** The flattened values *)

Lemma dict_set_Forall (P : string * value -> Prop) key v d :
  Forall P d -> P (key, v) -> Forall P (dict_set key v d).
Proof.
  intros H Hv. induction H as [|[k w] d Hk Hd IH]; simpl.
  - constructor; [exact Hv | constructor].
  - destruct (String.eqb_spec k key) as [->|_]; constructor; assumption.
Qed.

Lemma dict_update_Forall (P : string * value -> Prop) other : forall d,
  Forall P d -> Forall P other -> Forall P (dict_update d other).
Proof.
  unfold dict_update.
  induction other as [|[k v] other IH]; intros d Hd Ho; simpl; [exact Hd|].
  inversion Ho; subst. apply IH; [|assumption].
  apply dict_set_Forall; assumption.
Qed.

Lemma flatten_array_from_Forall (P : string * value -> Prop) nested prefix :
  Forall (fun item => forall key result,
            Forall P result -> Forall P (flatten_item item key result))
         nested ->
  forall start acc,
    Forall P acc -> Forall P (flatten_array_from nested start prefix acc).
Proof.
  induction 1 as [|x nested Hx _ IH]; intros start acc Hacc; simpl;
    [exact Hacc|].
  apply IH, Hx, Hacc.
Qed.

Lemma flatten_item_no_sequence : forall item key result,
  Forall (fun kv => is_sequence (snd kv) = false) result ->
  Forall (fun kv => is_sequence (snd kv) = false)
         (flatten_item item key result).
Proof.
  induction item as [s|items _|elems IH|elems IH] using value_nested_ind;
    intros key result H.
  - apply dict_set_Forall; [exact H | reflexivity].
  - apply dict_set_Forall; [exact H | reflexivity].
  - rewrite flatten_item_list. apply dict_update_Forall; [exact H|].
    apply flatten_array_from_Forall; [exact IH | constructor].
  - rewrite flatten_item_array. apply dict_update_Forall; [exact H|].
    apply flatten_array_from_Forall; [exact IH | constructor].
Qed.

Lemma flatten_array_no_sequence nested prefix :
  Forall (fun kv => is_sequence (snd kv) = false)
         (_flatten_array nested prefix).
Proof.
  apply flatten_array_from_Forall; [|constructor].
  apply Forall_forall. intros item _ key result.
  apply flatten_item_no_sequence.
Qed.

Lemma flatten_dict_from_Forall (P : string * value -> Prop) items prefix :
  Forall (fun kv => forall key result,
            Forall P result -> Forall P (flatten_value (snd kv) key result))
         items ->
  forall acc, Forall P acc -> Forall P (flatten_dict_from items prefix acc).
Proof.
  induction 1 as [|[k v] items Hx _ IH]; intros acc Hacc; simpl;
    [exact Hacc|].
  apply IH. destruct (is_ignored k v); [exact Hacc|]. apply Hx, Hacc.
Qed.

Lemma flatten_value_no_sequence : forall v key result,
  Forall (fun kv => is_sequence (snd kv) = false) result ->
  Forall (fun kv => is_sequence (snd kv) = false)
         (flatten_value v key result).
Proof.
  induction v as [s|items IH|elems _|elems _] using value_nested_ind;
    intros key result H.
  - apply dict_set_Forall; [exact H | reflexivity].
  - rewrite flatten_value_dict. apply dict_update_Forall; [exact H|].
    apply flatten_dict_from_Forall; [exact IH | constructor].
  - apply dict_update_Forall; [exact H | apply flatten_array_no_sequence].
  - apply dict_update_Forall; [exact H | apply flatten_array_no_sequence].
Qed.

(** X17: no list and no array is left in a flattened structure, at any
    key: whatever the nesting, every value of the result of
    [_flatten_array] and of [_flatten_dict] is something else than a
    sequence (a scalar, or a mapping that was met inside a sequence,
    which is kept whole). *)
Theorem flattened_holds_no_sequence (prefix : string) :
  (forall nested,
      Forall (fun kv => is_sequence (snd kv) = false)
             (_flatten_array nested prefix))
  /\ (forall nested,
        Forall (fun kv => is_sequence (snd kv) = false)
               (_flatten_dict nested prefix)).
Proof.
  split; intros nested; [apply flatten_array_no_sequence|].
  apply flatten_dict_from_Forall; [|constructor].
  apply Forall_forall. intros kv _ key result.
  apply flatten_value_no_sequence.
Qed.

(** ** The columns of an extension *)

Section ExtensionColumns.

Variable model : ModelClass.
Variable np_log : Q -> Q.

(** The row built for a group, from the group alone: the group holds the
    rows of the child table that carry the label, it is filled, the model
    is fitted to the filled group, and the row is the flattened export of
    the rewritten model with the size of the group. *)
Lemma group_row_model child_name indexed label row :
  is_group_row model np_log child_name indexed label row ->
  exists group filled fitted,
    group = take_rows (map Some (positions_of label (values (index indexed))))
                      indexed
    /\ 1 <= nrows group
    /\ nrows group = length (positions_of label (values (index indexed)))
    /\ imputed group filled
    /\ fit model filled = Ok fitted
    /\ row = prefix_labels ("__" ++ child_name ++ "__")
               (series_of_dict
                  (dict_set "child_rows" (num_of_nat (nrows group))
                     (_flatten_dict
                        (to_dict model (encode_model np_log fitted)) ""))).
Proof.
  intros [group [params [data [w1 [w2 [Hloc [Hdict [Hdata ->]]]]]]]].
  destruct (loc_rows _ _ _ Hloc) as [Hn Hone].
  destruct (loc_group _ _ _ Hloc) as [Hgroup _].
  unfold _get_model_dict in Hdict.
  apply bind_ok in Hdict. destruct Hdict as [fitted [w3 [Hfit Hret]]].
  apply ret_ok in Hret. destruct Hret as [-> _].
  destruct (fit_model_ok _ _ _ _ _ _ Hdata Hfit) as [filled [Himp [Hfitted _]]].
  exists group, filled, fitted. auto 10.
Qed.

(** C7: the extension built for a child has one row per distinct value
    of the foreign key.  The row of a value is built from the group of
    the rows of the child table that carry the value: its keys are
    exactly the flattened parameter keys of the model fitted to the
    (filled) group, with [child_rows] attached, each behind
    [__<child_name>__], and its [child_rows] entry is the number of rows
    of the group.  The columns of the extension are the keys of the rows,
    and the cell of a column in a row is the entry of the row. *)
Theorem extension_columns_prefixed child_name child_table foreign_key w r w' :
  _get_extension model np_log child_name child_table foreign_key w
  = (Ok r, w') ->
  exists table key key_column indexed extension rows,
    nth_error (heap w) child_table = Some table
    /\ foreign_key = Some key
    /\ getitem table key = Ok key_column
    /\ set_index table key = Ok indexed
    /\ nth_error (heap w') r = Some extension
    /\ values (index extension) = unique key_column
    /\ (forall name,
          In name (column_names extension)
          <-> exists row, In row rows /\ In name (map fst row))
    /\ (forall name,
          In name (column_names extension) ->
          exists cells,
            lookup_column name (columns extension) = Some cells
            /\ values cells = map (lookup_label name) rows)
    /\ Forall2
         (fun label row =>
            exists group filled fitted,
              group = take_rows
                        (map Some (positions_of label (values key_column)))
                        indexed
              /\ 1 <= nrows group
              /\ nrows group = length (positions_of label (values key_column))
              /\ imputed group filled
              /\ fit model filled = Ok fitted
              /\ map fst row
                 = map (fun key =>
                          ("__" ++ child_name ++ "__" ++ key)%string)
                       (dict_keys
                          (dict_set "child_rows" (num_of_nat (nrows group))
                             (_flatten_dict
                                (to_dict model (encode_model np_log fitted))
                                "")))
              /\ lookup_label ("__" ++ child_name ++ "__child_rows") row
                 = Some (num_of_nat (nrows group)))
         (unique key_column) rows.
Proof.
  intros H. destruct (get_extension_ok _ _ _ _ _ _ _ _ H)
    as [table [key [key_column [indexed [rows
         [Htable [Hkey [Hcol [Hidx [Hrows Hext]]]]]]]]]].
  exists table, key, key_column, indexed,
    (frame_of_rows rows (mkSeries (dtype_of key_column) (unique key_column))),
    rows.
  split; [exact Htable|]. split; [exact Hkey|]. split; [exact Hcol|].
  split; [exact Hidx|]. split; [exact Hext|]. split; [reflexivity|].
  split.
  { intros name. rewrite frame_of_rows_names, distinct_In, in_flat_map.
    tauto. }
  split.
  { intros name Hin. rewrite frame_of_rows_names in Hin.
    apply (proj1 (distinct_In _ _)) in Hin.
    eexists. split; [apply frame_of_rows_lookup, Hin | reflexivity]. }
  eapply Forall2_impl; [|exact Hrows].
  intros label row Hrow.
  destruct (group_row_labels _ _ _ _ _ _ Hrow)
    as [group' [params' [Hloc' [_ [_ Hcount]]]]].
  destruct (group_row_model _ _ _ _ Hrow)
    as [group [filled [fitted [Hgroup [Hone [Hn [Himp [Hfit Heq]]]]]]]].
  rewrite (set_index_index _ _ _ _ Hcol Hidx) in Hgroup, Hn.
  assert (Hsame : group' = group).
  { destruct (loc_group _ _ _ Hloc') as [Hg _].
    rewrite (set_index_index _ _ _ _ Hcol Hidx) in Hg. congruence. }
  subst group'.
  exists group, filled, fitted.
  split; [exact Hgroup|]. split; [exact Hone|]. split; [exact Hn|].
  split; [exact Himp|]. split; [exact Hfit|].
  split; [|exact Hcount].
  rewrite Heq, prefix_labels_names, series_of_dict_names.
  apply map_ext. intros k. rewrite !string_app_assoc. reflexivity.
Qed.

End ExtensionColumns.

Lemma extension_columns_prefixed_witness :
  let out := _get_extension Scenario.mu_class Scenario.log_one "orders" 0
               (Some "user_id") (Scenario.world_of Scenario.orders) in
  fst out = Ok 3
  /\ option_map column_names (nth_error (heap (snd out)) 3)
     = Some ["__orders__mu__0"; "__orders__mu__1"; "__orders__child_rows"]
  /\ exists extension rows,
       nth_error (heap (snd out)) 3 = Some extension
       /\ values (index extension)
          = unique (Scenario.int_column [1; 1; 3]%Z)
       /\ (forall name,
             In name (column_names extension)
             <-> exists row : labelled, In row rows /\ In name (map fst row))
       /\ length rows = 2.
Proof.
  intros out.
  assert (Hrun : _get_extension Scenario.mu_class Scenario.log_one "orders" 0
                   (Some "user_id") (Scenario.world_of Scenario.orders)
                 = (Ok 3, snd out)) by (vm_compute; reflexivity).
  split; [vm_compute; reflexivity|].
  split; [vm_compute; reflexivity|].
  destruct (extension_columns_prefixed Scenario.mu_class Scenario.log_one
              "orders" 0 (Some "user_id") _ _ _ Hrun)
    as [table [key [key_column [indexed [extension [rows
         [Htable [Hkey [Hcol [_ [Hext [Hlabels [Hnames [_ Hrows]]]]]]]]]]]]]].
  simpl in Htable. injection Htable as <-.
  injection Hkey as <-.
  unfold getitem in Hcol. simpl in Hcol. injection Hcol as <-.
  exists extension, rows.
  split; [exact Hext|]. split; [exact Hlabels|]. split; [exact Hnames|].
  exact (eq_sym (Forall2_length Hrows)).
Defined.

(** ** The order of the flattened keys *)




Lemma contribution_NoDup prefix kv :
  NoDup (dict_keys (contribution prefix kv)).
Proof.
  unfold contribution. destruct (is_ignored (fst kv) (snd kv)).
  - constructor.
  - apply flatten_value_NoDup. constructor.
Qed.






(** * The extension columns in the returned table *)

(** ** Merging frames that share no column name *)

Lemma lookup_column_map (f : Series -> Series) name cols :
  lookup_column name (map (fun ks => (fst ks, f (snd ks))) cols)
  = option_map f (lookup_column name cols).
Proof.
  induction cols as [|[k s] cols IH]; simpl; [reflexivity|].
  destruct (String.eqb k name); [reflexivity | exact IH].
Qed.

Lemma suffixed_apart suffix others name :
  ~ In name others -> suffixed suffix others name = name.
Proof.
  intros H. unfold suffixed.
  rewrite (proj2 (key_in_false _ _) H). reflexivity.
Qed.

(** No column is renamed. *)
Lemma merge_columns_apart left right :
  (forall name, In name (column_names left) ->
                ~ In name (column_names right)) ->
  columns (merge left right)
  = map (fun ks =>
           (fst ks,
            take (map (fun p => Some (fst p))
                      (join_rows (values (index left))
                                 (values (index right))))
                 (snd ks))) (columns left)
    ++ map (fun ks =>
              (fst ks,
               take (map snd (join_rows (values (index left))
                                        (values (index right))))
                    (snd ks))) (columns right).
Proof.
  intros H. unfold merge. cbn [columns].
  f_equal; apply map_ext_in; intros [k s] Hin; cbn [fst snd]; f_equal;
    apply suffixed_apart.
  - apply H. unfold column_names. apply in_map_iff.
    exists (k, s). split; [reflexivity | exact Hin].
  - intros Hl. apply (H k Hl). unfold column_names. apply in_map_iff.
    exists (k, s). split; [reflexivity | exact Hin].
Qed.

(** Taking every row of a series, in order, gives the series. *)
Lemma take_all s n :
  length (values s) = n -> take (map Some (seq 0 n)) s = s.
Proof.
  intros <-. destruct s as [d vs]. unfold take. cbn [dtype_of values].
  f_equal.
  - replace (existsb (fun p : option nat =>
                        match p with None => true | Some _ => false end)
                     (map Some (seq 0 (length vs)))) with false;
      [reflexivity|].
    symmetry. generalize (seq 0 (length vs)).
    induction l; simpl; auto.
  - rewrite map_map. apply map_nth_seq.
Qed.

Lemma align_length labels others s :
  length (values (align labels others s)) = length labels.
Proof. unfold align, take. cbn [values]. rewrite !length_map. reflexivity. Qed.

(** A row whose label is not among the labels of the other frame gets a
    missing value. *)
Lemma align_unmatched labels others s i :
  i < length labels ->
  positions_of (nth i labels None) others = [] ->
  nth_error (values (align labels others s)) i = Some None.
Proof.
  intros Hi Hnone. unfold align, take. cbn [values]. rewrite map_map.
  assert (Hl : nth_error labels i = Some (nth i labels None))
    by (apply nth_error_nth'; exact Hi).
  rewrite (map_nth_error _ _ _ Hl). rewrite Hnone. reflexivity.
Qed.

Lemma fillna_fills s fv i :
  nth_error (values s) i = Some None ->
  nth_error (values (fillna s fv)) i = Some fv.
Proof.
  unfold fillna. cbn [values]. intros H.
  rewrite (map_nth_error _ _ _ H). reflexivity.
Qed.

Section MergeApart.

Variables left right : DataFrame.
Hypothesis Hnames :
  forall name, In name (column_names left) -> ~ In name (column_names right).
Hypothesis Hleft : has_duplicates (values (index left)) = false.
Hypothesis Hright : has_duplicates (values (index right)) = false.

(** A column of the left frame is found unchanged in the merged
    frame. *)
Lemma merge_apart_left name s :
  lookup_column name (columns left) = Some s ->
  length (values s) = nrows left ->
  lookup_column name (columns (merge left right)) = Some s.
Proof.
  intros Hs Hlen. rewrite (merge_columns_apart _ _ Hnames).
  rewrite lookup_column_app, lookup_column_map, Hs. cbn [option_map].
  f_equal.
  rewrite <- (map_map fst Some).
  rewrite (proj1 (join_rows_plain _ _ Hleft Hright)).
  apply take_all. exact Hlen.
Qed.

(** A column of the right frame is found aligned on the rows of the
    left frame. *)
Lemma merge_apart_right name :
  lookup_column name (columns left) = None ->
  lookup_column name (columns (merge left right))
  = option_map (align (values (index left)) (values (index right)))
               (lookup_column name (columns right)).
Proof.
  intros Hnone. rewrite (merge_columns_apart _ _ Hnames).
  rewrite lookup_column_app, !lookup_column_map, Hnone. cbn [option_map].
  rewrite (proj2 (join_rows_plain _ _ Hleft Hright)). reflexivity.
Qed.

Lemma extended_by_apart_left name G n s :
  extended_by left right name = Ok G ->
  n <> name ->
  lookup_column n (columns left) = Some s ->
  length (values s) = nrows left ->
  lookup_column n (columns G) = Some s.
Proof.
  unfold extended_by.
  destruct (getitem (merge left right) name) as [counts|e]; [|discriminate].
  intros H Hne Hs Hlen. injection H as <-. unfold setitem. cbn [columns].
  rewrite lookup_set_column.
  destruct (String.eqb_spec n name); [contradiction|].
  apply merge_apart_left; assumption.
Qed.

Lemma extended_by_apart_right name G n :
  extended_by left right name = Ok G ->
  n <> name ->
  lookup_column n (columns left) = None ->
  lookup_column n (columns G)
  = option_map (align (values (index left)) (values (index right)))
               (lookup_column n (columns right)).
Proof.
  unfold extended_by.
  destruct (getitem (merge left right) name) as [counts|e]; [|discriminate].
  intros H Hne Hnone. injection H as <-. unfold setitem. cbn [columns].
  rewrite lookup_set_column.
  destruct (String.eqb_spec n name); [contradiction|].
  apply merge_apart_right; assumption.
Qed.

(** The column that is filled after the merge comes from the right
    frame when the left frame does not have it. *)
Lemma extended_by_apart_counts name G :
  extended_by left right name = Ok G ->
  lookup_column name (columns left) = None ->
  lookup_column name (columns right) <> None.
Proof.
  unfold extended_by, getitem. intros H Hnone.
  rewrite (merge_apart_right name Hnone) in H.
  destruct (lookup_column name (columns right)); [discriminate|].
  discriminate.
Qed.

End MergeApart.

(** ** The loop over the children, column by column *)

Lemma child_rows_column_name c :
  child_rows_column c = ("__" ++ c ++ "__" ++ "child_rows")%string.
Proof. reflexivity. Qed.

(** Children whose names hold no underscore have extension columns that
    cannot be confused. *)
Lemma no_underscore_names_apart children :
  (forall c, In c children -> no_underscore c = true) ->
  names_apart children.
Proof.
  intros Hno c c2 Hc Hc2 Hne k k2 Heq. apply Hne.
  apply string_app_cancel in Heq.
  apply (digits_split c c2 ("__" ++ k) ("__" ++ k2));
    [apply Hno, Hc | apply Hno, Hc2
     | right; eexists; reflexivity | right; eexists; reflexivity
     | exact Heq].
Qed.

Section FilledExtensions.

Variable metadata : Metadata.
Variable model : ModelClass.
Variable np_log : Q -> Q.

(** The steps of one iteration of the loop over the children. *)
Lemma extend_with_child_steps recur table_name child_name extended w e' w' L :
  (forall c k, creates (recur c k)) ->
  nth_error (heap w) extended = Some L ->
  extend_with_child metadata model np_log recur table_name child_name
                    extended w = (Ok e', w') ->
  exists child_table wb extension wc E G,
    recur child_name (get_foreign_key metadata table_name child_name) w
    = (Ok child_table, wb)
    /\ _get_extension model np_log child_name child_table
         (get_foreign_key metadata table_name child_name) wb
       = (Ok extension, wc)
    /\ nth_error (heap wc) extension = Some E
    /\ extended_by L E (child_rows_column child_name) = Ok G
    /\ nth_error (heap w') e' = Some G.
Proof.
  intros Hrec HL H. unfold extend_with_child in H.
  apply bind_ok in H. destruct H as [child_table [wb [Hchild H]]].
  destruct (Hrec _ _ _ _ _ Hchild) as [Hext1 _].
  apply bind_ok in H. destruct H as [extension [wc [Hget H]]].
  destruct (get_extension_creates _ _ _ _ _ _ _ _ Hget) as [Hext2 [_ Hlt2]].
  apply bind_ok in H. destruct H as [left [w3 [Hl H]]].
  apply read_ok in Hl. destruct Hl as [Hl ->].
  assert (Hext : extends w wc) by (eapply extends_trans; eassumption).
  rewrite (extends_read _ _ _ _ Hext HL) in Hl. injection Hl as <-.
  apply bind_ok in H. destruct H as [right [w3 [Hr H]]].
  apply read_ok in Hr. destruct Hr as [Hr ->].
  apply bind_ok in H. destruct H as [merged [w3 [Hal H]]].
  apply alloc_ok in Hal. destruct Hal as [-> ->].
  apply bind_ok in H. destruct H as [u [w3 [Hfill H]]].
  apply ret_ok in H. destruct H as [-> ->].
  eapply fill_child_rows_ok in Hfill; [|simpl; apply nth_error_app_last].
  destruct Hfill as [counts [Hcounts ->]].
  exists child_table, wb, extension, wc, right.
  eexists.
  split; [exact Hchild|]. split; [exact Hget|]. split; [exact Hr|].
  split; [unfold extended_by; rewrite Hcounts; reflexivity|].
  simpl. rewrite replace_nth_app_last. apply nth_error_app_last.
Qed.

(** One iteration of the loop: the extension of the child is built from
    the table the recursive call returns, its columns are found in the
    merged frame aligned on the rows of the table, and the columns the
    frame had are kept. *)
Lemma extend_with_child_merged recur table_name c extended w e' w' L :
  (forall c k, creates (recur c k)) ->
  nth_error (heap w) extended = Some L ->
  has_duplicates (values (index L)) = false ->
  (forall k, lookup_column ("__" ++ c ++ "__" ++ k) (columns L) = None) ->
  extend_with_child metadata model np_log recur table_name c extended w
  = (Ok e', w') ->
  exists child_table wb child key key_column extension wc E G,
    recur c (get_foreign_key metadata table_name c) w = (Ok child_table, wb)
    /\ nth_error (heap wb) child_table = Some child
    /\ get_foreign_key metadata table_name c = Some key
    /\ getitem child key = Ok key_column
    /\ _get_extension model np_log c child_table (Some key) wb
       = (Ok extension, wc)
    /\ nth_error (heap wc) extension = Some E
    /\ values (index E) = unique key_column
    /\ (forall name, In name (column_names E) ->
          exists k, name = ("__" ++ c ++ "__" ++ k)%string)
    /\ nth_error (heap w') e' = Some G
    /\ index G = index L
    /\ index_name G = index_name L
    /\ counts_ok (child_rows_column c) (unique key_column)
                 (values (index L)) G
    /\ (forall name e,
          lookup_column name (columns E) = Some e ->
          name <> child_rows_column c ->
          lookup_column name (columns G)
          = Some (align (values (index L)) (unique key_column) e))
    /\ (forall name s,
          lookup_column name (columns L) = Some s ->
          length (values s) = nrows L ->
          lookup_column name (columns G) = Some s)
    /\ (forall name,
          lookup_column name (columns L) = None ->
          lookup_column name (columns E) = None ->
          lookup_column name (columns G) = None).
Proof.
  intros Hrec HL Hu Hfresh Hstep.
  destruct (extend_with_child_steps _ _ _ _ _ _ _ _ Hrec HL Hstep)
    as [child_table [wb [extension [wc [E [G
         [Hchild [Hget [HE [HG HG']]]]]]]]]].
  destruct (get_extension_ok _ _ _ _ _ _ _ _ Hget)
    as [child [key [key_column [indexed [rows
         [Hchild' [Hkey [Hcol [_ [Hrows HE']]]]]]]]]].
  rewrite HE in HE'. injection HE' as ->.
  set (E := frame_of_rows rows
              (mkSeries (dtype_of key_column) (unique key_column))) in *.
  assert (HnamesE : forall name, In name (column_names E) ->
            exists k, name = ("__" ++ c ++ "__" ++ k)%string).
  { intros name Hin. eapply extension_names; eassumption. }
  assert (Hapart : forall name, In name (column_names L) ->
            ~ In name (column_names E)).
  { intros name HinL HinE. destruct (HnamesE name HinE) as [k ->].
    apply lookup_column_In in HinL. apply HinL, Hfresh. }
  assert (HuE : has_duplicates (values (index E)) = false)
    by apply unique_no_duplicates.
  assert (Hcounts_fresh :
            lookup_column (child_rows_column c) (columns L) = None)
    by (rewrite child_rows_column_name; apply Hfresh).
  destruct (extended_by_index _ _ _ _ Hu HuE HG) as [Hindex Hname].
  exists child_table, wb, child, key, key_column, extension, wc, E, G.
  split; [exact Hchild|]. split; [exact Hchild'|]. split; [exact Hkey|].
  split; [exact Hcol|]. split; [rewrite <- Hkey; exact Hget|].
  split; [exact HE|]. split; [reflexivity|]. split; [exact HnamesE|].
  split; [exact HG'|]. split; [exact Hindex|]. split; [exact Hname|].
  split.
  { rewrite <- Hindex.
    eapply extended_by_counts; [exact Hrows | exact Hcounts_fresh | exact HG]. }
  split.
  { intros name e He Hne.
    rewrite (extended_by_apart_right L E Hapart Hu HuE _ _ _ HG Hne).
    - rewrite He. reflexivity.
    - destruct (lookup_column name (columns L)) eqn:HinL; [|reflexivity].
      exfalso. apply (Hapart name).
      + apply lookup_column_In. unfold column_names in *. congruence.
      + apply lookup_column_In. unfold column_names in *. congruence. }
  split.
  { intros name s Hs Hlen.
    apply (extended_by_apart_left L E Hapart Hu HuE _ _ _ _ HG);
      [|exact Hs | exact Hlen].
    intros ->. congruence. }
  intros name HnL HnE.
  assert (Hne : name <> child_rows_column c).
  { intros ->.
    apply (extended_by_apart_counts L E Hapart Hu HuE _ _ HG Hcounts_fresh).
    exact HnE. }
  rewrite (extended_by_apart_right L E Hapart Hu HuE _ _ _ HG Hne HnL).
  rewrite HnE. reflexivity.
Qed.

(** The loop over the children.  For every child, the run of the loop
    up to the child, the recursive call and the call of [_get_extension]
    are those of the loop itself; in the frame the loop ends with, the
    counts of the child are in place and every other column of its
    extension is found aligned on the rows of the table. *)
Lemma extend_with_children_merged recur table_name all :
  (forall c k, creates (recur c k)) ->
  names_apart all ->
  forall children extended w e' w' L,
    incl children all ->
    NoDup children ->
    nth_error (heap w) extended = Some L ->
    has_duplicates (values (index L)) = false ->
    (forall c k, In c children ->
       lookup_column ("__" ++ c ++ "__" ++ k) (columns L) = None) ->
    extend_with_children metadata model np_log recur table_name children
                         extended w = (Ok e', w') ->
    exists G,
      nth_error (heap w') e' = Some G
      /\ index G = index L
      /\ index_name G = index_name L
      /\ (forall c, In c children ->
            exists before after e wa child_table wb child key key_column
                   extension wc E,
              children = before ++ c :: after
              /\ extend_with_children metadata model np_log recur table_name
                   before extended w = (Ok e, wa)
              /\ recur c (get_foreign_key metadata table_name c) wa
                 = (Ok child_table, wb)
              /\ nth_error (heap wb) child_table = Some child
              /\ get_foreign_key metadata table_name c = Some key
              /\ getitem child key = Ok key_column
              /\ _get_extension model np_log c child_table (Some key) wb
                 = (Ok extension, wc)
              /\ nth_error (heap wc) extension = Some E
              /\ values (index E) = unique key_column
              /\ (forall name, In name (column_names E) ->
                    exists k, name = ("__" ++ c ++ "__" ++ k)%string)
              /\ counts_ok (child_rows_column c) (unique key_column)
                           (values (index L)) G
              /\ forall name e,
                   lookup_column name (columns E) = Some e ->
                   name <> child_rows_column c ->
                   lookup_column name (columns G)
                   = Some (align (values (index L)) (unique key_column) e))
      /\ (forall name s,
            lookup_column name (columns L) = Some s ->
            length (values s) = nrows L ->
            lookup_column name (columns G) = Some s).
Proof.
  intros Hrec Hap.
  induction children as [|c rest IH];
    intros extended w e' w' L Hincl Hnodup HL Hu Hfresh H; simpl in H.
  - apply ret_ok in H. destruct H as [-> ->]. exists L.
    split; [exact HL|]. split; [reflexivity|]. split; [reflexivity|].
    split; [intros c []|]. auto.
  - apply bind_ok in H. destruct H as [e1 [w1 [Hstep H]]].
    destruct (extend_with_child_merged _ _ _ _ _ _ _ _ Hrec HL Hu
                (fun k => Hfresh c k (or_introl eq_refl)) Hstep)
      as [child_table [wb [child [key [key_column [extension [wc [E [G1
           [Hchild [Hchild' [Hkey [Hcol [Hget [HE [HiE [HnamesE [HG1
           [Hindex1 [Hname1 [Hcounts1 [Hcols1 [Hkeep1 Hnone1]]]]]]]]]]]]]]]]]]]]]]].
    inversion Hnodup as [|? ? Hnotin Hnodup']; subst.
    assert (Hc : In c all) by (apply Hincl; left; reflexivity).
    assert (Hrest : incl rest all).
    { intros x Hx. apply Hincl. right. exact Hx. }
    assert (Hu1 : has_duplicates (values (index G1)) = false)
      by (rewrite Hindex1; exact Hu).
    assert (Hfresh1 : forall c' k, In c' rest ->
              lookup_column ("__" ++ c' ++ "__" ++ k) (columns G1) = None).
    { intros c' k Hc'.
      assert (Hne : c' <> c) by (intros ->; contradiction).
      apply Hnone1; [apply Hfresh; right; exact Hc'|].
      destruct (lookup_column ("__" ++ c' ++ "__" ++ k) (columns E))
        eqn:HinE; [|reflexivity].
      exfalso.
      assert (Hin : In ("__" ++ c' ++ "__" ++ k)%string (column_names E)).
      { apply lookup_column_In. unfold column_names in *. congruence. }
      destruct (HnamesE _ Hin) as [k2 Heq].
      apply (Hap c' c (Hrest c' Hc') Hc Hne _ _ Heq). }
    destruct (IH _ _ _ _ _ Hrest Hnodup' HG1 Hu1 Hfresh1 H)
      as [G [HG [Hindex [Hname [Hmerged Hkeep]]]]].
    assert (Hrows1 : nrows G1 = nrows L)
      by (unfold nrows; rewrite Hindex1; reflexivity).
    exists G. split; [exact HG|].
    split; [congruence|]. split; [congruence|].
    split.
    + intros c' [<-|Hc'].
      * exists [], rest, extended, w, child_table, wb, child, key,
          key_column, extension, wc, E.
        split; [reflexivity|]. split; [reflexivity|].
        split; [exact Hchild|]. split; [exact Hchild'|].
        split; [exact Hkey|]. split; [exact Hcol|]. split; [exact Hget|].
        split; [exact HE|]. split; [exact HiE|]. split; [exact HnamesE|].
        split.
        { destruct Hcounts1 as [counts [Hcounts [Hlen Hok]]].
          exists counts. split; [|split; [exact Hlen | exact Hok]].
          apply Hkeep; [exact Hcounts|].
          rewrite Hlen, Hrows1. reflexivity. }
        intros name e He Hne. apply Hkeep.
        -- apply Hcols1; assumption.
        -- rewrite align_length, Hrows1. reflexivity.
      * destruct (Hmerged c' Hc')
          as [before [after [e [wa [ct [wb' [ch [k [kc [ex [wc' [E'
               [Hsplit [Hrun [Hcall [Hch [Hk [Hkc [Hget' [HE' [HiE'
               [HnamesE' [Hcounts' Hcols']]]]]]]]]]]]]]]]]]]]]]].
        exists (c :: before), after, e, wa, ct, wb', ch, k, kc, ex, wc', E'.
        split; [rewrite Hsplit; reflexivity|].
        split; [simpl; unfold bind; rewrite Hstep; exact Hrun|].
        split; [exact Hcall|]. split; [exact Hch|]. split; [exact Hk|].
        split; [exact Hkc|]. split; [exact Hget'|]. split; [exact HE'|].
        split; [exact HiE'|]. split; [exact HnamesE'|].
        rewrite <- Hindex1. split; [exact Hcounts' | exact Hcols'].
    + intros name s Hs Hlen. apply Hkeep.
      * apply Hkeep1; assumption.
      * rewrite Hrows1. exact Hlen.
Qed.

(** ** The start of [cpa] *)

(** What [cpa] has done when the loop over the children starts: the
    table has been found, and the object bound to [extended] holds its
    transformed columns under the values of the primary key. *)
Lemma cpa_start_ok table_name tables key w table extended w0 :
  cpa_start metadata table_name tables key w = (Ok (table, extended), w0) ->
  exists raw keys transformed,
    nth_error (heap w0) table = Some raw
    /\ getitem raw key = Ok keys
    /\ transform metadata table_name raw = Ok transformed
    /\ nth_error (heap w0) extended
       = Some (mkDataFrame (Some key) keys (columns transformed)).
Proof.
  unfold cpa_start. intros Hrun.
  apply bind_ok in Hrun. destruct Hrun as [u [w1 [Hemit Hrun]]].
  apply emit_ok in Hemit. subst w1.
  apply bind_ok in Hrun. destruct Hrun as [table' [w1 [Hres Hrun]]].
  apply bind_ok in Hrun. destruct Hrun as [raw [w2 [Hread Hrun]]].
  apply read_ok in Hread. destruct Hread as [Hraw ->].
  apply bind_ok in Hrun. destruct Hrun as [transformed [w2 [Htr Hrun]]].
  apply lift_ok in Htr. destruct Htr as [Htr ->].
  apply bind_ok in Hrun. destruct Hrun as [extended' [w2 [Hal Hrun]]].
  apply alloc_ok in Hal. destruct Hal as [-> ->].
  apply bind_ok in Hrun. destruct Hrun as [u0 [w3 [Hidx Hrun]]].
  apply ret_ok in Hrun. destruct Hrun as [Heq ->].
  injection Heq as Ht He. subst table' extended.
  destruct (index_by_primary_key_ok _ _ _ _ _ _ Hidx)
    as [raw' [keys [df [G0 [Hraw' [Hkeys [Hdf [Hassign ->]]]]]]]].
  simpl in Hraw', Hdf.
  rewrite (nth_error_app_old _ _ _ _ Hraw) in Hraw'. injection Hraw' as <-.
  rewrite nth_error_app_last in Hdf. injection Hdf as <-.
  apply assign_index_ok in Hassign. subst G0.
  exists raw, keys, transformed.
  split.
  { simpl. rewrite replace_nth_other.
    - apply nth_error_app_old, Hraw.
    - apply nth_error_lt in Hraw. lia. }
  split; [exact Hkeys|]. split; [exact Htr|].
  simpl. rewrite replace_nth_app_last. apply nth_error_app_last.
Qed.

(** [cpa] is its start followed by the loop over the children and the
    lines 222-230. *)
Lemma cpa_body_from_start recur table_name tables foreign_key key w :
  truthy (get_primary_key metadata table_name) = Some key ->
  cpa_body metadata model np_log recur table_name tables foreign_key w
  = (started <- cpa_start metadata table_name tables key ;;
     extended <- extend_with_children metadata model np_log recur table_name
                   (get_children metadata table_name) (snd started) ;;
     fitted <- _fit_model model extended ;;
     store_model table_name fitted ;;;
     restore_primary_key extended ;;;
     match truthy foreign_key with
     | Some fk => attach_foreign_key (fst started) extended fk
     | None => ret tt
     end ;;;
     ret extended) w.
Proof.
  intros Hkey. unfold cpa_body, cpa_start. rewrite Hkey.
  unfold bind, ret. cbn beta iota.
  repeat (match goal with
          | |- context [match ?c with (_, _) => _ end] =>
              lazymatch c with
              | (_, _) => fail
              | match _ with (_, _) => _ end => fail
              | _ => destruct c as [[?|?] ?]
              end
          end; cbn beta iota; cbn [fst snd]); reflexivity.
Qed.

(** ** The table [cpa] returns *)

(** C1 (amended): take a table with a primary key whose values are not
    repeated, and children whose extension columns collide neither with
    each other nor with the columns of the table.  The table [cpa]
    returns holds the primary key in a column and has the rows of the
    table.  For every child, the loop of this very run reaches the
    child, calls [cpa] for it and builds its extension from the table
    that call returns; in the returned table the count column of the
    child has no missing value and is zero on the rows without child
    rows, and every other column of the extension is the column aligned
    on the rows of the table and then filled by the imputation that
    precedes the fit of the model of the table: on a row without child
    rows it holds the fill value of the column (its mean, or its first
    mode when it is not numeric), not a missing value.  No column other
    than the keys keeps a missing value, unless it is a numeric column
    without a single number. *)
Theorem cpa_child_rows_filled table_name tables foreign_key fuel w key
    table extended w0 start r w' :
  truthy (get_primary_key metadata table_name) = Some key ->
  cpa_start metadata table_name tables key w = (Ok (table, extended), w0) ->
  nth_error (heap w0) extended = Some start ->
  has_duplicates (values (index start)) = false ->
  NoDup (get_children metadata table_name) ->
  names_apart (get_children metadata table_name) ->
  (forall c k, In c (get_children metadata table_name) ->
     lookup_column ("__" ++ c ++ "__" ++ k) (columns start) = None) ->
  truthy foreign_key <> Some key ->
  (forall c k, In c (get_children metadata table_name) ->
     truthy foreign_key <> Some ("__" ++ c ++ "__" ++ k)%string) ->
  cpa metadata model np_log (S fuel) table_name tables foreign_key w
  = (Ok r, w') ->
  exists raw returned,
    nth_error (heap w0) table = Some raw
    /\ getitem raw key = Ok (index start)
    /\ nth_error (heap w') r = Some returned
    /\ lookup_column key (columns returned) = Some (index start)
    /\ nrows returned = nrows start
    /\ (forall c, In c (get_children metadata table_name) ->
          exists before after e wa child_table wb child child_key key_column
                 extension wc E,
            get_children metadata table_name = before ++ c :: after
            /\ extend_with_children metadata model np_log
                 (fun child_name child_key =>
                    cpa metadata model np_log fuel child_name tables child_key)
                 table_name before extended w0 = (Ok e, wa)
            /\ cpa metadata model np_log fuel c tables
                   (get_foreign_key metadata table_name c) wa
               = (Ok child_table, wb)
            /\ nth_error (heap wb) child_table = Some child
            /\ get_foreign_key metadata table_name c = Some child_key
            /\ getitem child child_key = Ok key_column
            /\ _get_extension model np_log c child_table (Some child_key) wb
               = (Ok extension, wc)
            /\ nth_error (heap wc) extension = Some E
            /\ values (index E) = unique key_column
            /\ counts_ok (child_rows_column c) (unique key_column)
                         (values (index start)) returned
            /\ forall name e,
                 lookup_column name (columns E) = Some e ->
                 name <> child_rows_column c ->
                 exists fill_value filled,
                   fill_value_of (align (values (index start))
                                        (unique key_column) e)
                   = Ok fill_value
                   /\ filled = fillna (align (values (index start))
                                             (unique key_column) e)
                                      fill_value
                   /\ lookup_column name (columns returned) = Some filled
                   /\ forall i,
                        i < nrows start ->
                        positions_of (nth i (values (index start)) None)
                                     (unique key_column) = [] ->
                        nth_error (values filled) i = Some fill_value)
    /\ (forall name s,
          lookup_column name (columns returned) = Some s ->
          name <> key ->
          truthy foreign_key <> Some name ->
          all_present s = true
          \/ (is_int_or_float (dtype_of s) = true /\ present_nums s = [])).
Proof.
  intros Hkey Hstart Hframe Hu Hnodup Hap Hfresh Hfk1 Hfk2 Hrun.
  simpl in Hrun.
  set (recur := fun child_name child_key =>
                  cpa metadata model np_log fuel child_name tables child_key)
    in *.
  assert (Hrec : forall c k, creates (recur c k))
    by (intros c k; apply cpa_creates).
  rewrite (cpa_body_from_start _ _ _ _ _ _ Hkey) in Hrun.
  apply bind_ok in Hrun. destruct Hrun as [started [w1 [Hs Hrun]]].
  rewrite Hstart in Hs. injection Hs as <- <-. cbn [fst snd] in Hrun.
  destruct (cpa_start_ok _ _ _ _ _ _ _ Hstart)
    as [raw [keys [transformed [Hraw [Hkeys [Htr Hframe']]]]]].
  rewrite Hframe in Hframe'. injection Hframe' as Hshape.
  assert (Hindex0 : index start = keys) by (rewrite Hshape; reflexivity).
  assert (Hname0 : index_name start = Some key)
    by (rewrite Hshape; reflexivity).
  apply bind_ok in Hrun. destruct Hrun as [e1 [w4 [Hloop Hrun]]].
  destruct (extend_with_children_merged recur table_name
              (get_children metadata table_name) Hrec Hap
              _ _ _ _ _ _ (incl_refl _) Hnodup Hframe Hu Hfresh Hloop)
    as [G [HG [Hindex [Hname [Hmerged _]]]]].
  apply bind_ok in Hrun. destruct Hrun as [fitted [w5 [Hfit Hrun]]].
  destruct (fit_model_ok _ _ _ _ _ _ HG Hfit) as [Gi [Himp [_ ->]]].
  apply bind_ok in Hrun. destruct Hrun as [u1 [w6 [Hst Hrun]]].
  apply store_model_ok in Hst. subst w6.
  apply bind_ok in Hrun. destruct Hrun as [u2 [w7 [Hrs Hrun]]].
  destruct (restore_primary_key_ok _ _ _ _ Hrs)
    as [Gi' [R1 [HGi [Hreset ->]]]].
  simpl in HGi. rewrite (replace_nth_same _ _ _ (nth_error_lt _ _ _ HG)) in HGi.
  injection HGi as <-.
  assert (HindexGi : index Gi = index start).
  { destruct Himp as [Hi _]. congruence. }
  assert (HnameGi : index_name Gi = Some key).
  { destruct Himp as [_ [Hn _]]. congruence. }
  destruct (reset_index_ok _ _ _ HnameGi Hreset) as [Hkeycol [Hnrows Hsame]].
  rewrite HindexGi in Hkeycol.
  assert (Hrows1 : nrows R1 = nrows start).
  { rewrite Hnrows. unfold nrows. rewrite HindexGi. reflexivity. }
  (* the extension columns in the frame as [reset_index] leaves it *)
  assert (HR1 : forall c E key_column,
            (forall name, In name (column_names E) ->
               exists k, name = ("__" ++ c ++ "__" ++ k)%string) ->
            counts_ok (child_rows_column c) (unique key_column)
                      (values (index start)) G ->
            (forall name e,
               lookup_column name (columns E) = Some e ->
               name <> child_rows_column c ->
               lookup_column name (columns G)
               = Some (align (values (index start)) (unique key_column) e)) ->
            counts_ok (child_rows_column c) (unique key_column)
                      (values (index start)) R1
            /\ forall name e,
                 lookup_column name (columns E) = Some e ->
                 name <> child_rows_column c ->
                 exists fill_value filled,
                   fill_value_of (align (values (index start))
                                        (unique key_column) e)
                   = Ok fill_value
                   /\ filled = fillna (align (values (index start))
                                             (unique key_column) e)
                                      fill_value
                   /\ lookup_column name (columns R1) = Some filled
                   /\ forall i,
                        i < nrows start ->
                        positions_of (nth i (values (index start)) None)
                                     (unique key_column) = [] ->
                        nth_error (values filled) i = Some fill_value).
  { intros c E key_column _ Hcounts Hcols. split.
    - apply (imputed_counts _ _ _ _ _ Himp) in Hcounts.
      eapply counts_ok_lookup; [|exact Hcounts].
      apply Hsame. destruct Hcounts as [counts [Hc _]]. congruence.
    - intros name e He Hne.
      destruct Himp as [_ [_ [_ Hfilled]]].
      destruct (Hfilled name _ (Hcols name e He Hne)) as [fv [Hfv Hl]].
      exists fv. eexists. split; [exact Hfv|]. split; [reflexivity|].
      split; [rewrite Hsame; [exact Hl | congruence]|].
      intros i Hi Hnone. apply fillna_fills, align_unmatched; assumption. }
  assert (HR1filled : forall name s,
            lookup_column name (columns R1) = Some s -> name <> key ->
            all_present s = true
            \/ (is_int_or_float (dtype_of s) = true /\ present_nums s = [])).
  { intros name s Hs Hne. apply (imputed_filled _ _ name s Himp).
    unfold reset_index in Hreset. rewrite HnameGi in Hreset.
    destruct (key_in key (column_names Gi)); [discriminate|].
    injection Hreset as <-. simpl in Hs.
    destruct (String.eqb_spec key name); [congruence | exact Hs]. }
  apply bind_ok in Hrun. destruct Hrun as [u3 [w8 [Hat Hrun]]].
  apply ret_ok in Hrun. destruct Hrun as [-> ->].
  assert (He1 : e1 < length (replace_nth e1 Gi (heap w4))).
  { rewrite replace_nth_length. eapply nth_error_lt, HG. }
  rewrite <- Hindex0 in Hkeys.
  destruct (truthy foreign_key) as [fkname|] eqn:Hfkey.
  - destruct (attach_foreign_key_inv _ _ _ _ _ _ Hat)
      as [raw2 [fkeys [df2 [R [_ [_ [Hdf2 [Hal ->]]]]]]]].
    simpl in Hdf2. rewrite (replace_nth_same _ _ _ He1) in Hdf2.
    injection Hdf2 as <-.
    destruct (setitem_aligned_ok _ _ _ _ _ Hal) as [Hi' [_ Hother]].
    exists raw, R.
    split; [exact Hraw|]. split; [exact Hkeys|].
    split; [simpl; apply replace_nth_same; rewrite replace_nth_length;
            exact He1|].
    split; [rewrite Hother; [exact Hkeycol | congruence]|].
    split; [unfold nrows in *; rewrite Hi'; exact Hrows1|].
    split.
    + intros c Hc.
      destruct (Hmerged c Hc)
        as [before [after [e [wa [ct [wb [ch [k [kc [ex [wc [E
             [Hsplit [Hpre [Hcall [Hch [Hk [Hkc [Hget [HE [HiE
             [HnamesE [Hcounts Hcols]]]]]]]]]]]]]]]]]]]]]]].
      destruct (HR1 c E kc HnamesE Hcounts Hcols) as [Hcounts1 Hcols1].
      exists before, after, e, wa, ct, wb, ch, k, kc, ex, wc, E.
      split; [exact Hsplit|]. split; [exact Hpre|]. split; [exact Hcall|].
      split; [exact Hch|]. split; [exact Hk|]. split; [exact Hkc|].
      split; [exact Hget|]. split; [exact HE|]. split; [exact HiE|].
      split.
      * eapply counts_ok_lookup; [|exact Hcounts1].
        apply Hother. intros Heq.
        apply (Hfk2 c "child_rows" Hc). rewrite <- Heq. reflexivity.
      * intros name e0 He0 Hne.
        destruct (Hcols1 name e0 He0 Hne) as [fv [filled [Hfv [Hf [Hl Hz]]]]].
        exists fv, filled. split; [exact Hfv|]. split; [exact Hf|].
        split; [|exact Hz].
        rewrite Hother; [exact Hl|]. intros Heq.
        assert (Hin : In name (column_names E)).
        { apply lookup_column_In. unfold column_names in *. congruence. }
        destruct (HnamesE name Hin) as [k0 Hk0].
        apply (Hfk2 c k0 Hc). congruence.
    + intros name s Hs Hne Hnfk. apply (HR1filled name s); [|exact Hne].
      rewrite <- Hother; [exact Hs | congruence].
  - apply ret_ok in Hat. destruct Hat as [_ ->].
    exists raw, R1.
    split; [exact Hraw|]. split; [exact Hkeys|].
    split; [simpl; apply replace_nth_same, He1|].
    split; [exact Hkeycol|].
    split; [exact Hrows1|].
    split.
    + intros c Hc.
      destruct (Hmerged c Hc)
        as [before [after [e [wa [ct [wb [ch [k [kc [ex [wc [E
             [Hsplit [Hpre [Hcall [Hch [Hk [Hkc [Hget [HE [HiE
             [HnamesE [Hcounts Hcols]]]]]]]]]]]]]]]]]]]]]]].
      destruct (HR1 c E kc HnamesE Hcounts Hcols) as [Hcounts1 Hcols1].
      exists before, after, e, wa, ct, wb, ch, k, kc, ex, wc, E.
      split; [exact Hsplit|]. split; [exact Hpre|]. split; [exact Hcall|].
      split; [exact Hch|]. split; [exact Hk|]. split; [exact Hkc|].
      split; [exact Hget|]. split; [exact HE|]. split; [exact HiE|].
      split; [exact Hcounts1 | exact Hcols1].
    + intros name s Hs Hne _. apply (HR1filled name s Hs Hne).
Qed.

End FilledExtensions.

Lemma cpa_child_rows_filled_witness :
  has_duplicates (values (Scenario.int_column [1; 2; 3]%Z)) = false
  /\ names_apart (get_children Scenario.metadata "users")
  /\ exists returned,
       Scenario.frame_of Scenario.run_users = Some returned
       /\ lookup_column "id" (columns returned)
          = Some (Scenario.int_column [1; 2; 3]%Z)
       /\ nrows returned = 3
       /\ counts_ok "__orders__child_rows"
            (unique (Scenario.int_column [1; 1; 3]%Z))
            (values (Scenario.int_column [1; 2; 3]%Z)) returned
       /\ exists filled,
            lookup_column "__orders__distribs__amount__mean"
                          (columns returned) = Some filled
            /\ nth_error (values filled) 1 = Some (Some (num (15 # 2))).
Proof.
  assert (Hapart : names_apart (get_children Scenario.metadata "users")).
  { apply no_underscore_names_apart. intros c Hc. simpl in Hc.
    destruct Hc as [<-|[]]. reflexivity. }
  split; [reflexivity|]. split; [exact Hapart|].
  destruct (cpa_child_rows_filled Scenario.metadata Scenario.model_class
              Scenario.log_one "users" None None 1 Scenario.empty_world
              "id" 0 1
              (snd (cpa_start Scenario.metadata "users" None "id"
                              Scenario.empty_world))
              (mkDataFrame (Some "id") (Scenario.int_column [1; 2; 3]%Z)
                           [("age", Scenario.int_column [30; 40; 50]%Z)])
              7 (snd Scenario.run_users))
    as [raw [returned [_ [_ [Hret [Hkeys [Hrows [Hchild _]]]]]]]].
  - reflexivity.
  - vm_compute. reflexivity.
  - vm_compute. reflexivity.
  - reflexivity.
  - simpl. constructor; [intros [] | constructor].
  - exact Hapart.
  - intros c k Hc. simpl in Hc. destruct Hc as [<-|[]]. reflexivity.
  - discriminate.
  - intros c k _. discriminate.
  - vm_compute. reflexivity.
  - destruct (Hchild "orders" (or_introl eq_refl))
      as [before [after [e [wa [ct [wb [ch [k [kc [ex [wc [E
           [Hsplit [Hpre [Hcall [Hch [Hk [Hkc [Hget [HE [_
           [Hcounts Hcols]]]]]]]]]]]]]]]]]]]]]].
    simpl in Hsplit.
    destruct before as [|b before];
      [|destruct before; discriminate Hsplit].
    simpl in Hpre. injection Hpre as <- <-.
    vm_compute in Hcall. injection Hcall as <- <-.
    vm_compute in Hch. injection Hch as <-.
    vm_compute in Hk. injection Hk as <-.
    vm_compute in Hkc. injection Hkc as <-.
    vm_compute in Hget. injection Hget as <- <-.
    vm_compute in HE. injection HE as <-.
    destruct (Hcols "__orders__distribs__amount__mean"
                (Scenario.float_column [Some 6; Some 9]%Q))
      as [fv [filled [Hfv [_ [Hl Hz]]]]].
    + vm_compute. reflexivity.
    + discriminate.
    + vm_compute in Hfv. injection Hfv as <-.
      exists returned.
      split; [unfold Scenario.frame_of; exact Hret|].
      split; [exact Hkeys|]. split; [exact Hrows|].
      split; [exact Hcounts|].
      exists filled. split; [exact Hl|].
      apply (Hz 1); vm_compute; [lia | reflexivity].
Defined.
